(** * Wildfire detection report: a shallow embedding of [main.py]

    The program queries the FIRMS feed for several sensors around a point,
    normalises the rows, scores them, filters out low-confidence rows and
    prints a table sorted by distance.  Python floats are IEEE binary64;
    they are modelled by Rocq's primitive floats, whose operations are the
    same binary64 operations (round to nearest, ties to even). *)

From Stdlib Require Import ZArith Lia Floats.
From Stdlib Require Import List Permutation Sorted Ascii String DecimalString.
From stdpp Require Import gmap strings list sorting.

Set Warnings "-inexact-float".

(** ** Binary64 comparisons

    Python's [<], [<=] and [>=] on floats are the IEEE comparisons: every
    comparison with NaN is false.  Away from NaN they form a total preorder,
    which is recovered here through an order embedding into triples of
    integers compared lexicographically. *)

Module F64.

Local Open Scope float_scope.

Definition is_nan (x : float) : bool := PrimFloat.is_nan x.

(** [x >= y] is [y <= x]. *)
Definition geb (x y : float) : bool := y <=? x.

(** Sign class, then exponent, then mantissa. *)
Definition key (f : spec_float) : Z * Z * Z :=
  match f with
  | S754_zero _ => (0, 0, 0)%Z
  | S754_infinity s => (if s then -2 else 2, 0, 0)%Z
  | S754_nan => (3, 0, 0)%Z
  | S754_finite s m e =>
      if s then (-1, - e, Z.neg m)%Z else (1, e, Z.pos m)%Z
  end.

Definition klt (a b : Z * Z * Z) : Prop :=
  let '(a1, a2, a3) := a in
  let '(b1, b2, b3) := b in
  (a1 < b1 \/ (a1 = b1 /\ (a2 < b2 \/ (a2 = b2 /\ a3 < b3))))%Z.

Definition kle (a b : Z * Z * Z) : Prop :=
  let '(a1, a2, a3) := a in
  let '(b1, b2, b3) := b in
  (a1 < b1 \/ (a1 = b1 /\ (a2 < b2 \/ (a2 = b2 /\ a3 <= b3))))%Z.

Definition sf_nan (f : spec_float) : bool :=
  match f with S754_nan => true | _ => false end.

Definition lt (x y : float) : Prop := (x <? y) = true.
Definition le (x y : float) : Prop := (x <=? y) = true.

Lemma is_nan_SF x : is_nan x = sf_nan (Prim2SF x).
Proof.
  unfold is_nan, PrimFloat.is_nan. rewrite FloatAxioms.eqb_spec.
  destruct (Prim2SF x) as [s|s| |s m e]; try (destruct s); simpl; try reflexivity.
  - unfold SFeqb; simpl. rewrite Z.compare_refl.
    change (Pos.compare_cont Eq m m) with (Pos.compare m m).
    now rewrite Pos.compare_refl.
  - unfold SFeqb; simpl. rewrite Z.compare_refl.
    change (Pos.compare_cont Eq m m) with (Pos.compare m m).
    now rewrite Pos.compare_refl.
Qed.

Lemma is_nan_eq x : is_nan x = true -> x = nan.
Proof.
  rewrite is_nan_SF. intros H. apply Prim2SF_inj.
  destruct (Prim2SF x); try discriminate. reflexivity.
Qed.

Ltac cmp_cases :=
  repeat match goal with
  | |- context [Z.compare ?a ?b] =>
      destruct (Z.compare_spec a b); simpl
  | |- context [Pos.compare_cont Eq ?a ?b] =>
      change (Pos.compare_cont Eq a b) with (Pos.compare a b);
      destruct (Pos.compare_spec a b); simpl
  end.

Lemma SFltb_key f g :
  sf_nan f = false -> sf_nan g = false ->
  SFltb f g = true <-> klt (key f) (key g).
Proof.
  unfold SFltb, klt.
  destruct f as [s|s| |s m e], g as [t|t| |t n d];
    try discriminate; intros _ _;
    try destruct s; try destruct t; simpl; cmp_cases;
    split; intros; try discriminate; try reflexivity; try lia.
Qed.

Lemma SFleb_key f g :
  sf_nan f = false -> sf_nan g = false ->
  SFleb f g = true <-> kle (key f) (key g).
Proof.
  unfold SFleb, kle.
  destruct f as [s|s| |s m e], g as [t|t| |t n d];
    try discriminate; intros _ _;
    try destruct s; try destruct t; simpl; cmp_cases;
    split; intros; try discriminate; try reflexivity; try lia.
Qed.

Lemma ltb_not_nan x y : (x <? y) = true -> is_nan x = false /\ is_nan y = false.
Proof.
  rewrite FloatAxioms.ltb_spec, !is_nan_SF. unfold SFltb.
  destruct (Prim2SF x), (Prim2SF y); simpl; intros; try discriminate; auto.
Qed.

Lemma leb_not_nan x y : (x <=? y) = true -> is_nan x = false /\ is_nan y = false.
Proof.
  rewrite FloatAxioms.leb_spec, !is_nan_SF. unfold SFleb.
  destruct (Prim2SF x), (Prim2SF y); simpl; intros; try discriminate; auto.
Qed.

Lemma ltb_key x y :
  is_nan x = false -> is_nan y = false ->
  (x <? y) = true <-> klt (key (Prim2SF x)) (key (Prim2SF y)).
Proof. rewrite !is_nan_SF, FloatAxioms.ltb_spec. apply SFltb_key. Qed.

Lemma leb_key x y :
  is_nan x = false -> is_nan y = false ->
  (x <=? y) = true <-> kle (key (Prim2SF x)) (key (Prim2SF y)).
Proof. rewrite !is_nan_SF, FloatAxioms.leb_spec. apply SFleb_key. Qed.

(** Unfolds the comparisons of the goal and of the hypotheses into linear
    integer arithmetic over the keys. *)
Ltac order :=
  unfold lt, le, geb in *;
  repeat match goal with
  | H : (_ <? _) = true |- _ =>
      let N := fresh in pose proof (ltb_not_nan _ _ H) as N; destruct N;
      apply ltb_key in H; [|assumption..]
  | H : (_ <=? _) = true |- _ =>
      let N := fresh in pose proof (leb_not_nan _ _ H) as N; destruct N;
      apply leb_key in H; [|assumption..]
  end.

Lemma leb_false_ltb x y :
  is_nan x = false -> is_nan y = false -> (x <=? y) = false -> (y <? x) = true.
Proof.
  intros Hx Hy H. apply ltb_key; try assumption.
  destruct (key (Prim2SF x)) as [[a1 a2] a3] eqn:Ka.
  destruct (key (Prim2SF y)) as [[b1 b2] b3] eqn:Kb.
  destruct (Z.lt_total b1 a1) as [|[|]]; simpl; try lia;
  destruct (Z.lt_total b2 a2) as [|[|]]; try lia;
  destruct (Z.lt_total b3 a3) as [|[|]]; try lia;
  exfalso; assert (E : (x <=? y) = true)
    by (apply leb_key; try assumption; rewrite Ka, Kb; simpl; lia);
  congruence.
Qed.

Lemma ltb_false_leb x y :
  is_nan x = false -> is_nan y = false -> (x <? y) = false -> (y <=? x) = true.
Proof.
  intros Hx Hy H. apply leb_key; try assumption.
  destruct (key (Prim2SF x)) as [[a1 a2] a3] eqn:Ka.
  destruct (key (Prim2SF y)) as [[b1 b2] b3] eqn:Kb.
  destruct (Z.lt_total b1 a1) as [|[|]]; simpl; try lia;
  destruct (Z.lt_total b2 a2) as [|[|]]; try lia;
  destruct (Z.le_gt_cases b3 a3); try lia;
  exfalso; assert (E : (x <? y) = true)
    by (apply ltb_key; try assumption; rewrite Ka, Kb; simpl; lia);
  congruence.
Qed.

Lemma ltb_leb_false x y : (x <? y) = true -> (y <=? x) = false.
Proof.
  intros H. destruct (y <=? x) eqn:E; [|reflexivity]. exfalso.
  order.
  destruct (key (Prim2SF x)) as [[a1 a2] a3], (key (Prim2SF y)) as [[b1 b2] b3].
  simpl in *. lia.
Qed.

Lemma leb_ltb_false x y : (x <=? y) = true -> (y <? x) = false.
Proof.
  intros H. destruct (y <? x) eqn:E; [|reflexivity]. exfalso.
  order.
  destruct (key (Prim2SF x)) as [[a1 a2] a3], (key (Prim2SF y)) as [[b1 b2] b3].
  simpl in *. lia.
Qed.

Lemma ltb_leb x y : (x <? y) = true -> (x <=? y) = true.
Proof.
  intros H. pose proof (ltb_not_nan _ _ H) as [Hx Hy].
  apply leb_key; try assumption. apply ltb_key in H; try assumption.
  destruct (key (Prim2SF x)) as [[a1 a2] a3], (key (Prim2SF y)) as [[b1 b2] b3].
  simpl in *. lia.
Qed.

Lemma leb_trans x y z : (x <=? y) = true -> (y <=? z) = true -> (x <=? z) = true.
Proof.
  intros H1 H2.
  pose proof (leb_not_nan _ _ H1) as [Hx Hy].
  pose proof (leb_not_nan _ _ H2) as [_ Hz].
  apply leb_key; try assumption.
  apply leb_key in H1; try assumption. apply leb_key in H2; try assumption.
  destruct (key (Prim2SF x)) as [[a1 a2] a3], (key (Prim2SF y)) as [[b1 b2] b3],
    (key (Prim2SF z)) as [[c1 c2] c3].
  simpl in *. lia.
Qed.

Lemma ltb_leb_trans x y z : (x <? y) = true -> (y <=? z) = true -> (x <? z) = true.
Proof.
  intros H1 H2.
  pose proof (ltb_not_nan _ _ H1) as [Hx Hy].
  pose proof (leb_not_nan _ _ H2) as [_ Hz].
  apply ltb_key; try assumption.
  apply ltb_key in H1; try assumption. apply leb_key in H2; try assumption.
  destruct (key (Prim2SF x)) as [[a1 a2] a3], (key (Prim2SF y)) as [[b1 b2] b3],
    (key (Prim2SF z)) as [[c1 c2] c3].
  simpl in *. lia.
Qed.

Lemma leb_ltb_trans x y z : (x <=? y) = true -> (y <? z) = true -> (x <? z) = true.
Proof.
  intros H1 H2.
  pose proof (leb_not_nan _ _ H1) as [Hx Hy].
  pose proof (ltb_not_nan _ _ H2) as [_ Hz].
  apply ltb_key; try assumption.
  apply leb_key in H1; try assumption. apply ltb_key in H2; try assumption.
  destruct (key (Prim2SF x)) as [[a1 a2] a3], (key (Prim2SF y)) as [[b1 b2] b3],
    (key (Prim2SF z)) as [[c1 c2] c3].
  simpl in *. lia.
Qed.

Lemma leb_refl x : is_nan x = false -> (x <=? x) = true.
Proof.
  intros Hx. apply leb_key; try assumption.
  destruct (key (Prim2SF x)) as [[a1 a2] a3]. simpl. lia.
Qed.

Lemma leb_total x y :
  is_nan x = false -> is_nan y = false -> (x <=? y) = true \/ (y <=? x) = true.
Proof.
  intros Hx Hy. destruct (x <=? y) eqn:E; [now left|right].
  apply ltb_leb. now apply leb_false_ltb.
Qed.

(** NaN is absorbing for the arithmetic of the program. *)

Lemma nan_SF x : is_nan x = true <-> Prim2SF x = S754_nan.
Proof.
  rewrite is_nan_SF. destruct (Prim2SF x); simpl; split; congruence.
Qed.

Lemma add_nan_l x y : is_nan x = true -> is_nan (x + y) = true.
Proof. rewrite !nan_SF, add_spec. intros ->. reflexivity. Qed.

Lemma add_nan_r x y : is_nan y = true -> is_nan (x + y) = true.
Proof.
  rewrite !nan_SF, add_spec. intros ->.
  destruct (Prim2SF x) as [[]|[]| |]; reflexivity.
Qed.

Lemma sub_nan_l x y : is_nan x = true -> is_nan (x - y) = true.
Proof. rewrite !nan_SF, sub_spec. intros ->. reflexivity. Qed.

Lemma mul_nan_l x y : is_nan x = true -> is_nan (x * y) = true.
Proof. rewrite !nan_SF, mul_spec. intros ->. reflexivity. Qed.

Lemma mul_nan_r x y : is_nan y = true -> is_nan (x * y) = true.
Proof.
  rewrite !nan_SF, mul_spec. intros ->.
  destruct (Prim2SF x) as [[]|[]| |]; reflexivity.
Qed.

Lemma div_nan_l x y : is_nan x = true -> is_nan (x / y) = true.
Proof. rewrite !nan_SF, div_spec. intros ->. reflexivity. Qed.

Lemma sqrt_nan x : is_nan x = true -> is_nan (PrimFloat.sqrt x) = true.
Proof. rewrite !nan_SF, sqrt_spec. intros ->. reflexivity. Qed.

Lemma abs_nan x : is_nan (PrimFloat.abs x) = is_nan x.
Proof. rewrite !is_nan_SF, abs_spec. destruct (Prim2SF x); reflexivity. Qed.

End F64.

(** ** Python built-ins used by the program *)

Module Py.

Local Open Scope string_scope.

Inductive exn := ValueError | OverflowError | IndexError.

Inductive result (A : Type) :=
  | Ok (a : A)
  | Raise (e : exn).
Arguments Ok {A} a.
Arguments Raise {A} e.

Definition bind {A B} (m : result A) (k : A -> result B) : result B :=
  match m with
  | Ok a => k a
  | Raise e => Raise e
  end.

Notation "'let*' x ':=' m 'in' k" := (bind m (fun x => k))
  (at level 10, x name, m at level 100, k at level 200).

(** A comprehension whose body can raise: the first exception wins. *)
Fixpoint traverse {A B} (f : A -> result B) (l : list A) : result (list B) :=
  match l with
  | [] => Ok []
  | a :: l' => let* b := f a in let* bs := traverse f l' in Ok (b :: bs)
  end.

(** [str(n)] for an [int]. *)
Definition str_int (z : Z) : string := NilZero.string_of_int (Z.to_int z).

(** [f"{n:02d}"]: zero padding up to two characters, sign included. *)
Definition format_02d (z : Z) : string :=
  let s := str_int z in
  if (String.length s <? 2)%nat then "0" +:+ s else s.

(** A string holds text as the bytes of its UTF-8 encoding.

    [str.isspace] of one character, given by these bytes.  Python has 29
    such characters: tab to carriage return, the separators 28 to 31 and the
    blank; U+0085 and U+00A0 (bytes 194 133 and 194 160); U+1680 (225 154
    128); U+2000 to U+200A, U+2028, U+2029 and U+202F (226 128 then 128 to
    138, 168, 169, 175); U+205F (226 129 159); U+3000 (227 128 128). *)
Definition is_space (bytes : list ascii) : bool :=
  match map nat_of_ascii bytes with
  | [n] => ((9 <=? n) && (n <=? 13) || (28 <=? n) && (n <=? 32))%nat
  | [n1; n2] => ((n1 =? 194) && ((n2 =? 133) || (n2 =? 160)))%nat
  | [n1; n2; n3] =>
      ((n1 =? 225) && (n2 =? 154) && (n3 =? 128) ||
       (n1 =? 226) && (n2 =? 128) &&
         ((128 <=? n3) && (n3 <=? 138) || (n3 =? 168) || (n3 =? 169) || (n3 =? 175)) ||
       (n1 =? 226) && (n2 =? 129) && (n3 =? 159) ||
       (n1 =? 227) && (n2 =? 128) && (n3 =? 128))%nat
  | _ => false
  end.

(** [str.lstrip()]: the leading characters that are spaces go. *)
Fixpoint lstrip (s : string) : string :=
  match s with
  | String c1 s1 =>
      if is_space [c1] then lstrip s1
      else
        match s1 with
        | String c2 s2 =>
            if is_space [c1; c2] then lstrip s2
            else
              match s2 with
              | String c3 s3 => if is_space [c1; c2; c3] then lstrip s3 else s
              | EmptyString => s
              end
        | EmptyString => s
        end
  | EmptyString => EmptyString
  end.

(** The same on the mirrored text, where the bytes of each character come
    last first. *)
Fixpoint lstrip_mirrored (s : string) : string :=
  match s with
  | String c1 s1 =>
      if is_space [c1] then lstrip_mirrored s1
      else
        match s1 with
        | String c2 s2 =>
            if is_space [c2; c1] then lstrip_mirrored s2
            else
              match s2 with
              | String c3 s3 =>
                  if is_space [c3; c2; c1] then lstrip_mirrored s3 else s
              | EmptyString => s
              end
        | EmptyString => s
        end
  | EmptyString => EmptyString
  end.

(** [str.rstrip()]. *)
Definition rstrip (s : string) : string :=
  String.rev (lstrip_mirrored (String.rev s)).

(** [str.strip()]. *)
Definition strip (s : string) : string := rstrip (lstrip s).

(** [str.lower()] on the 26 capital letters of ASCII.  Python also moves
    characters outside ASCII; they are left as they are here, which changes
    no comparison with [low], [nominal] or [high]: the lowercase of such a
    character holds an ASCII letter for two of them only, the Kelvin sign
    U+212A, which gives [k], and U+0130, which gives [i] followed by a
    combining dot. *)
Definition lower_char (c : ascii) : ascii :=
  let n := nat_of_ascii c in
  if ((65 <=? n) && (n <=? 90))%nat then ascii_of_nat (n + 32) else c.

Fixpoint lower (s : string) : string :=
  match s with
  | String c s' => String (lower_char c) (lower s')
  | EmptyString => EmptyString
  end.

Fixpoint repeat_char (c : ascii) (n : nat) : string :=
  match n with
  | O => EmptyString
  | S n' => String c (repeat_char c n')
  end.

(** [str.center(width)]: when the padding is odd the extra blank goes to the
    left exactly when the width is odd too. *)
Definition center (s : string) (width : nat) : string :=
  let len := String.length s in
  if (width <=? len)%nat then s
  else
    let marg := (width - len)%nat in
    let left := (marg / 2 + (if Nat.odd marg && Nat.odd width then 1 else 0))%nat in
    repeat_char " " left +:+ s +:+ repeat_char " " (marg - left).

Fixpoint join (sep : string) (l : list string) : string :=
  match l with
  | [] => ""
  | [s] => s
  | s :: l' => s +:+ sep +:+ join sep l'
  end.

(** Nearest integer to [m * 2^e], ties to the even neighbour. *)
Definition round_half_even (m : positive) (e : Z) : Z :=
  if (0 <=? e)%Z then (Z.pos m * 2 ^ e)%Z
  else
    let d := (2 ^ (- e))%Z in
    let q := (Z.pos m / d)%Z in
    let r := (Z.pos m mod d)%Z in
    if (2 * r <? d)%Z then q
    else if (d <? 2 * r)%Z then (q + 1)%Z
    else if Z.even q then q else (q + 1)%Z.

(** [f"{x:.0f}"]: the exact binary value rounded to an integer, half to
    even, printed in decimal. *)
Definition format_0f (x : float) : string :=
  match Prim2SF x with
  | S754_nan => "nan"
  | S754_infinity s => if s then "-inf" else "inf"
  | S754_zero s => if s then "-0" else "0"
  | S754_finite s m e =>
      (if s then "-" else "") +:+ str_int (round_half_even m e)
  end.

(** [int(x)] for a float: truncation towards zero. *)
Definition int_of_float (x : float) : result Z :=
  match Prim2SF x with
  | S754_nan => Raise ValueError
  | S754_infinity _ => Raise OverflowError
  | S754_zero _ => Ok 0%Z
  | S754_finite s m e =>
      let a := if (0 <=? e)%Z then (Z.pos m * 2 ^ e)%Z
               else (Z.pos m / 2 ^ (- e))%Z in
      Ok (if s then (- a)%Z else a)
  end.

End Py.

Import Py.

(** ** Data model

    A cell of a frame is a number or a string; a missing value is the
    number NaN, as in pandas.  An integer cell is represented by its
    binary64 value, the value pandas gives it in any column that also holds
    a missing value.  A row maps column names to cells, a column absent from
    the map reading as missing; a frame is an ordered list of column names
    and a list of rows, each with its index label. *)

Inductive cell :=
  | CNum (x : float)
  | CStr (s : string).

Abbreviation row := (gmap string cell).

Record DataFrame := mkDF {
  columns : list string;
  rows : list (nat * row)
}.

(** [pd.DataFrame()]. *)
Definition empty_frame : DataFrame := mkDF [] [].

(** [df.empty]: some axis has length zero. *)
Definition df_empty (df : DataFrame) : bool :=
  match columns df, rows df with
  | [], _ | _, [] => true
  | _, _ => false
  end.

Definition missing : cell := CNum nan.

Definition cell_at (c : string) (r : row) : cell := default missing (r !! c).

(** The value of a cell in a column of dtype float. *)
Definition numeric_value (v : cell) : float :=
  match v with
  | CNum x => x
  | CStr _ => nan
  end.

(** [pd.isna]. *)
Definition isna (v : cell) : bool :=
  match v with
  | CNum x => F64.is_nan x
  | CStr _ => false
  end.

(** [df[c]] as a Series; before the filter the labels of the frame are
    [0 .. n-1], so a Series is the list of its values by label. *)
Definition column (c : string) (df : DataFrame) : list cell :=
  map (fun ir => cell_at c ir.2) (rows df).

(** [df[c] = series]: the values are aligned on the index label; a label the
    Series lacks gets a missing value. *)
Definition assign (c : string) (vals : list cell) (df : DataFrame) : DataFrame :=
  mkDF (if bool_decide (c ∈ columns df) then columns df else columns df ++ [c])
       (map (fun ir : nat * row => (ir.1, <[c := default missing (vals !! ir.1)]> ir.2))
            (rows df)).

(** [df[c] = v] for a scalar. *)
Definition assign_scalar (c : string) (v : cell) (df : DataFrame) : DataFrame :=
  mkDF (if bool_decide (c ∈ columns df) then columns df else columns df ++ [c])
       (map (fun ir : nat * row => (ir.1, <[c := v]> ir.2)) (rows df)).

(** [df[mask]] for a boolean Series over the same labels. *)
Definition select (mask : list bool) (df : DataFrame) : DataFrame :=
  mkDF (columns df)
       (filter (fun ir : nat * row => default false (mask !! ir.1) = true) (rows df)).

(** Union of the column names in order of first appearance. *)
Definition union_columns (dfs : list DataFrame) : list string :=
  foldl (fun acc df => acc ++ filter (fun c => c ∉ acc) (columns df)) [] dfs.

(** [pd.concat(dfs, ignore_index=True)]. *)
Definition concat (dfs : list DataFrame) : DataFrame :=
  let rs := flat_map (fun df => map snd (rows df)) dfs in
  mkDF (union_columns dfs) (combine (seq 0 (length rs)) rs).

(** [reset_index(drop=True)]. *)
Definition reset_index (df : DataFrame) : DataFrame :=
  mkDF (columns df) (combine (seq 0 (length (rows df))) (map snd (rows df))).

(** ** The environment

    What the program takes from outside: the C library behind [math] and
    [numpy], the string-to-number parsers of Python and pandas, [repr] of a
    float, the FIRMS server followed by [pd.read_csv], and the sorting
    routine numpy runs for [kind='quicksort']. *)

Record Env := {
  math_radians : float -> float;
  math_cos : float -> float;
  np_radians : float -> float;
  np_sin : float -> float;
  np_cos : float -> float;
  np_arctan2 : float -> float -> float;
  (** [float(s)], [None] where Python raises [ValueError] *)
  py_float : string -> option float;
  (** [int(s)], [None] where Python raises [ValueError] *)
  py_int : string -> option Z;
  (** the parser of [pd.to_numeric], [None] where it fails *)
  pd_numeric : string -> option float;
  (** [str(x)] for a float *)
  str_float : float -> string;
  (** [requests.get], [raise_for_status] and [pd.read_csv] on a URL: the
      text of the exception, or the parsed frame with labels [0 .. n-1] *)
  fetch : string -> string + DataFrame;
  (** [ndarray.argsort(kind='quicksort')] on an array without NaN *)
  argsort : list float -> list nat
}.

(** ** generate_bbox

    The function is written over the operations it uses; [float_arith]
    gives them as Python runs them. *)

Class Arith (A : Type) := {
  n_add : A -> A -> A;
  n_sub : A -> A -> A;
  n_mul : A -> A -> A;
  n_div : A -> A -> A;
  n_abs : A -> A;
  n_ltb : A -> A -> bool;
  n_cos : A -> A;
  n_radians : A -> A;
  lit_111 : A;
  lit_89_9 : A;
  lit_0_0001 : A
}.

Definition generate_bbox {A} `{Arith A} (lat lon radius_km : A) : A * A * A * A :=
  let delta_lat := n_div radius_km lit_111 in
  let cos_lat :=
    if n_ltb (n_abs lat) lit_89_9 then n_cos (n_radians lat) else lit_0_0001 in
  let delta_lon := n_div radius_km (n_mul lit_111 cos_lat) in
  (n_sub lon delta_lon, n_sub lat delta_lat, n_add lon delta_lon, n_add lat delta_lat).

(** Binary64, with the cosine and the degree conversion of the [math]
    module. *)
#[export] Instance float_arith (E : Env) : Arith float := {|
  n_add := PrimFloat.add;
  n_sub := PrimFloat.sub;
  n_mul := PrimFloat.mul;
  n_div := PrimFloat.div;
  n_abs := PrimFloat.abs;
  n_ltb := PrimFloat.ltb;
  n_cos := math_cos E;
  n_radians := math_radians E;
  lit_111 := 111%float;
  lit_89_9 := 89.9%float;
  lit_0_0001 := 0.0001%float
|}.

Section Program.

Variable E : Env.

Local Open Scope string_scope.
Local Open Scope float_scope.

(** The f-string returned by [generate_bbox]. *)
Definition bbox_string (b : float * float * float * float) : string :=
  let '(min_lon, min_lat, max_lon, max_lat) := b in
  str_float E min_lon +:+ "," +:+ str_float E min_lat +:+ "," +:+
  str_float E max_lon +:+ "," +:+ str_float E max_lat.

(** ** haversine_np *)

(** [astype(float)] on one value. *)
Definition astype_float (v : cell) : result float :=
  match v with
  | CNum x => Ok x
  | CStr s =>
      match py_float E s with
      | Some x => Ok x
      | None => Raise ValueError
      end
  end.

(** [x ** 2] on an array: numpy squares. *)
Definition square (x : float) : float := x * x.

Definition haversine_np (lat0 lon0 : float) (lats lons : list cell)
  : result (list float) :=
  let R := 6371.0 in
  let lat0_rad := np_radians E lat0 in
  let lon0_rad := np_radians E lon0 in
  let* lats_f := traverse astype_float lats in
  let lats_rad := map (np_radians E) lats_f in
  let* lons_f := traverse astype_float lons in
  let lons_rad := map (np_radians E) lons_f in
  let dlat := map (fun x => x - lat0_rad) lats_rad in
  let dlon := map (fun x => x - lon0_rad) lons_rad in
  let a :=
    zip_with PrimFloat.add
      (map (fun d => square (np_sin E (d / 2.0))) dlat)
      (zip_with PrimFloat.mul
         (map (fun l => np_cos E lat0_rad * np_cos E l) lats_rad)
         (map (fun d => square (np_sin E (d / 2.0))) dlon)) in
  let c :=
    map (fun a => 2 * np_arctan2 E (PrimFloat.sqrt a) (PrimFloat.sqrt (1 - a))) a in
  Ok (map (fun c => R * c) c).

(** ** Normalisation *)

(** [astype(str)] on one value. *)
Definition astype_str (v : cell) : string :=
  match v with
  | CStr s => s
  | CNum x => str_float E x
  end.

(** [pd.to_numeric(errors='coerce')] on one value. *)
Definition to_numeric (v : cell) : float :=
  match v with
  | CNum x => x
  | CStr s => default nan (pd_numeric E s)
  end.

(** [fillna] on one value. *)
Definition fillna (x d : float) : float := if F64.is_nan x then d else x.

(** [Series.clip(lower, upper)] on one value: a missing value stays. *)
Definition clip (lower upper x : float) : float :=
  let r := if F64.is_nan x || F64.geb x lower then x else lower in
  if F64.is_nan x || (x <=? upper) then r else upper.

Definition mapping : gmap string float :=
  {[ "low" := 30; "nominal" := 60; "high" := 90 ]}.

(** Lines 66 to 73: the confidence column as a percentage. *)
Definition confidence_percentage (confidence : list cell) : list float :=
  let conf_raw := map (fun v => lower (strip (astype_str v))) confidence in
  let mask_map := map (fun s => bool_decide (is_Some (mapping !! s))) conf_raw in
  let confidence_pct :=
    zip_with (fun (m : bool) s => if m then default nan (mapping !! s) else nan)
      mask_map conf_raw in
  let numeric_conf := map to_numeric confidence in
  let confidence_pct :=
    map (clip 0 100) (zip_with fillna confidence_pct numeric_conf) in
  map (fun x => fillna x 0) confidence_pct.

(** [np.select([frp < 30, frp < 100], ['Low', 'Moderate'], default='High')]
    on one value. *)
Definition intensity (frp : float) : string :=
  if frp <? 30 then "Low" else if frp <? 100 then "Moderate" else "High".

(** [int(x)]. *)
Definition int_of_cell (v : cell) : result Z :=
  match v with
  | CNum x => int_of_float x
  | CStr s =>
      match py_int E s with
      | Some z => Ok z
      | None => Raise ValueError
      end
  end.

(** The lambda of line 88. *)
Definition format_time (x : cell) : result string :=
  if negb (isna x) then
    let* h := int_of_cell x in
    let* m := int_of_cell x in
    Ok (format_02d (h / 100) +:+ ":" +:+ format_02d (m mod 100))
  else Ok "00:00".

Definition classify_risk (conf : float) : string :=
  if F64.geb conf 70 then "High"
  else if F64.geb conf 50 then "Medium"
  else "Low".

(** ** Sorting

    [df.sort_values(by=...)] with the defaults [kind='quicksort'] and
    [na_position='last']: pandas sets the rows whose key is NaN apart, sorts
    the others through [argsort] and appends the NaN rows in their original
    order.  The key column is numeric wherever the program sorts. *)

Definition sort_key (by_ : string) (r : row) : float :=
  numeric_value (cell_at by_ r).

(** [rows.take(indexer)]: an index out of range raises. *)
Definition take {A} (l : list A) (indexer : list nat) : result (list A) :=
  traverse (fun i => match l !! i with
                     | Some a => Ok a
                     | None => Raise IndexError
                     end) indexer.

Definition sort_values (by_ : string) (df : DataFrame) : result DataFrame :=
  let non_nans :=
    filter (fun ir : nat * row => F64.is_nan (sort_key by_ ir.2) = false) (rows df) in
  let nans :=
    filter (fun ir : nat * row => F64.is_nan (sort_key by_ ir.2) = true) (rows df) in
  let* sorted := take non_nans (argsort E (map (fun ir => sort_key by_ ir.2) non_nans)) in
  Ok (mkDF (columns df) (sorted ++ nans)).

(** ** The printed table *)

Definition report_columns : list string :=
  ["satellite"; "latitude"; "longitude"; "date"; "time";
   "frp"; "intensity"; "confidence_percent"; "fire_risk"; "distance_km"].

Definition widths (df : DataFrame) : list nat :=
  map (fun col =>
         max (max_list (map (fun v => String.length (astype_str v)) (column col df)))
             (String.length col))
      report_columns.

Definition center_text (val : cell) (width : nat) : string :=
  center (astype_str val) width.

Definition header (ws : list nat) : string :=
  join " | " (zip_with center report_columns ws).

Definition divider (ws : list nat) : string :=
  join "-+-" (map (repeat_char "-") ws).

Definition row_line (ws : list nat) (r : row) : string :=
  join " | " (zip_with (fun col w => center_text (cell_at col r) w) report_columns ws).

(** The pictographs that open the messages, as the bytes of the source
    file. *)
Definition mark_error : string :=
  String "226" (String "128" (String "154" (String "195" (String "185"
    (String "195" (String "165" ""))))))%char.
Definition mark_ok : string :=
  String "226" (String "128" (String "154" (String "195" (String "186"
    (String "195" (String "150" ""))))))%char.
Definition mark_fire : string :=
  String "239" (String "163" (String "191" (String "195" (String "188"
    (String "195" (String "174" (String "226" (String "128"
    (String "162" "")))))))))%char.
Definition newline : string := String "010"%char "".

Definition error_message (sat e : string) : string :=
  mark_error +:+ " Error accessing " +:+ sat +:+ ": " +:+ e.
Definition no_data_message : string :=
  mark_ok +:+ " No fires detected (no data returned from satellites).".
Definition no_reliable_message : string :=
  mark_ok +:+ " No reliable fires detected within the specified radius.".

Definition print_table (lat lon radius_km : float) (days : Z) (df : DataFrame)
  : list string :=
  let ws := widths df in
  ([ newline +:+ mark_fire +:+ " FIRE ALERT " +:+ mark_fire;
    "Detected " +:+ str_int (Z.of_nat (length (rows df))) +:+
    " reliable fires within " +:+ str_float E radius_km +:+
    " km of coordinates (" +:+ str_float E lat +:+ ", " +:+ str_float E lon +:+
    ") over the last " +:+ str_int days +:+ " days" +:+ newline;
    header ws;
    divider ws ]
  ++ map (fun ir : nat * row => row_line ws ir.2) (rows df))%list.

(** ** check_fires *)

Definition MAP_KEY : string := "map-key".
Definition SATELLITES : list string :=
  ["MODIS_NRT"; "VIIRS_NOAA20_NRT"; "VIIRS_SUOMI_NPP_NRT"].

Definition url (sat bbox : string) (days : Z) : string :=
  "https://firms.modaps.eosdis.nasa.gov/api/area/csv/" +:+ MAP_KEY +:+ "/" +:+
  sat +:+ "/" +:+ bbox +:+ "/" +:+ str_int days.

(** Step 1, the loop over the sensors: what it prints and the frames it
    keeps. *)
Fixpoint collect (lat lon : float) (sat_list : list string)
    (radius_km : float) (days : Z) : list string * list DataFrame :=
  match sat_list with
  | [] => ([], [])
  | sat :: rest =>
      let bbox := bbox_string (generate_bbox (H := float_arith E) lat lon radius_km) in
      let '(out, dfs) := collect lat lon rest radius_km days in
      match fetch E (url sat bbox days) with
      | inl e => (error_message sat e :: out, dfs)
      | inr df =>
          if df_empty df then (out, dfs)
          else (out, assign_scalar "satellite" (CStr sat) df :: dfs)
      end
  end.

Definition required_columns : list string :=
  ["latitude"; "longitude"; "frp"; "confidence"; "acq_time"; "acq_date"].

(** Lines 59 to 61: a required column the frame lacks is created, all
    missing. *)
Definition ensure_columns (df : DataFrame) : DataFrame :=
  foldl (fun df col =>
           if bool_decide (col ∈ columns df) then df
           else assign_scalar col missing df)
        df required_columns.

(** Step 2 from the numeric conversion of [frp] up to the filter (lines 63
    to 89), on the unioned frame with its required columns: the frame with
    its derived columns, and the numeric confidence Series. *)
Definition process (lat lon : float) (df : DataFrame)
  : result (DataFrame * list float) :=
  let df :=
    assign "frp" (map (fun v => CNum (fillna (to_numeric v) 0)) (column "frp" df)) df in
  let confidence_pct := confidence_percentage (column "confidence" df) in
  let df :=
    assign "confidence_percent"
      (map (fun x => CStr (format_0f x +:+ "%")) confidence_pct) df in
  let df :=
    assign "intensity"
      (map (fun v => CStr (intensity (numeric_value v))) (column "frp" df)) df in
  let* distance := haversine_np lat lon (column "latitude" df) (column "longitude" df) in
  let df := assign "distance_km" (map CNum distance) df in
  let* time := traverse format_time (column "acq_time" df) in
  let df := assign "time" (map CStr time) df in
  let df := assign "date" (column "acq_date" df) df in
  Ok (df, confidence_pct).

(** Line 92: the rows whose numeric confidence is at least 40. *)
Definition reliable (df : DataFrame) (confidence_pct : list float) : DataFrame :=
  select (map (fun x => F64.geb x 40) confidence_pct) df.

(** Lines 106 and 107 before [reset_index]: the risk column, then the sort;
    the rows still carry the labels of the unioned frame. *)
Definition ranked (df : DataFrame) (confidence_pct : list float) : result DataFrame :=
  let df :=
    assign "fire_risk" (map (fun x => CStr (classify_risk x)) confidence_pct) df in
  sort_values "distance_km" df.

(** What is printed, and what is returned or raised. *)
Definition check_fires (lat lon : float) (sat_list : list string)
    (radius_km : float) (days : Z) : list string * result DataFrame :=
  let '(out, dfs) := collect lat lon sat_list radius_km days in
  match dfs with
  | [] => ((out ++ [no_data_message])%list, Ok empty_frame)
  | _ =>
      let df := concat dfs in
      let df := ensure_columns df in
      match process lat lon df with
      | Raise e => (out, Raise e)
      | Ok (df, confidence_pct) =>
          let df := reliable df confidence_pct in
          if df_empty df then ((out ++ [no_reliable_message])%list, Ok empty_frame)
          else
            match ranked df confidence_pct with
            | Raise e => (out, Raise e)
            | Ok df =>
                let df := reset_index df in
                ((out ++ print_table lat lon radius_km days df)%list, Ok df)
            end
      end
  end.

End Program.

(** ** Assumptions on the environment *)

(** A frame as [pd.read_csv] builds it: a row has cells only under the
    column names of the frame. *)
Definition well_formed (df : DataFrame) : Prop :=
  ∀ ir c, ir ∈ rows df → is_Some (ir.2 !! c) → c ∈ columns df.

(** The key of the element an index points to. *)
Definition key_at (ks : list float) (i : nat) : float := default nan (ks !! i).

Definition ascending (ks : list float) (a b : nat) : Prop :=
  (key_at ks a <=? key_at ks b)%float = true.

Definition no_nan (ks : list float) : Prop :=
  Forall (fun k => F64.is_nan k = false) ks.

Record EnvSpec (E : Env) : Prop := {
  (** [argsort] returns the indices of its argument, each once, in an order
      that makes the keys ascend; nothing is said about equal keys. *)
  argsort_perm : ∀ ks, no_nan ks → Permutation (argsort E ks) (seq 0 (length ks));
  argsort_sorted : ∀ ks, no_nan ks → Sorted (ascending ks) (argsort E ks);
  (** NaN goes through the numpy functions of [haversine_np]. *)
  radians_nan : ∀ x, F64.is_nan x = true → F64.is_nan (np_radians E x) = true;
  sin_nan : ∀ x, F64.is_nan x = true → F64.is_nan (np_sin E x) = true;
  arctan2_nan : ∀ y x, F64.is_nan y = true → F64.is_nan (np_arctan2 E y x) = true;
  (** the frames read from the feed are well formed *)
  fetch_well_formed : ∀ u df, fetch E u = inr df → well_formed df
}.

(** ** Two sorting routines that meet the contract

    Insertion of the indices from the last to the first.  With the
    comparison [<=] an index is put before the equal keys that follow it
    (a stable sort); with [<] it is put after them. *)

Section Insertion.

Variable strict : bool.
Variable ks : list float.

Definition goes_before (i j : nat) : bool :=
  if strict then (key_at ks i <? key_at ks j)%float
  else (key_at ks i <=? key_at ks j)%float.

Fixpoint insert_index (i : nat) (sorted : list nat) : list nat :=
  match sorted with
  | [] => [i]
  | j :: rest =>
      if goes_before i j then i :: sorted else j :: insert_index i rest
  end.

Definition insertion_argsort : list nat :=
  foldr insert_index [] (seq 0 (length ks)).

Lemma insert_index_perm i l : Permutation (insert_index i l) (i :: l).
Proof.
  induction l as [|j l IH]; simpl; [reflexivity|].
  destruct (goes_before i j); [reflexivity|].
  rewrite IH. apply perm_swap.
Qed.

Lemma insertion_argsort_perm : Permutation insertion_argsort (seq 0 (length ks)).
Proof.
  unfold insertion_argsort. induction (seq 0 (length ks)) as [|i l IH]; simpl.
  - reflexivity.
  - rewrite insert_index_perm. now constructor.
Qed.

Hypothesis keys_no_nan : no_nan ks.

Lemma key_at_no_nan i : i < length ks → F64.is_nan (key_at ks i) = false.
Proof.
  intros Hi. unfold key_at.
  destruct (lookup_lt_is_Some_2 ks i Hi) as [k Hk]. rewrite Hk. simpl.
  unfold no_nan in keys_no_nan. rewrite Forall_forall in keys_no_nan.
  apply keys_no_nan. eapply list_elem_of_lookup_2, Hk.
Qed.

Lemma goes_before_ascending i j :
  goes_before i j = true → ascending ks i j.
Proof using Type.
  unfold goes_before, ascending. destruct strict; [apply F64.ltb_leb|auto].
Qed.

Lemma not_goes_before_ascending i j :
  i < length ks → j < length ks → goes_before i j = false → ascending ks j i.
Proof using keys_no_nan.
  intros Hi Hj. unfold goes_before, ascending.
  pose proof (key_at_no_nan i Hi). pose proof (key_at_no_nan j Hj).
  destruct strict; intros H'.
  - now apply F64.ltb_false_leb.
  - apply F64.ltb_leb. now apply F64.leb_false_ltb.
Qed.

Lemma insert_index_sorted i l :
  i < length ks → Forall (fun j => j < length ks) l →
  Sorted (ascending ks) l → Sorted (ascending ks) (insert_index i l).
Proof using keys_no_nan.
  intros Hi. induction l as [|j l IH]; simpl; intros Hl Hs.
  - repeat constructor.
  - apply Forall_cons in Hl as [Hj Hl]. apply Sorted_inv in Hs as [Hs Hd].
    destruct (goes_before i j) eqn:G.
    + constructor; [now constructor|]. constructor. now apply goes_before_ascending.
    + constructor; [now apply IH|].
      destruct l as [|k l]; simpl.
      * constructor. now apply not_goes_before_ascending.
      * destruct (goes_before i k).
        -- constructor. now apply not_goes_before_ascending.
        -- constructor. now inversion Hd.
Qed.

Lemma insertion_argsort_sorted : Sorted (ascending ks) insertion_argsort.
Proof using keys_no_nan.
  unfold insertion_argsort.
  assert (B : Forall (fun j => j < length ks) (seq 0 (length ks))).
  { apply Forall_forall. intros j Hj. apply elem_of_seq in Hj. lia. }
  induction (seq 0 (length ks)) as [|i l IH]; simpl.
  - constructor.
  - apply Forall_cons in B as [Hi B].
    apply insert_index_sorted; [assumption| |now apply IH].
    apply Forall_forall. intros j Hj.
    rewrite Forall_forall in B. apply B.
    clear -Hj. induction l as [|a l IHl]; simpl in *; [easy|].
    rewrite insert_index_perm in Hj.
    apply elem_of_cons in Hj as [->|Hj]; [left|right; auto].
Qed.

End Insertion.


(** ** The sorting routine of numpy

    [ndarray.argsort(kind='quicksort')] on doubles, as numpy runs it where
    no vectorised kernel is selected: the introsort of
    [npysort/quicksort.cpp] ([aquicksort_]), on an array of indices
    [tosort] into the keys [v].  A segment of more than 17 indices is
    partitioned around the median of its first, middle and last keys;
    shorter segments are finished by insertion; a segment reached after
    more than [2 * floor (log2 n)] partitions is heap-sorted
    ([aheapsort_]).  Loops run on fuel; the result is [None] when it runs
    out. *)
Module Numpy.

Local Open Scope nat_scope.

Section Sort.

Variable v : list float.

(** [npy::less] on doubles: NaN sorts to the end. *)
Definition less (a b : float) : bool :=
  (a <? b)%float || (F64.is_nan b && negb (F64.is_nan a)).

Definition key_of (tosort : list nat) (p : nat) : float :=
  default nan (v !! default 0 (tosort !! p)).

Definition swap (tosort : list nat) (p q : nat) : list nat :=
  <[q := default 0 (tosort !! p)]> (<[p := default 0 (tosort !! q)]> tosort).

(** [do ++pi; while (less(v[*pi], vp));] *)
Fixpoint scan_up (fuel : nat) (tosort : list nat) (vp : float) (pi : nat)
  : option nat :=
  match fuel with
  | O => None
  | S fuel =>
      let pi := S pi in
      if less (key_of tosort pi) vp then scan_up fuel tosort vp pi else Some pi
  end.

(** [do --pj; while (less(vp, v[*pj]));] *)
Fixpoint scan_down (fuel : nat) (tosort : list nat) (vp : float) (pj : nat)
  : option nat :=
  match fuel with
  | O => None
  | S fuel =>
      let pj := pj - 1 in
      if less vp (key_of tosort pj) then scan_down fuel tosort vp pj else Some pj
  end.

(** The [for (;;)] of the partition. *)
Fixpoint exchange (fuel : nat) (tosort : list nat) (vp : float) (pi pj : nat)
  : option (list nat * nat) :=
  match fuel with
  | O => None
  | S fuel' =>
      match scan_up fuel tosort vp pi with
      | None => None
      | Some pi =>
          match scan_down fuel tosort vp pj with
          | None => None
          | Some pj =>
              if pj <=? pi then Some (tosort, pi)
              else exchange fuel' (swap tosort pi pj) vp pi pj
          end
      end
  end.

(** One partition of the segment from [pl] to [pr]: the array, and where
    the pivot ends. *)
Definition partition (fuel : nat) (tosort : list nat) (pl pr : nat)
  : option (list nat * nat) :=
  let pm := pl + (pr - pl) / 2 in
  let tosort :=
    if less (key_of tosort pm) (key_of tosort pl) then swap tosort pm pl else tosort in
  let tosort :=
    if less (key_of tosort pr) (key_of tosort pm) then swap tosort pr pm else tosort in
  let tosort :=
    if less (key_of tosort pm) (key_of tosort pl) then swap tosort pm pl else tosort in
  let vp := key_of tosort pm in
  let pi := pl in
  let pj := pr - 1 in
  let tosort := swap tosort pm pj in
  match exchange fuel tosort vp pi pj with
  | None => None
  | Some (tosort, pi) =>
      let pk := pr - 1 in
      Some (swap tosort pi pk, pi)
  end.

(** [while (pj > pl && less(vp, v[*pk])) { *pj-- = *pk--; }] and
    [*pj = vi]. *)
Fixpoint sift_left (fuel : nat) (tosort : list nat) (pl : nat) (vi : nat) (pj : nat)
  : list nat :=
  match fuel with
  | O => tosort
  | S fuel =>
      if (pl <? pj) && less (default nan (v !! vi)) (key_of tosort (pj - 1))
      then sift_left fuel (<[pj := default 0 (tosort !! (pj - 1))]> tosort) pl vi (pj - 1)
      else <[pj := vi]> tosort
  end.

(** The insertion sort of the segment from [pl] to [pr]. *)
Definition insertion (tosort : list nat) (pl pr : nat) : list nat :=
  foldl (fun tosort pi =>
           sift_left (S pi) tosort pl (default 0 (tosort !! pi)) pi)
        tosort (seq (S pl) (pr - pl)).

(** [aheapsort_] on the [n] indices from [pl]; [a] is the array offset by
    one, so [a[k]] is the index at [pl + k - 1]. *)
Definition heap_get (tosort : list nat) (pl k : nat) : nat :=
  default 0 (tosort !! (pl + k - 1)).

Definition heap_key (tosort : list nat) (pl k : nat) : float :=
  default nan (v !! heap_get tosort pl k).

Fixpoint sift_down (fuel : nat) (tosort : list nat) (pl n tmp i j : nat)
  : list nat :=
  match fuel with
  | O => tosort
  | S fuel =>
      if j <=? n then
        let j :=
          if (j <? n) && less (heap_key tosort pl j) (heap_key tosort pl (j + 1))
          then j + 1 else j in
        if less (default nan (v !! tmp)) (heap_key tosort pl j)
        then sift_down fuel (<[pl + i - 1 := heap_get tosort pl j]> tosort)
               pl n tmp j (j + j)
        else <[pl + i - 1 := tmp]> tosort
      else <[pl + i - 1 := tmp]> tosort
  end.

Definition aheapsort (tosort : list nat) (pl n : nat) : list nat :=
  let tosort :=
    foldl (fun tosort l =>
             sift_down (S n) tosort pl n (heap_get tosort pl l) l (l + l))
          tosort (reverse (seq 1 (n / 2))) in
  foldl (fun tosort n =>
           let tmp := heap_get tosort pl n in
           let tosort := <[pl + n - 1 := heap_get tosort pl 1]> tosort in
           sift_down n tosort pl (n - 1) tmp 1 2)
        tosort (reverse (seq 2 (n - 1))).

(** [while ((pr - pl) > SMALL_QUICKSORT)]: partition, push the larger
    part with the depth left, go on with the smaller. *)
Fixpoint descend (fuel : nat) (tosort : list nat) (pl pr : nat) (cdepth : Z)
    (stack : list (nat * nat * Z)) : option (list nat * nat * nat * list (nat * nat * Z)) :=
  match fuel with
  | O => None
  | S fuel' =>
      if 16 <? pr - pl then
        match partition fuel tosort pl pr with
        | None => None
        | Some (tosort, pi) =>
            let cdepth := (cdepth - 1)%Z in
            if pi - pl <? pr - pi
            then descend fuel' tosort pl (pi - 1) cdepth ((pi + 1, pr, cdepth) :: stack)
            else descend fuel' tosort (pi + 1) pr cdepth ((pl, pi - 1, cdepth) :: stack)
        end
      else Some (tosort, pl, pr, stack)
  end.

(** The [while (1)]. *)
Fixpoint segments (fuel : nat) (tosort : list nat) (pl pr : nat) (cdepth : Z)
    (stack : list (nat * nat * Z)) : option (list nat) :=
  match fuel with
  | O => None
  | S fuel' =>
      let done :=
        if (cdepth <? 0)%Z then Some (aheapsort tosort pl (S pr - pl), stack)
        else
          match descend fuel tosort pl pr cdepth stack with
          | None => None
          | Some (tosort, pl, pr, stack) => Some (insertion tosort pl pr, stack)
          end in
      match done with
      | None => None
      | Some (tosort, []) => Some tosort
      | Some (tosort, (pl, pr, cdepth) :: stack) =>
          segments fuel' tosort pl pr cdepth stack
      end
  end.

(** [npy_get_msb]. *)
Definition msb (n : nat) : Z := Z.log2 (Z.of_nat n).

Definition aquicksort : option (list nat) :=
  let num := length v in
  segments (S num) (seq 0 num) 0 (num - 1) (msb num * 2) [].

End Sort.

(** [argsort]: the identity when the fuel runs out. *)
Definition argsort (v : list float) : list nat :=
  default (seq 0 (length v)) (aquicksort v).

End Numpy.

(** ** A concrete environment

    Used to run the model on examples: low-order polynomials stand for the C
    library, the parsers know a few strings only, and the feed answers for
    one sensor, fails for the second and is empty for the third. *)

Module Demo.

Local Open Scope string_scope.
Local Open Scope float_scope.

Definition radians (x : float) : float := x * 0x1.1df46a2529d39p-6.
Definition sin (x : float) : float := x - x * x * x / 6.
Definition cos (x : float) : float := 1 - x * x / 2.
Definition arctan2 (y x : float) : float := y / x.

Definition numeric (s : string) : option float :=
  if bool_decide (s = "85") then Some 85
  else if bool_decide (s = "39.75") then Some 39.75
  else None.

Definition integer (s : string) : option Z :=
  if bool_decide (s = "1345") then Some 1345%Z else None.

Definition modis : DataFrame :=
  mkDF ["latitude"; "longitude"; "frp"; "confidence"; "acq_time"; "acq_date"; "daynight"]
    [ (0%nat, {[ "latitude" := CNum 34.06; "longitude" := CNum (-118.24);
             "frp" := CNum 120; "confidence" := CStr "high";
             "acq_time" := CNum 1345; "acq_date" := CStr "2024-07-01";
             "daynight" := CStr "D" ]});
      (1%nat, {[ "latitude" := CNum 34.5; "longitude" := CNum (-118.9);
             "frp" := CNum 5; "confidence" := CStr "low";
             "acq_time" := CNum 905; "acq_date" := CStr "2024-07-01";
             "daynight" := CStr "D" ]});
      (2%nat, {[ "latitude" := CNum nan; "longitude" := CNum (-118.0);
             "frp" := CStr "n/a"; "confidence" := CStr "85";
             "acq_time" := CNum nan; "acq_date" := CStr "2024-07-02";
             "daynight" := CStr "N" ]});
      (3%nat, {[ "latitude" := CNum 34.06; "longitude" := CNum (-118.24);
             "frp" := CNum 42.5; "confidence" := CStr " Nominal ";
             "acq_time" := CStr "1345"; "acq_date" := CStr "2024-07-02";
             "daynight" := CStr "N" ]});
      (4%nat, {[ "latitude" := CNum 34.0; "longitude" := CNum (-118.0);
             "frp" := CNum 30; "confidence" := CNum 45;
             "acq_time" := CNum 5; "acq_date" := CStr "2024-07-03";
             "daynight" := CStr "N" ]});
      (5%nat, {[ "latitude" := CNum 34.2; "longitude" := CNum (-118.4);
             "frp" := CNum 12; "confidence" := CStr "39.75";
             "acq_time" := CNum 1210; "acq_date" := CStr "2024-07-03";
             "daynight" := CStr "D" ]}) ].

Definition feed (u : string) : string + DataFrame :=
  match index 0 "/MODIS_NRT/" u, index 0 "/VIIRS_NOAA20_NRT/" u with
  | Some _, _ => inr modis
  | None, Some _ => inl "HTTPSConnectionPool: Read timed out."
  | None, None => inr (mkDF ["latitude"; "longitude"] [])
  end.

Definition env_with (strict : bool) (feed : string -> string + DataFrame) : Env := {|
  math_radians := radians;
  math_cos := cos;
  np_radians := radians;
  np_sin := sin;
  np_cos := cos;
  np_arctan2 := arctan2;
  py_float := numeric;
  py_int := integer;
  pd_numeric := numeric;
  str_float := format_0f;
  fetch := feed;
  argsort := insertion_argsort strict
|}.

Definition env (strict : bool) : Env := env_with strict feed.

End Demo.

(** ** A feed with equal distances

    Eighteen detections of high confidence, the even ones at one place and
    the odd ones at another, nearer to the reference point of the
    examples. *)
Definition tied_modis : DataFrame :=
  mkDF ["latitude"; "longitude"; "frp"; "confidence"; "acq_time"; "acq_date"]
    (map (fun i : nat =>
            (i, {[ "latitude" := CNum (if Nat.even i then 34.0 else 34.06);
                   "longitude" := CNum (if Nat.even i then -118.0 else -118.24);
                   "frp" := CNum 50; "confidence" := CStr "high";
                   "acq_time" := CNum 1200; "acq_date" := CStr "2024-07-01" ]}))
         (seq 0 18)).

Definition tied_feed (u : string) : string + DataFrame :=
  match index 0 "/MODIS_NRT/" u with
  | Some _ => inr tied_modis
  | None => inl "HTTPSConnectionPool: Read timed out."
  end.

(** The example environment with the routine of numpy as [argsort]. *)
Definition numpy_env (feed : string -> string + DataFrame) : Env := {|
  math_radians := Demo.radians;
  math_cos := Demo.cos;
  np_radians := Demo.radians;
  np_sin := Demo.sin;
  np_cos := Demo.cos;
  np_arctan2 := Demo.arctan2;
  py_float := Demo.numeric;
  py_int := Demo.integer;
  pd_numeric := Demo.numeric;
  str_float := format_0f;
  fetch := feed;
  argsort := Numpy.argsort
|}.

(** The report of the default sensors around the reference point, 200 km,
    7 days, on this feed. *)
Definition tied_report : DataFrame :=
  match (check_fires (numpy_env tied_feed) 34.05 (-118.25) SATELLITES 200 7).2 with
  | Ok df => df
  | Raise _ => empty_frame
  end.

(** * Properties *)

(** ** Frames *)

(** The labels of the frame are its positions. *)
Definition indexed (df : DataFrame) : Prop :=
  ∀ i ir, rows df !! i = Some ir → ir.1 = i.

Lemma combine_seq_lookup {A} (l : list A) (s i : nat) (p : nat * A) :
  combine (seq s (length l)) l !! i = Some p ↔ p.1 = s + i ∧ l !! i = Some p.2.
Proof.
  revert s i. induction l as [|a l IH]; intros s i; simpl.
  - split; [discriminate|intros [_ H]; discriminate].
  - destruct i as [|i]; simpl.
    + destruct p as [j b]; simpl. split.
      * intros [= <- <-]. split; [lia|reflexivity].
      * intros [-> [= ->]]. do 2 f_equal. lia.
    + rewrite IH. split; intros [? ?]; split; auto; lia.
Qed.

Lemma concat_indexed dfs : indexed (concat dfs).
Proof.
  intros i ir H. unfold concat in H; simpl in H.
  apply combine_seq_lookup in H as [H _]. exact H.
Qed.

Lemma reset_index_indexed df : indexed (reset_index df).
Proof.
  intros i ir H. unfold reset_index in H; simpl in H.
  rewrite <- (length_map snd) in H.
  apply combine_seq_lookup in H as [H _]. exact H.
Qed.

Lemma assign_indexed c vals df : indexed df → indexed (assign c vals df).
Proof.
  intros Hd i ir H. unfold assign in H; simpl in H.
  rewrite list_lookup_fmap in H.
  destruct (rows df !! i) as [jr|] eqn:Hr; [|discriminate].
  injection H as <-. simpl. eauto.
Qed.

Lemma assign_scalar_indexed c v df : indexed df → indexed (assign_scalar c v df).
Proof.
  intros Hd i ir H. unfold assign_scalar in H; simpl in H.
  rewrite list_lookup_fmap in H.
  destruct (rows df !! i) as [jr|] eqn:Hr; [|discriminate].
  injection H as <-. simpl. eauto.
Qed.

Lemma column_lookup c df i :
  column c df !! i = (fun ir : nat * row => cell_at c ir.2) <$> rows df !! i.
Proof. unfold column. apply list_lookup_fmap. Qed.

Lemma length_column c df : length (column c df) = length (rows df).
Proof. unfold column. apply length_map. Qed.

Lemma assign_lookup c vals df i j r :
  indexed df → rows df !! i = Some (j, r) →
  rows (assign c vals df) !! i = Some (i, <[c := default missing (vals !! i)]> r).
Proof.
  intros Hd Hr. unfold assign; simpl. rewrite list_lookup_fmap, Hr. simpl.
  apply Hd in Hr. simpl in Hr. now subst.
Qed.

Lemma assign_lookup_inv c vals df i ir :
  indexed df → rows (assign c vals df) !! i = Some ir →
  ∃ r, rows df !! i = Some (i, r) ∧ ir = (i, <[c := default missing (vals !! i)]> r).
Proof.
  intros Hd H. unfold assign in H; simpl in H. rewrite list_lookup_fmap in H.
  destruct (rows df !! i) as [[j r]|] eqn:Hr; [|discriminate].
  pose proof (Hd _ _ Hr) as Hj. simpl in Hj. subst j.
  injection H as <-. eauto.
Qed.

Lemma cell_at_insert c v r : cell_at c (<[c := v]> r) = v.
Proof. unfold cell_at. now rewrite lookup_insert_eq. Qed.

Lemma cell_at_insert_ne c c' v r : c' ≠ c → cell_at c (<[c' := v]> r) = cell_at c r.
Proof. intros. unfold cell_at. now rewrite lookup_insert_ne. Qed.

Lemma column_assign_ne c c' vals df :
  c' ≠ c → column c (assign c' vals df) = column c df.
Proof.
  intros Hc. unfold column, assign; simpl. rewrite map_map.
  apply map_ext. intros [i r]; simpl. now apply cell_at_insert_ne.
Qed.

Lemma column_assign_scalar_ne c c' v df :
  c' ≠ c → column c (assign_scalar c' v df) = column c df.
Proof.
  intros Hc. unfold column, assign_scalar; simpl. rewrite map_map.
  apply map_ext. intros [i r]; simpl. now apply cell_at_insert_ne.
Qed.

Lemma column_assign_eq c vals df :
  indexed df → length vals = length (rows df) →
  column c (assign c vals df) = vals.
Proof.
  intros Hd Hl. apply list_eq. intros i.
  rewrite column_lookup.
  destruct (rows df !! i) as [[j r]|] eqn:Hr.
  - rewrite (assign_lookup _ _ _ _ _ _ Hd Hr). simpl.
    rewrite cell_at_insert.
    apply lookup_lt_Some in Hr. rewrite <- Hl in Hr.
    destruct (lookup_lt_is_Some_2 _ _ Hr) as [v Hv]. now rewrite Hv.
  - assert (rows (assign c vals df) !! i = None) as ->.
    { unfold assign; simpl. now rewrite list_lookup_fmap, Hr. }
    simpl. symmetry. apply lookup_ge_None. apply lookup_ge_None in Hr. lia.
Qed.

Lemma length_rows_assign c vals df : length (rows (assign c vals df)) = length (rows df).
Proof. unfold assign; simpl. apply length_map. Qed.

Lemma length_rows_assign_scalar c v df :
  length (rows (assign_scalar c v df)) = length (rows df).
Proof. unfold assign_scalar; simpl. apply length_map. Qed.

(** The columns a frame has are kept by an assignment. *)
Lemma columns_assign c c' vals df : c ∈ columns df → c ∈ columns (assign c' vals df).
Proof.
  intros H. unfold assign; simpl. case_bool_decide; [assumption|].
  apply elem_of_app. now left.
Qed.

Lemma columns_assign_new c vals df : c ∈ columns (assign c vals df).
Proof.
  unfold assign; simpl. case_bool_decide; [assumption|].
  apply elem_of_app. right. apply list_elem_of_singleton. reflexivity.
Qed.

Lemma columns_assign_scalar c c' v df :
  c ∈ columns df → c ∈ columns (assign_scalar c' v df).
Proof.
  intros H. unfold assign_scalar; simpl. case_bool_decide; [assumption|].
  apply elem_of_app. now left.
Qed.

Lemma well_formed_assign c vals df : well_formed df → well_formed (assign c vals df).
Proof.
  intros Hw ir c' Hin Hs. unfold assign in Hin; simpl in Hin.
  apply list_elem_of_fmap in Hin as ([j r] & -> & Hin). simpl in Hs.
  destruct (decide (c' = c)) as [->|Hne].
  - apply columns_assign_new.
  - rewrite lookup_insert_ne in Hs by congruence.
    apply columns_assign. eapply Hw; eauto.
Qed.

Lemma well_formed_assign_scalar c v df :
  well_formed df → well_formed (assign_scalar c v df).
Proof.
  intros Hw ir c' Hin Hs. unfold assign_scalar in *; simpl in *.
  apply list_elem_of_fmap in Hin as ([j r] & -> & Hin). simpl in Hs.
  destruct (decide (c' = c)) as [->|Hne].
  - case_bool_decide; [assumption|]. apply elem_of_app. right. now left.
  - rewrite lookup_insert_ne in Hs by congruence.
    assert (c' ∈ columns df) by (eapply Hw; eauto).
    case_bool_decide; [assumption|]. apply elem_of_app. now left.
Qed.

Lemma union_columns_acc acc dfs c :
  c ∈ acc ∨ (∃ df, df ∈ dfs ∧ c ∈ columns df) →
  c ∈ foldl (fun acc df => acc ++ filter (fun c => c ∉ acc) (columns df)) acc dfs.
Proof.
  revert acc. induction dfs as [|d dfs IH]; intros acc H; simpl.
  - destruct H as [H|(df & H & _)]; [assumption|]. now apply elem_of_nil in H.
  - apply IH. destruct H as [H|(df & H & Hc)].
    + left. apply elem_of_app. now left.
    + apply elem_of_cons in H as [->|H]; [|right; eauto].
      left. destruct (decide (c ∈ acc)) as [Ha|Ha].
      * apply elem_of_app. now left.
      * apply elem_of_app. right. apply list_elem_of_filter. auto.
Qed.

Lemma well_formed_concat dfs : Forall well_formed dfs → well_formed (concat dfs).
Proof.
  intros Hw [j r] c Hin Hs. simpl in Hs.
  unfold concat in *; simpl in *.
  apply list_elem_of_lookup in Hin as [i Hi].
  apply combine_seq_lookup in Hi as [_ Hi]. simpl in Hi.
  apply list_elem_of_lookup_2 in Hi.
  apply list_elem_of_In, in_flat_map in Hi as (df & Hdf & Hr).
  apply list_elem_of_In in Hdf.
  apply list_elem_of_In, list_elem_of_fmap in Hr as ([k r'] & -> & Hr).
  apply union_columns_acc. right. exists df. split; [assumption|].
  rewrite Forall_forall in Hw. eapply (Hw df Hdf (k, r')); eauto.
Qed.

(** Creating the required columns changes no cell: a created column was
    missing in every row already. *)
Lemma ensure_columns_lookup df i ir :
  well_formed df → indexed df → rows (ensure_columns df) !! i = Some ir →
  ∃ r0, rows df !! i = Some (i, r0) ∧ ir.1 = i ∧ ∀ c, cell_at c ir.2 = cell_at c r0.
Proof.
  unfold ensure_columns. revert df.
  induction required_columns as [|col cols IH]; intros df Hw Hd H; simpl in H.
  - destruct ir as [j r]. pose proof (Hd _ _ H) as Hj. simpl in *. subst j. eauto.
  - case_bool_decide as Hc.
    + now apply IH.
    + apply IH in H as (r1 & H & Hj & Hcell);
        [|now apply well_formed_assign_scalar|now apply assign_scalar_indexed].
      unfold assign_scalar in H; simpl in H. rewrite list_lookup_fmap in H.
      destruct (rows df !! i) as [[j r0]|] eqn:Hr; [|discriminate].
      injection H as Hji <-. simpl in Hji. subst j.
      exists r0. split; [reflexivity|]. split; [assumption|].
      intros c. rewrite Hcell.
      destruct (decide (col = c)) as [->|Hne]; [|now apply cell_at_insert_ne].
      rewrite cell_at_insert. unfold cell_at.
      destruct (r0 !! c) as [v|] eqn:Hv; [|reflexivity].
      exfalso. apply Hc. apply (Hw (i, r0) c); [|simpl; rewrite Hv; eauto].
      eapply list_elem_of_lookup_2, Hr.
Qed.

Lemma ensure_columns_length df :
  length (rows (ensure_columns df)) = length (rows df).
Proof.
  unfold ensure_columns. revert df.
  induction required_columns as [|col cols IH]; intros df; simpl; [reflexivity|].
  case_bool_decide; rewrite IH; [reflexivity|apply length_rows_assign_scalar].
Qed.

Lemma ensure_columns_indexed df : indexed df → indexed (ensure_columns df).
Proof.
  unfold ensure_columns. revert df.
  induction required_columns as [|col cols IH]; intros df Hd; simpl; [assumption|].
  case_bool_decide; apply IH; [assumption|now apply assign_scalar_indexed].
Qed.

Lemma ensure_columns_keeps df c : c ∈ columns df → c ∈ columns (ensure_columns df).
Proof.
  unfold ensure_columns. revert df.
  induction required_columns as [|col cols IH]; intros df Hc; simpl; [assumption|].
  case_bool_decide; apply IH; [assumption|now apply columns_assign_scalar].
Qed.

Lemma ensure_columns_required df c :
  c ∈ required_columns → c ∈ columns (ensure_columns df).
Proof.
  assert (Hkeep : ∀ cols df,
            c ∈ columns df →
            c ∈ columns (foldl (fun df col =>
                                  if bool_decide (col ∈ columns df) then df
                                  else assign_scalar col missing df) df cols)).
  { induction cols as [|x cols IH]; intros d H; simpl; [assumption|].
    case_bool_decide; apply IH; [assumption|now apply columns_assign_scalar]. }
  unfold ensure_columns. revert df.
  induction required_columns as [|col cols IH]; intros df Hc; simpl.
  - now apply elem_of_nil in Hc.
  - apply elem_of_cons in Hc as [->|Hc].
    + apply Hkeep. case_bool_decide; [assumption|].
      unfold assign_scalar; simpl. rewrite bool_decide_eq_false_2 by assumption.
      apply elem_of_app. right. constructor.
    + case_bool_decide; now apply IH.
Qed.

Lemma column_ensure_columns c df :
  well_formed df → indexed df → column c (ensure_columns df) = column c df.
Proof.
  intros Hw Hd. apply list_eq. intros i. rewrite !column_lookup.
  destruct (rows (ensure_columns df) !! i) as [ir|] eqn:H.
  - apply ensure_columns_lookup in H as (r0 & -> & _ & Hc); try assumption.
    simpl. now rewrite Hc.
  - apply lookup_ge_None in H. rewrite ensure_columns_length in H.
    apply lookup_ge_None in H. now rewrite H.
Qed.

Lemma lookup_map {A B} (f : A → B) (l : list A) i : map f l !! i = f <$> l !! i.
Proof. apply list_lookup_fmap. Qed.

(** ** Comprehensions that can raise *)

Lemma traverse_lookup {A B} (f : A → result B) l l' i a :
  traverse f l = Ok l' → l !! i = Some a → ∃ b, f a = Ok b ∧ l' !! i = Some b.
Proof.
  revert l' i. induction l as [|x l IH]; intros l' i H Hi; [discriminate|].
  simpl in H. destruct (f x) as [b|] eqn:Hx; [|discriminate]. simpl in H.
  destruct (traverse f l) as [bs|] eqn:Hl; [|discriminate]. simpl in H.
  injection H as <-. destruct i as [|i]; simpl in *.
  - injection Hi as <-. eauto.
  - eapply IH; eauto.
Qed.

Lemma traverse_length {A B} (f : A → result B) l l' :
  traverse f l = Ok l' → length l' = length l.
Proof.
  revert l'. induction l as [|x l IH]; intros l' H; simpl in H.
  - now injection H as <-.
  - destruct (f x) as [b|]; [|discriminate]. simpl in H.
    destruct (traverse f l) as [bs|]; [|discriminate]. simpl in H.
    injection H as <-. simpl. f_equal. now apply IH.
Qed.

Lemma traverse_total {A B} (f : A → result B) l :
  Forall (fun a => ∃ b, f a = Ok b) l → ∃ l', traverse f l = Ok l'.
Proof.
  induction 1 as [|x l [b Hb] _ [bs IH]]; simpl; [eauto|].
  rewrite Hb; simpl. rewrite IH; simpl. eauto.
Qed.

Section Stages.

Variable E : Env.

Local Open Scope string_scope.
Local Open Scope float_scope.

(** ** The distance of one row *)

Definition haversine1 (lat0 lon0 lat lon : float) : float :=
  let lat_rad := np_radians E lat in
  let lon_rad := np_radians E lon in
  let a :=
    square (np_sin E ((lat_rad - np_radians E lat0) / 2.0)) +
    np_cos E (np_radians E lat0) * np_cos E lat_rad *
      square (np_sin E ((lon_rad - np_radians E lon0) / 2.0)) in
  6371.0 * (2 * np_arctan2 E (PrimFloat.sqrt a) (PrimFloat.sqrt (1 - a))).

Lemma haversine_np_lookup lat0 lon0 lats lons ds i u v :
  haversine_np E lat0 lon0 lats lons = Ok ds →
  lats !! i = Some u → lons !! i = Some v →
  ∃ x y, astype_float E u = Ok x ∧ astype_float E v = Ok y ∧
         ds !! i = Some (haversine1 lat0 lon0 x y).
Proof.
  unfold haversine_np. intros H Hu Hv.
  destruct (traverse (astype_float E) lats) as [xs|] eqn:Hx; [|discriminate].
  simpl in H.
  destruct (traverse (astype_float E) lons) as [ys|] eqn:Hy; [|discriminate].
  simpl in H. injection H as <-.
  destruct (traverse_lookup _ _ _ _ _ Hx Hu) as (x & Hxu & Hxi).
  destruct (traverse_lookup _ _ _ _ _ Hy Hv) as (y & Hyv & Hyi).
  exists x, y. repeat split; try assumption.
  rewrite !lookup_map, lookup_zip_with, !lookup_map.
  rewrite lookup_zip_with, !lookup_map, Hxi, Hyi. simpl.
  reflexivity.
Qed.

Lemma haversine_np_length lat0 lon0 lats lons ds :
  haversine_np E lat0 lon0 lats lons = Ok ds → length lats = length lons →
  length ds = length lats.
Proof.
  unfold haversine_np. intros H Hl.
  destruct (traverse (astype_float E) lats) as [xs|] eqn:Hx; [|discriminate].
  simpl in H.
  destruct (traverse (astype_float E) lons) as [ys|] eqn:Hy; [|discriminate].
  simpl in H. injection H as <-.
  apply traverse_length in Hx, Hy.
  repeat rewrite ?length_map, ?length_zip_with.
  lia.
Qed.

(** ** The confidence of one row *)

Definition normalize (v : cell) : float :=
  let conf_raw := lower (strip (astype_str E v)) in
  fillna (clip 0 100 (fillna (default nan (mapping !! conf_raw)) (to_numeric E v))) 0.

Lemma confidence_percentage_lookup confidence i :
  confidence_percentage E confidence !! i = normalize <$> confidence !! i.
Proof.
  unfold confidence_percentage.
  rewrite !lookup_map, lookup_zip_with, !lookup_map, lookup_zip_with, !lookup_map.
  destruct (confidence !! i) as [v|]; simpl; [|reflexivity].
  unfold normalize. case_bool_decide as Hm; [reflexivity|].
  destruct (mapping !! lower (strip (astype_str E v))) eqn:Hk; [|reflexivity].
  exfalso. apply Hm. eauto.
Qed.

Lemma confidence_percentage_length confidence :
  length (confidence_percentage E confidence) = length confidence.
Proof.
  unfold confidence_percentage.
  repeat rewrite ?length_map, ?length_zip_with.
  lia.
Qed.

End Stages.

Section Pipeline.

Variable E : Env.

Local Open Scope string_scope.
Local Open Scope float_scope.

(** ** The frame after step 2, row by row *)

(** The columns the program writes: six in [process], the last in
    [ranked]. *)
Definition derived_columns : list string :=
  ["frp"; "confidence_percent"; "intensity"; "distance_km"; "time"; "date";
   "fire_risk"].

(** The frp of a row after line 63. *)
Definition frp_of (r0 : row) : float := fillna (to_numeric E (cell_at "frp" r0)) 0.

(** The numeric confidence of a row after line 73. *)
Definition confidence_of (r0 : row) : float := normalize E (cell_at "confidence" r0).

(** Row [r] is what [process] makes of the fetched row [r0]. *)
Record enriched (lat lon : float) (r0 r : row) : Prop := {
  en_frp : cell_at "frp" r = CNum (frp_of r0);
  en_confidence :
    cell_at "confidence_percent" r = CStr (format_0f (confidence_of r0) +:+ "%");
  en_intensity : cell_at "intensity" r = CStr (intensity (frp_of r0));
  en_distance :
    ∃ x y, astype_float E (cell_at "latitude" r0) = Ok x ∧
           astype_float E (cell_at "longitude" r0) = Ok y ∧
           cell_at "distance_km" r = CNum (haversine1 E lat lon x y);
  en_time :
    ∃ t, format_time E (cell_at "acq_time" r0) = Ok t ∧ cell_at "time" r = CStr t;
  en_date : cell_at "date" r = cell_at "acq_date" r0;
  en_other : ∀ c, c ∉ derived_columns → cell_at c r = cell_at c r0
}.

(** The columns [process] writes. *)
Definition process_columns : list string :=
  ["frp"; "confidence_percent"; "intensity"; "distance_km"; "time"; "date"].

Lemma process_inv lat lon g e pct :
  indexed g → process E lat lon g = Ok (e, pct) →
  pct = confidence_percentage E (column "confidence" g) ∧
  indexed e ∧
  length (rows e) = length (rows g) ∧
  (∀ c, c ∈ columns g ∨ c ∈ process_columns → c ∈ columns e) ∧
  ∀ i ir, rows e !! i = Some ir →
    ∃ r0, rows g !! i = Some (i, r0) ∧ ir.1 = i ∧ enriched lat lon r0 ir.2.
Proof.
  intros Hig H.
  unfold process in H. cbv zeta in H.
  set (F := fun v => CNum (fillna (to_numeric E v) 0)) in *.
  assert (Hfrp : column "frp" (assign "frp" (map F (column "frp" g)) g)
                 = map F (column "frp" g)).
  { apply column_assign_eq; [assumption|now rewrite length_map, length_column]. }
  rewrite ?(column_assign_ne "confidence"), ?(column_assign_ne "frp"),
    ?(column_assign_ne "latitude"), ?(column_assign_ne "longitude") in H
    by discriminate.
  rewrite Hfrp in H.
  set (pct0 := confidence_percentage E (column "confidence" g)) in *.
  destruct (haversine_np E lat lon (column "latitude" g) (column "longitude" g))
    as [ds|] eqn:Hds; [|discriminate]. cbn [bind] in H.
  rewrite ?(column_assign_ne "acq_time") in H by discriminate.
  destruct (traverse (format_time E) (column "acq_time" g)) as [ts|] eqn:Hts;
    [|discriminate]. cbn [bind] in H.
  rewrite ?(column_assign_ne "acq_date") in H by discriminate.
  clear Hfrp.
  injection H as <- <-.
  split; [reflexivity|].
  split; [do 6 apply assign_indexed; assumption|].
  split.
  { now rewrite !length_rows_assign. }
  split.
  { intros c [Hc|Hc].
    - now do 6 apply columns_assign.
    - unfold process_columns in Hc.
      repeat (apply elem_of_cons in Hc as [->|Hc];
              [repeat first [apply columns_assign_new | apply columns_assign]|]).
      now apply elem_of_nil in Hc. }
  intros i ir Hi.
  apply assign_lookup_inv in Hi as (r6 & Hi & ->);
    [|do 5 apply assign_indexed; assumption].
  apply assign_lookup_inv in Hi as (r5 & Hi & [= ->]);
    [|do 4 apply assign_indexed; assumption].
  apply assign_lookup_inv in Hi as (r4 & Hi & [= ->]);
    [|do 3 apply assign_indexed; assumption].
  apply assign_lookup_inv in Hi as (r3 & Hi & [= ->]);
    [|do 2 apply assign_indexed; assumption].
  apply assign_lookup_inv in Hi as (r2 & Hi & [= ->]);
    [|do 1 apply assign_indexed; assumption].
  apply assign_lookup_inv in Hi as (r0 & Hr0 & [= ->]); [|assumption].
  exists r0. split; [assumption|]. split; [reflexivity|]. simpl.
  assert (Hcol : ∀ c, column c g !! i = Some (cell_at c r0)).
  { intros c. now rewrite column_lookup, Hr0. }
  assert (Hp : pct0 !! i = Some (confidence_of r0)).
  { unfold pct0. now rewrite confidence_percentage_lookup, Hcol. }
  destruct (haversine_np_lookup _ _ _ _ _ _ _ _ _ Hds (Hcol _) (Hcol _))
    as (x & y & Hx & Hy & Hd).
  destruct (traverse_lookup _ _ _ _ _ Hts (Hcol _)) as (t & Ht & Hti).
  rewrite !lookup_map, ?Hcol, ?Hp, ?Hd, ?Hti. simpl.
  constructor.
  - rewrite !cell_at_insert_ne by discriminate. now rewrite cell_at_insert.
  - rewrite !cell_at_insert_ne by discriminate. now rewrite cell_at_insert.
  - rewrite !cell_at_insert_ne by discriminate. now rewrite cell_at_insert.
  - exists x, y. rewrite !cell_at_insert_ne by discriminate.
    now rewrite cell_at_insert.
  - exists t. rewrite !cell_at_insert_ne by discriminate.
    now rewrite cell_at_insert.
  - now rewrite cell_at_insert.
  - intros c Hc. rewrite !cell_at_insert_ne; [reflexivity|..];
      intros <-; apply Hc; unfold derived_columns; repeat constructor.
Qed.

(** [enriched] reads the fetched row through [cell_at] only. *)
Lemma enriched_ext lat lon r0 r0' r :
  (∀ c, cell_at c r0 = cell_at c r0') → enriched lat lon r0 r → enriched lat lon r0' r.
Proof.
  intros Hc [H1 H2 H3 (x & y & Hx & Hy & H4) (t & Ht & H5) H6 H7].
  unfold frp_of, confidence_of in *.
  constructor; unfold frp_of, confidence_of; rewrite <- ?Hc; eauto.
  intros c Hd. rewrite <- Hc. auto.
Qed.

(** Writing the risk column keeps what [process] established. *)
Lemma enriched_fire_risk lat lon r0 r v :
  enriched lat lon r0 r → enriched lat lon r0 (<["fire_risk" := v]> r).
Proof.
  intros [H1 H2 H3 (x & y & Hx & Hy & H4) (t & Ht & H5) H6 H7].
  constructor; rewrite ?cell_at_insert_ne by discriminate; eauto.
  intros c Hd. rewrite cell_at_insert_ne; [auto|].
  intros <-. apply Hd. unfold derived_columns. repeat constructor.
Qed.

End Pipeline.

(** ** Sorting *)

Lemma traverse_cons_inv {A B} (f : A → result B) a l r :
  traverse f (a :: l) = Ok r →
  ∃ b bs, f a = Ok b ∧ traverse f l = Ok bs ∧ r = b :: bs.
Proof.
  simpl. destruct (f a) as [b|]; [|discriminate]. simpl.
  destruct (traverse f l) as [bs|]; [|discriminate]. simpl.
  intros [= <-]. eauto.
Qed.

Lemma traverse_cons {A B} (f : A → result B) a l b bs :
  f a = Ok b → traverse f l = Ok bs → traverse f (a :: l) = Ok (b :: bs).
Proof. intros Ha Hl. simpl. rewrite Ha. simpl. rewrite Hl. reflexivity. Qed.

Lemma take_lookup {A} (l : list A) idx res k a :
  take l idx = Ok res → res !! k = Some a →
  ∃ i, idx !! k = Some i ∧ l !! i = Some a.
Proof.
  unfold take. intros H Hk.
  pose proof (traverse_length _ _ _ H) as Hl.
  assert (Hlt : k < length idx) by (rewrite <- Hl; eapply lookup_lt_Some, Hk).
  destruct (lookup_lt_is_Some_2 _ _ Hlt) as [i Hi].
  destruct (traverse_lookup _ _ _ _ _ H Hi) as (b & Hb & Hr).
  exists i. split; [assumption|].
  destruct (l !! i) as [c|]; [|discriminate]. congruence.
Qed.

Lemma take_seq_app {A} (pre l : list A) :
  take (pre ++ l) (seq (length pre) (length l)) = Ok l.
Proof.
  revert pre. induction l as [|a l IH]; intros pre; [reflexivity|].
  simpl. apply traverse_cons.
  - rewrite lookup_app_r by lia. now rewrite Nat.sub_diag.
  - specialize (IH (pre ++ [a])).
    rewrite <- app_assoc, length_app in IH. simpl in IH.
    now rewrite Nat.add_1_r in IH.
Qed.

Lemma take_seq {A} (l : list A) : take l (seq 0 (length l)) = Ok l.
Proof. apply (take_seq_app [] l). Qed.

Lemma take_Permutation {A} (l : list A) idx idx' res' :
  Permutation idx idx' → take l idx' = Ok res' →
  ∃ res, take l idx = Ok res ∧ Permutation res res'.
Proof.
  unfold take. intros Hp. revert res'.
  induction Hp as [|x i1 i2 _ IH|x y i|i1 i2 i3 _ IH1 _ IH2]; intros res' H.
  - eauto.
  - apply traverse_cons_inv in H as (b & bs & Hb & Hbs & ->).
    destruct (IH _ Hbs) as (res & Hres & Hperm).
    exists (b :: res). split; [now apply traverse_cons|now constructor].
  - apply traverse_cons_inv in H as (b & bs & Hb & Hbs & ->).
    apply traverse_cons_inv in Hbs as (c & cs & Hc & Hcs & ->).
    exists (c :: b :: cs). split; [|apply perm_swap].
    apply traverse_cons; [assumption|]. now apply traverse_cons.
  - destruct (IH2 _ H) as (r2 & Hr2 & Hp2).
    destruct (IH1 _ Hr2) as (r1 & Hr1 & Hp1).
    exists r1. split; [assumption|]. now rewrite Hp1.
Qed.

Lemma StronglySorted_lookup {A} (R : relation A) l a b x y :
  StronglySorted R l → a < b → l !! a = Some x → l !! b = Some y → R x y.
Proof.
  intros Hs. revert a b. induction Hs as [|z l Hs IH Hall]; intros a b Hab Ha Hb.
  - discriminate.
  - destruct b as [|b]; [lia|]. simpl in Hb. destruct a as [|a]; simpl in Ha.
    + injection Ha as <-. rewrite Forall_forall in Hall. apply Hall.
      eapply list_elem_of_lookup_2, Hb.
    + apply (IH a b); [lia|assumption..].
Qed.

Lemma StronglySorted_sublist {A} (R : relation A) l1 l2 :
  sublist l1 l2 → StronglySorted R l2 → StronglySorted R l1.
Proof.
  induction 1 as [|x l1 l2 Hsub IH|x l1 l2 Hsub IH]; intros Hs.
  - constructor.
  - apply StronglySorted_inv in Hs as [Hs Hall]. constructor; [auto|].
    rewrite Forall_forall in Hall |- *. intros y Hy. apply Hall.
    eapply elem_of_sublist; eauto.
  - apply StronglySorted_inv in Hs as [Hs _]. auto.
Qed.

Lemma sublist_map {A B} (f : A → B) l1 l2 :
  sublist l1 l2 → sublist (map f l1) (map f l2).
Proof. apply (fmap_sublist f). Qed.

Lemma StronglySorted_seq s n : StronglySorted lt (seq s n).
Proof.
  revert s. induction n as [|n IH]; intros s; simpl; constructor; [apply IH|].
  apply Forall_forall. intros j Hj. apply elem_of_seq in Hj. lia.
Qed.

Lemma filter_split_Permutation {A} (p : A → bool) (l : list A) :
  Permutation (filter (fun a => p a = false) l ++ filter (fun a => p a = true) l) l.
Proof.
  induction l as [|a l IH]; [reflexivity|].
  rewrite !filter_cons. destruct (p a) eqn:Hp.
  - rewrite decide_False, decide_True by congruence.
    rewrite <- Permutation_middle. now constructor.
  - rewrite decide_True, decide_False by congruence.
    simpl. now constructor.
Qed.

#[local] Instance ascending_trans ks : Transitive (ascending ks).
Proof. intros a b c. unfold ascending. apply F64.leb_trans. Qed.

Section Sorting.

Variable E : Env.
Hypothesis HE : EnvSpec E.

(** The frame [sort_values] returns: the same columns, the rows with a key
    first, ascending, then the rows without one, in their original order. *)
Lemma sort_values_inv by_ df :
  ∃ s sorted,
    sort_values E by_ df = Ok s ∧
    columns s = columns df ∧
    rows s = sorted ++
      filter (fun ir : nat * row => F64.is_nan (sort_key by_ ir.2) = true) (rows df) ∧
    Permutation sorted
      (filter (fun ir : nat * row => F64.is_nan (sort_key by_ ir.2) = false) (rows df)) ∧
    ∀ a b ra rb, a < b → sorted !! a = Some ra → sorted !! b = Some rb →
      (sort_key by_ ra.2 <=? sort_key by_ rb.2)%float = true.
Proof.
  unfold sort_values.
  set (non_nans := filter (fun ir : nat * row => F64.is_nan (sort_key by_ ir.2) = false)
                     (rows df)).
  set (nans := filter (fun ir : nat * row => F64.is_nan (sort_key by_ ir.2) = true)
                 (rows df)).
  set (ks := map (fun ir : nat * row => sort_key by_ ir.2) non_nans).
  assert (Hks : no_nan ks).
  { unfold no_nan, ks. apply Forall_forall. intros k Hk.
    apply list_elem_of_fmap in Hk as (ir & -> & Hir).
    unfold non_nans in Hir. now apply list_elem_of_filter in Hir as [Hn _]. }
  pose proof (argsort_perm E HE ks Hks) as Hperm.
  pose proof (argsort_sorted E HE ks Hks) as Hsorted.
  apply Sorted_StronglySorted in Hsorted; [|apply _].
  assert (Hlen : length ks = length non_nans) by (unfold ks; apply length_map).
  rewrite Hlen in Hperm.
  destruct (take_Permutation non_nans _ _ _ Hperm (take_seq non_nans))
    as (sorted & Htake & Hps).
  exists (mkDF (columns df) (sorted ++ nans)), sorted.
  rewrite Htake. simpl. repeat split; try assumption.
  intros a b ra rb Hab Ha Hb.
  destruct (take_lookup _ _ _ _ _ Htake Ha) as (ia & Hia & Hra).
  destruct (take_lookup _ _ _ _ _ Htake Hb) as (ib & Hib & Hrb).
  pose proof (StronglySorted_lookup _ _ _ _ _ _ Hsorted Hab Hia Hib) as Hasc.
  unfold ascending, key_at, ks in Hasc.
  now rewrite !lookup_map, Hra, Hrb in Hasc.
Qed.

End Sorting.

(** ** The runs of check_fires *)

Section Runs.

Variable E : Env.

Local Open Scope string_scope.

(** The unioned rows of the feed, labelled in arrival order. *)
Definition fetched (lat lon : float) (sat_list : list string) (radius_km : float)
    (days : Z) : DataFrame :=
  concat (collect E lat lon sat_list radius_km days).2.

(** The five ways through [check_fires]. *)
Inductive run (lat lon : float) (sat_list : list string) (radius_km : float)
    (days : Z) : list string * result DataFrame → Prop :=
  | run_no_data out :
      collect E lat lon sat_list radius_km days = (out, []) →
      run lat lon sat_list radius_km days
        ((out ++ [no_data_message])%list, Ok empty_frame)
  | run_process_raises out dfs x :
      collect E lat lon sat_list radius_km days = (out, dfs) → dfs ≠ [] →
      process E lat lon (ensure_columns (concat dfs)) = Raise x →
      run lat lon sat_list radius_km days (out, Raise x)
  | run_no_reliable out dfs e pct :
      collect E lat lon sat_list radius_km days = (out, dfs) → dfs ≠ [] →
      process E lat lon (ensure_columns (concat dfs)) = Ok (e, pct) →
      df_empty (reliable e pct) = true →
      run lat lon sat_list radius_km days
        ((out ++ [no_reliable_message])%list, Ok empty_frame)
  | run_sort_raises out dfs e pct x :
      collect E lat lon sat_list radius_km days = (out, dfs) → dfs ≠ [] →
      process E lat lon (ensure_columns (concat dfs)) = Ok (e, pct) →
      df_empty (reliable e pct) = false →
      ranked E (reliable e pct) pct = Raise x →
      run lat lon sat_list radius_km days (out, Raise x)
  | run_report out dfs e pct s :
      collect E lat lon sat_list radius_km days = (out, dfs) → dfs ≠ [] →
      process E lat lon (ensure_columns (concat dfs)) = Ok (e, pct) →
      df_empty (reliable e pct) = false →
      ranked E (reliable e pct) pct = Ok s →
      run lat lon sat_list radius_km days
        ((out ++ print_table E lat lon radius_km days (reset_index s))%list,
         Ok (reset_index s)).

Lemma check_fires_run lat lon sat_list radius_km days :
  run lat lon sat_list radius_km days (check_fires E lat lon sat_list radius_km days).
Proof.
  unfold check_fires.
  destruct (collect E lat lon sat_list radius_km days) as [out dfs] eqn:Hc.
  destruct dfs as [|d dfs]; [now constructor|].
  cbv zeta.
  destruct (process E lat lon (ensure_columns (concat (d :: dfs))))
    as [[e pct]|x] eqn:Hp.
  - destruct (df_empty (reliable e pct)) eqn:He.
    + eapply run_no_reliable; eauto.
    + destruct (ranked E (reliable e pct) pct) as [s|x] eqn:Hr.
      * eapply run_report; eauto.
      * eapply run_sort_raises; eauto.
  - eapply run_process_raises; eauto.
Qed.

Hypothesis HE : EnvSpec E.

Lemma collect_well_formed lat lon sat_list radius_km days :
  Forall well_formed (collect E lat lon sat_list radius_km days).2.
Proof.
  induction sat_list as [|sat rest IH]; simpl; [constructor|].
  destruct (collect E lat lon rest radius_km days) as [out dfs]. simpl in IH.
  destruct (fetch E _) as [x|df] eqn:Hf; simpl; [assumption|].
  destruct (df_empty df); simpl; [assumption|].
  constructor; [|assumption].
  apply well_formed_assign_scalar. eapply fetch_well_formed; eauto.
Qed.

End Runs.

(** ** The report, row by row *)

Lemma indexed_labels df : indexed df → map fst (rows df) = seq 0 (length (rows df)).
Proof.
  intros Hd. apply list_eq. intros i. rewrite lookup_map.
  destruct (rows df !! i) as [ir|] eqn:Hi; simpl.
  - rewrite (Hd _ _ Hi). symmetry. apply lookup_seq. split; [reflexivity|].
    eapply lookup_lt_Some, Hi.
  - symmetry. apply lookup_ge_None. rewrite length_seq. now apply lookup_ge_None.
Qed.

Lemma labels_indexed df : map fst (rows df) = seq 0 (length (rows df)) → indexed df.
Proof.
  intros H i ir Hi.
  assert (Hl : map fst (rows df) !! i = Some ir.1) by now rewrite lookup_map, Hi.
  rewrite H in Hl. apply lookup_seq in Hl as [-> _]. reflexivity.
Qed.

Lemma reset_index_lookup s k ir :
  rows (reset_index s) !! k = Some ir ↔ ir.1 = k ∧ ∃ i, rows s !! k = Some (i, ir.2).
Proof.
  unfold reset_index; simpl. rewrite <- (length_map snd).
  rewrite combine_seq_lookup, lookup_map. simpl.
  destruct (rows s !! k) as [[i r]|]; simpl; split.
  - intros [? [= <-]]. eauto.
  - intros [? (j & [= _ <-])]. auto.
  - intros [_ ?]. discriminate.
  - intros [_ (j & ?)]. discriminate.
Qed.

Section Report.

Variable E : Env.
Hypothesis HE : EnvSpec E.

Local Open Scope string_scope.

(** The distance the report is sorted by. *)
Definition distance_of (r : row) : float := sort_key "distance_km" r.

(** Row [r] of the report comes from the fetched row [r0]. *)
Record reported (lat lon : float) (r0 r : row) : Prop := {
  rep_enriched : enriched E lat lon r0 r;
  rep_risk : cell_at "fire_risk" r = CStr (classify_risk (confidence_of E r0));
  rep_reliable : F64.geb (confidence_of E r0) 40 = true
}.

(** Frame [df] is a report over the fetched frame [f]; [labels] gives, for
    each position of the report, the label of the fetched row it shows. *)
Record report_of (lat lon : float) (f df : DataFrame) (labels : list nat) : Prop := {
  rp_length : length (rows df) = length labels;
  rp_index : indexed df;
  rp_nodup : NoDup labels;
  rp_rows : ∀ k i r, labels !! k = Some i → rows df !! k = Some (k, r) →
    ∃ r0, rows f !! i = Some (i, r0) ∧ reported lat lon r0 r;
  rp_sorted : ∀ a b ra rb, a < b →
    rows df !! a = Some (a, ra) → rows df !! b = Some (b, rb) →
    F64.is_nan (distance_of rb) = false →
    (distance_of ra <=? distance_of rb)%float = true;
  rp_nan_order : ∀ a b ia ib ra, a < b →
    labels !! a = Some ia → labels !! b = Some ib →
    rows df !! a = Some (a, ra) → F64.is_nan (distance_of ra) = true →
    ia < ib
}.

Lemma report_of_empty lat lon f : report_of lat lon f empty_frame [].
Proof.
  constructor; simpl.
  - reflexivity.
  - intros i ir H. discriminate.
  - constructor.
  - intros k i r H. discriminate.
  - intros a b ra rb _ H. discriminate.
  - intros a b ia ib ra _ H. discriminate.
Qed.

Lemma run_report_of lat lon dfs e pct s :
  Forall well_formed dfs →
  process E lat lon (ensure_columns (concat dfs)) = Ok (e, pct) →
  ranked E (reliable e pct) pct = Ok s →
  report_of lat lon (concat dfs) (reset_index s) (map fst (rows s)) ∧
  ∀ c, c ∈ columns (concat dfs) ∨ c ∈ required_columns ∨ c ∈ derived_columns →
       c ∈ columns (reset_index s).
Proof.
  intros Hw Hp Hr.
  pose proof (well_formed_concat _ Hw) as Hwf.
  pose proof (concat_indexed dfs) as Hif.
  set (f := concat dfs) in *.
  pose proof (ensure_columns_indexed _ Hif) as Hig.
  assert (Hkeep : ∀ c, c ∈ columns f ∨ c ∈ required_columns →
                       c ∈ columns (ensure_columns f)).
  { intros c [Hc|Hc]; [now apply ensure_columns_keeps|].
    now apply ensure_columns_required. }
  assert (Hlook : ∀ i ir, rows (ensure_columns f) !! i = Some ir →
            ∃ r0, rows f !! i = Some (i, r0) ∧ ir.1 = i ∧
                  ∀ c, cell_at c ir.2 = cell_at c r0)
    by (intros i ir; now apply ensure_columns_lookup).
  generalize dependent (ensure_columns f). intros g Hp Hig Hkeep Hlook.
  destruct (process_inv E lat lon g e pct Hig Hp)
    as (Hpct & Hie & Hlen & Hcols & Hrows).
  unfold ranked in Hr.
  set (vals := map (fun x => CStr (classify_risk x)) pct) in *.
  set (rel := reliable e pct) in *.
  set (a := assign "fire_risk" vals rel) in *.
  destruct (sort_values_inv E HE "distance_km" a)
    as (s' & sorted & Hs & Hscol & Hsrows & Hsperm & Hsasc).
  rewrite Hr in Hs. injection Hs as <-.
  set (nans := filter (fun ir : nat * row =>
                         F64.is_nan (sort_key "distance_km" ir.2) = true) (rows a)) in *.
  set (non_nans := filter (fun ir : nat * row =>
                         F64.is_nan (sort_key "distance_km" ir.2) = false) (rows a)) in *.
  (* the rows of [a] *)
  assert (Hin_a : ∀ i r, (i, r) ∈ rows a →
            ∃ r0, rows f !! i = Some (i, r0) ∧ reported lat lon r0 r).
  { intros i r Hin. unfold a, assign in Hin; simpl in Hin.
    apply list_elem_of_fmap in Hin as ([i' re] & [= -> ->] & Hin). simpl.
    unfold rel, reliable, select in Hin; simpl in Hin.
    apply list_elem_of_filter in Hin as [Hmask Hin]. simpl in Hmask.
    apply list_elem_of_lookup in Hin as [j Hj].
    pose proof (Hie _ _ Hj) as Hij. simpl in Hij. subst j.
    destruct (Hrows _ _ Hj) as (r1 & Hr1 & _ & Hen). simpl in Hen.
    destruct (Hlook _ _ Hr1) as (r0 & Hr0 & _ & Hcell). simpl in Hcell.
    assert (Hpi : pct !! i' = Some (confidence_of E r0)).
    { rewrite Hpct, confidence_percentage_lookup, column_lookup, Hr1. simpl.
      unfold confidence_of. now rewrite Hcell. }
    exists r0. split; [assumption|].
    unfold vals. rewrite lookup_map, Hpi. simpl.
    rewrite lookup_map, Hpi in Hmask. simpl in Hmask.
    constructor.
    - apply enriched_fire_risk. eapply enriched_ext; [|exact Hen]. exact Hcell.
    - apply cell_at_insert.
    - exact Hmask. }
  (* the labels of [a] grow *)
  assert (Hlab_a : StronglySorted lt (map fst (rows a))).
  { unfold a, assign; simpl. rewrite map_map. simpl.
    apply (StronglySorted_sublist _ _ (map fst (rows e))).
    - apply sublist_map. unfold rel, reliable, select; simpl.
      apply sublist_filter.
    - rewrite (indexed_labels _ Hie). apply StronglySorted_seq. }
  assert (Hperm : Permutation (rows s) (rows a)).
  { rewrite Hsrows, Hsperm. apply filter_split_Permutation. }
  assert (Hsorted_in : ∀ k ir, sorted !! k = Some ir →
            F64.is_nan (sort_key "distance_km" ir.2) = false).
  { intros k ir Hk. apply list_elem_of_lookup_2 in Hk. rewrite Hsperm in Hk.
    now apply list_elem_of_filter in Hk as [? _]. }
  assert (Hnans_in : ∀ k ir, nans !! k = Some ir →
            F64.is_nan (sort_key "distance_km" ir.2) = true).
  { intros k ir Hk. apply list_elem_of_lookup_2 in Hk.
    now apply list_elem_of_filter in Hk as [? _]. }
  split; [constructor|].
  - unfold reset_index; simpl.
    rewrite length_combine, length_seq, !length_map. lia.
  - apply reset_index_indexed.
  - apply (NoDup_Permutation_proper _ (map fst (rows a))).
    + now apply Permutation_map.
    + clear -Hlab_a. induction Hlab_a as [|x l _ IH Hall]; constructor; auto.
      rewrite Forall_forall in Hall. intros Hx. apply Hall in Hx. lia.
  - intros k i r Hk Hdf.
    apply reset_index_lookup in Hdf as [_ (j & Hj)]. simpl in Hj.
    rewrite lookup_map, Hj in Hk. injection Hk as ->.
    apply Hin_a. rewrite <- Hperm. eapply list_elem_of_lookup_2, Hj.
  - intros x y rx ry Hxy Hx Hy Hnan.
    apply reset_index_lookup in Hx as [_ (ix & Hx)].
    apply reset_index_lookup in Hy as [_ (iy & Hy)]. simpl in Hx, Hy.
    rewrite Hsrows in Hx, Hy.
    destruct (decide (y < length sorted)) as [Hlt|Hge].
    + rewrite lookup_app_l in Hx, Hy by lia.
      apply (Hsasc _ _ _ _ Hxy Hx Hy).
    + rewrite lookup_app_r in Hy by lia.
      apply Hnans_in in Hy. simpl in Hy. unfold distance_of in Hnan. congruence.
  - intros x y ix iy rx Hxy Hix Hiy Hx Hnan.
    apply reset_index_lookup in Hx as [_ (jx & Hx)]. simpl in Hx.
    rewrite lookup_map in Hix, Hiy.
    destruct (rows s !! y) as [[jy ry]|] eqn:Hy; [|discriminate].
    rewrite Hx in Hix. simpl in Hix, Hiy.
    injection Hix as ->. injection Hiy as ->.
    rewrite Hsrows in Hx, Hy.
    destruct (decide (x < length sorted)) as [Hlt|Hge].
    { rewrite lookup_app_l in Hx by lia.
      apply Hsorted_in in Hx. simpl in Hx. unfold distance_of in Hnan. congruence. }
    rewrite lookup_app_r in Hx, Hy by lia.
    assert (Hsub : StronglySorted lt (map fst nans)).
    { eapply StronglySorted_sublist; [|exact Hlab_a].
      apply sublist_map, sublist_filter. }
    apply (StronglySorted_lookup lt (map fst nans)
             (x - length sorted) (y - length sorted)); [assumption|lia|..].
    + now rewrite lookup_map, Hx.
    + now rewrite lookup_map, Hy.
  - intros c Hc. unfold reset_index; simpl. rewrite Hscol.
    assert (Hd : (c ∈ columns f ∨ c ∈ required_columns) ∨
                 c ∈ process_columns ∨ c = "fire_risk").
    { destruct Hc as [Hc|[Hc|Hc]]; [left; now left|left; now right|right].
      unfold derived_columns in Hc. unfold process_columns.
      repeat (apply elem_of_cons in Hc as [->|Hc];
              [first [right; reflexivity | left; repeat constructor]|]).
      now apply elem_of_nil in Hc. }
    destruct Hd as [Hd|[Hd| ->]].
    + apply columns_assign. unfold rel, reliable, select; simpl. apply Hcols.
      left. now apply Hkeep.
    + apply columns_assign. unfold rel, reliable, select; simpl. apply Hcols.
      now right.
    + apply columns_assign_new.
Qed.

End Report.

(** ** Confidence normalisation *)

Section Confidence.

Variable E : Env.

Local Open Scope string_scope.
Local Open Scope float_scope.

Lemma fillna_nan x d : F64.is_nan x = true → fillna x d = d.
Proof. intros H. unfold fillna. now rewrite H. Qed.

Lemma fillna_number x d : F64.is_nan x = false → fillna x d = x.
Proof. intros H. unfold fillna. now rewrite H. Qed.

Lemma clip_nan x : F64.is_nan x = true → clip 0 100 x = x.
Proof. intros H. unfold clip. now rewrite H. Qed.

Lemma clip_below x : (x <? 0) = true → clip 0 100 x = 0.
Proof.
  intros H. unfold clip, F64.geb.
  destruct (F64.ltb_not_nan _ _ H) as [Hx _]. rewrite Hx. simpl.
  rewrite (F64.ltb_leb_false _ _ H).
  assert ((x <=? 100) = true) as ->; [|reflexivity].
  apply F64.ltb_leb. eapply F64.ltb_leb_trans; [exact H|reflexivity].
Qed.

Lemma clip_inside x : (0 <=? x) = true → (x <=? 100) = true → clip 0 100 x = x.
Proof.
  intros H0 H1. unfold clip, F64.geb. rewrite H0, H1.
  now rewrite !orb_true_r.
Qed.

Lemma clip_above x : (100 <? x) = true → clip 0 100 x = 100.
Proof.
  intros H. unfold clip, F64.geb.
  destruct (F64.ltb_not_nan _ _ H) as [_ Hx]. rewrite Hx. simpl.
  now rewrite (F64.ltb_leb_false _ _ H).
Qed.

(** The clamp of a number is a number between 0 and 100. *)
Lemma clip_range x :
  F64.is_nan x = false →
  F64.is_nan (clip 0 100 x) = false ∧
  (0 <=? clip 0 100 x) = true ∧ (clip 0 100 x <=? 100) = true.
Proof.
  intros Hx.
  destruct (0 <=? x) eqn:H0.
  - destruct (x <=? 100) eqn:H1.
    + rewrite clip_inside by assumption. auto.
    + rewrite clip_above by (apply F64.leb_false_ltb; auto). auto.
  - rewrite clip_below by (apply F64.leb_false_ltb; auto). auto.
Qed.

Lemma normalize_mapped v p :
  mapping !! lower (strip (astype_str E v)) = Some p →
  normalize E v = fillna (clip 0 100 (fillna p (to_numeric E v))) 0.
Proof. intros H. unfold normalize. now rewrite H. Qed.

Lemma mapping_lookup s :
  mapping !! s =
    if bool_decide (s = "low") then Some 30
    else if bool_decide (s = "nominal") then Some 60
    else if bool_decide (s = "high") then Some 90
    else None.
Proof.
  unfold mapping. rewrite !lookup_insert, lookup_singleton.
  repeat case_decide; repeat case_bool_decide; congruence.
Qed.

Lemma normalize_unmapped v :
  mapping !! lower (strip (astype_str E v)) = None →
  normalize E v = fillna (clip 0 100 (to_numeric E v)) 0.
Proof. intros H. unfold normalize. now rewrite H. Qed.

Lemma normalize_range v :
  F64.is_nan (normalize E v) = false ∧
  (0 <=? normalize E v) = true ∧ (normalize E v <=? 100) = true.
Proof.
  unfold normalize.
  set (y := fillna _ (to_numeric E v)).
  destruct (F64.is_nan y) eqn:Hy.
  - rewrite clip_nan, fillna_nan by assumption. repeat split; reflexivity.
  - destruct (clip_range y Hy) as (Hn & H0 & H1).
    rewrite fillna_number by assumption. repeat split; assumption.
Qed.

End Confidence.

(** ** What a run returns *)

Section Returns.

Variable E : Env.

Local Open Scope string_scope.

(** For each row of the report, in report order, the label the row had in
    the unioned frame: its arrival position.  The report itself carries the
    labels [0 .. n-1] after [reset_index]. *)
Definition arrival (lat lon : float) (sat_list : list string) (radius_km : float)
    (days : Z) : list nat :=
  let '(_, dfs) := collect E lat lon sat_list radius_km days in
  match dfs with
  | [] => []
  | _ =>
      match process E lat lon (ensure_columns (concat dfs)) with
      | Raise _ => []
      | Ok (e, pct) =>
          if df_empty (reliable e pct) then []
          else
            match ranked E (reliable e pct) pct with
            | Raise _ => []
            | Ok s => map fst (rows s)
            end
      end
  end.

Hypothesis HE : EnvSpec E.

(** A run that returns a frame returns a report over the fetched rows. *)
Lemma check_fires_report lat lon sat_list radius_km days out df :
  check_fires E lat lon sat_list radius_km days = (out, Ok df) →
  report_of E lat lon (fetched E lat lon sat_list radius_km days) df
    (arrival lat lon sat_list radius_km days).
Proof.
  intros H.
  pose proof (check_fires_run E lat lon sat_list radius_km days) as Hrun.
  pose proof (collect_well_formed E HE lat lon sat_list radius_km days) as Hw.
  rewrite H in Hrun. unfold arrival, fetched.
  inversion Hrun as [out0 Hc|?|out0 dfs e pct Hc Hne Hp He
                    |?|out0 dfs e pct s Hc Hne Hp He Hr]; subst;
    rewrite Hc in *; cbn [snd] in *.
  - apply report_of_empty.
  - destruct dfs as [|d dfs]; [congruence|].
    rewrite Hp, He. apply report_of_empty.
  - destruct dfs as [|d dfs]; [congruence|].
    rewrite Hp, He, Hr. now apply (run_report_of E HE lat lon _ e pct s).
Qed.

(** A run that returns rows has printed them as a table and kept every
    column. *)
Lemma check_fires_table lat lon sat_list radius_km days out df :
  check_fires E lat lon sat_list radius_km days = (out, Ok df) → rows df ≠ [] →
  out = ((collect E lat lon sat_list radius_km days).1 ++
         print_table E lat lon radius_km days df)%list ∧
  ∀ c, c ∈ columns (fetched E lat lon sat_list radius_km days) ∨
       c ∈ required_columns ∨ c ∈ derived_columns → c ∈ columns df.
Proof.
  intros H Hrows.
  pose proof (check_fires_run E lat lon sat_list radius_km days) as Hrun.
  pose proof (collect_well_formed E HE lat lon sat_list radius_km days) as Hw.
  rewrite H in Hrun. unfold fetched.
  inversion Hrun as [out0 Hc|?|out0 dfs e pct Hc Hne Hp He
                    |?|out0 dfs e pct s Hc Hne Hp He Hr]; subst;
    try (exfalso; apply Hrows; reflexivity).
  rewrite Hc in *. cbn [fst snd] in *. split; [reflexivity|].
  now destruct (run_report_of E HE lat lon dfs e pct s Hw Hp Hr) as [_ Hcols].
Qed.

End Returns.

(** ** The concrete environment meets the assumptions *)

Lemma demo_modis_well_formed : well_formed Demo.modis.
Proof.
  intros ir c Hin Hs. unfold Demo.modis in *; simpl in *.
  repeat (apply elem_of_cons in Hin as [->|Hin]);
    try (now apply elem_of_nil in Hin);
    simpl in Hs; rewrite !lookup_insert, lookup_singleton in Hs;
    repeat case_decide; subst; try (repeat constructor);
    destruct Hs; discriminate.
Qed.

Lemma demo_env_with_spec strict feed :
  (∀ u df, feed u = inr df → well_formed df) → EnvSpec (Demo.env_with strict feed).
Proof.
  intros Hfeed. constructor; simpl.
  - intros ks _. apply insertion_argsort_perm.
  - intros ks Hks. now apply insertion_argsort_sorted.
  - intros x. apply F64.mul_nan_l.
  - intros x. apply F64.sub_nan_l.
  - intros y x. apply F64.div_nan_l.
  - exact Hfeed.
Qed.

Lemma demo_env_spec strict : EnvSpec (Demo.env strict).
Proof.
  apply demo_env_with_spec. intros u df. unfold Demo.feed.
  destruct (index 0 "/MODIS_NRT/" u); [intros [= <-]; apply demo_modis_well_formed|].
  destruct (index 0 "/VIIRS_NOAA20_NRT/" u); [discriminate|].
  intros [= <-]. intros ir c Hin. now apply elem_of_nil in Hin.
Qed.

(** The run used in the examples: the default sensors around a point near
    Los Angeles, 200 km, 7 days, with the stable sorting routine. *)
Definition demo_run : list string * result DataFrame :=
  check_fires (Demo.env false) 34.05 (-118.25) SATELLITES 200 7.

Definition demo_report : DataFrame :=
  match demo_run.2 with
  | Ok df => df
  | Raise _ => empty_frame
  end.

Lemma demo_run_returns :
  check_fires (Demo.env false) 34.05 (-118.25) SATELLITES 200 7
  = (demo_run.1, Ok demo_report).
Proof. vm_compute. reflexivity. Qed.

(** * The claims *)

Local Open Scope string_scope.
Local Open Scope float_scope.

(** C2.  Confidence normalisation.  For every raw confidence value of the
    column, with [raw] its trimmed, lowercased text and [x] its numeric
    parse: if [raw] is low, nominal or high the percentage is 30, 60 or 90;
    otherwise, if [x] is a number, the percentage is [x] clamped to
    [0, 100] (0 below 0, [x] itself inside, 100 above 100); otherwise, for
    an unparseable or missing value, the percentage is 0.  The percentage is
    always defined (never NaN) and lies in [0, 100]. *)
Theorem confidence_normalization (E : Env) (confidence : list cell) (i : nat) (v : cell) :
  confidence !! i = Some v →
  ∃ p, confidence_percentage E confidence !! i = Some p ∧
    let raw := lower (strip (astype_str E v)) in
    let x := to_numeric E v in
    (raw = "low" → p = 30) ∧
    (raw = "nominal" → p = 60) ∧
    (raw = "high" → p = 90) ∧
    (raw ≠ "low" → raw ≠ "nominal" → raw ≠ "high" →
       ((x <? 0) = true → p = 0) ∧
       ((0 <=? x) = true → (x <=? 100) = true → p = x) ∧
       ((100 <? x) = true → p = 100) ∧
       (F64.is_nan x = true → p = 0)) ∧
    F64.is_nan p = false ∧ (0 <=? p) = true ∧ (p <=? 100) = true.
Proof.
  intros Hv. exists (normalize E v).
  split; [now rewrite confidence_percentage_lookup, Hv|].
  cbv zeta.
  split; [|split; [|split; [|split]]].
  - intros Hraw. rewrite (normalize_mapped E v 30); [reflexivity|].
    now rewrite Hraw.
  - intros Hraw. rewrite (normalize_mapped E v 60); [reflexivity|].
    now rewrite Hraw.
  - intros Hraw. rewrite (normalize_mapped E v 90); [reflexivity|].
    now rewrite Hraw.
  - intros H1 H2 H3.
    rewrite normalize_unmapped
      by (rewrite mapping_lookup; now rewrite !bool_decide_eq_false_2).
    repeat split.
    + intros Hx. now rewrite clip_below.
    + intros H0 H100. rewrite clip_inside by assumption.
      apply fillna_number. now destruct (F64.leb_not_nan _ _ H0).
    + intros Hx. now rewrite clip_above.
    + intros Hx. rewrite clip_nan by assumption. now apply fillna_nan.
  - apply normalize_range.
Qed.

(** The no-break space U+00A0 and the ideographic space U+3000, as
    bytes. *)
Definition no_break_space : string := String "194" (String "160" "")%char.
Definition ideographic_space : string :=
  String "227" (String "128" (String "128" ""))%char.

(** The value [High] between an ideographic space and a tab on the left and
    a no-break space and a blank on the right normalises to 90. *)
Lemma confidence_normalization_witness :
  ∃ p, confidence_percentage (Demo.env false)
         [CStr (ideographic_space +:+ String "009"%char "High" +:+ no_break_space
                +:+ " ")] !! 0%nat = Some p ∧
       p = 90.
Proof.
  destruct (confidence_normalization (Demo.env false)
              [CStr (ideographic_space +:+ String "009"%char "High"
                     +:+ no_break_space +:+ " ")] 0
              (CStr (ideographic_space +:+ String "009"%char "High"
                     +:+ no_break_space +:+ " ")) eq_refl)
    as (p & Hp & _ & _ & Hhigh & _).
  exists p. split; [exact Hp|]. apply Hhigh. reflexivity.
Defined.

(** ** Thresholds *)

Lemma classify_risk_high conf : F64.geb conf 70 = true → classify_risk conf = "High".
Proof. intros H. unfold classify_risk. now rewrite H. Qed.

Lemma classify_risk_medium conf :
  F64.geb conf 50 = true → (conf <? 70) = true → classify_risk conf = "Medium".
Proof.
  intros H50 H70. unfold classify_risk.
  assert (F64.geb conf 70 = false) as -> by (now apply F64.ltb_leb_false).
  now rewrite H50.
Qed.

Lemma classify_risk_low conf : (conf <? 50) = true → classify_risk conf = "Low".
Proof.
  intros H. unfold classify_risk.
  assert (F64.geb conf 50 = false) as -> by (now apply F64.ltb_leb_false).
  assert (F64.geb conf 70 = false) as ->; [|reflexivity].
  apply F64.ltb_leb_false. eapply F64.ltb_leb_trans; [exact H|reflexivity].
Qed.

Lemma classify_risk_low_inv conf :
  F64.is_nan conf = false → classify_risk conf = "Low" → (conf <? 50) = true.
Proof.
  intros Hn. unfold classify_risk.
  destruct (F64.geb conf 70); [discriminate|].
  destruct (F64.geb conf 50) eqn:H; [discriminate|]. intros _.
  now apply F64.leb_false_ltb.
Qed.

Lemma classify_risk_cases conf :
  classify_risk conf = "High" ∨ classify_risk conf = "Medium" ∨
  classify_risk conf = "Low".
Proof.
  unfold classify_risk.
  destruct (F64.geb conf 70); [now left|].
  destruct (F64.geb conf 50); [right; now left|right; now right].
Qed.

Lemma intensity_low frp : (frp <? 30) = true → intensity frp = "Low".
Proof. intros H. unfold intensity. now rewrite H. Qed.

Lemma intensity_moderate frp :
  (30 <=? frp) = true → (frp <? 100) = true → intensity frp = "Moderate".
Proof.
  intros H30 H100. unfold intensity.
  now rewrite (F64.leb_ltb_false _ _ H30), H100.
Qed.

Lemma intensity_high frp : (100 <=? frp) = true → intensity frp = "High".
Proof.
  intros H. unfold intensity.
  rewrite (F64.leb_ltb_false _ _ H).
  assert ((frp <? 30) = false) as ->; [|reflexivity].
  apply F64.leb_ltb_false. eapply F64.leb_trans; [|exact H]. reflexivity.
Qed.

(** C7.  FRP and intensity.  In every row [process] returns, the frp cell
    is the number [fillna(to_numeric(raw), 0)]: exactly 0 when the raw cell
    is missing or is a string the numeric parser rejects, and never NaN;
    the intensity cell is a function of that number alone: Low below 30,
    Moderate from 30 up to but excluding 100, High from 100, so a missing
    frp gives Low. *)
Theorem frp_and_intensity (E : Env) (lat lon : float) (g e : DataFrame)
    (pct : list float) :
  map fst (rows g) = seq 0 (length (rows g)) → process E lat lon g = Ok (e, pct) →
  (∀ i ir, rows e !! i = Some ir →
     ∃ r0, rows g !! i = Some (i, r0) ∧
       let raw := cell_at "frp" r0 in
       let frp := fillna (to_numeric E raw) 0 in
       cell_at "frp" ir.2 = CNum frp ∧
       cell_at "intensity" ir.2 = CStr (intensity frp) ∧
       (isna raw = true → frp = 0 ∧ intensity frp = "Low") ∧
       (∀ s, raw = CStr s → pd_numeric E s = None →
             frp = 0 ∧ intensity frp = "Low") ∧
       F64.is_nan frp = false) ∧
  (∀ frp,
     ((frp <? 30) = true → intensity frp = "Low") ∧
     ((30 <=? frp) = true → (frp <? 100) = true → intensity frp = "Moderate") ∧
     ((100 <=? frp) = true → intensity frp = "High")).
Proof.
  intros Hg Hp. apply labels_indexed in Hg. split.
  - intros i ir Hi.
    destruct (process_inv E lat lon g e pct Hg Hp) as (_ & _ & _ & _ & Hrows).
    destruct (Hrows i ir Hi) as (r0 & Hr0 & _ & Hen).
    exists r0. split; [assumption|]. cbv zeta.
    destruct Hen as [Hfrp _ Hint _ _ _ _]. unfold frp_of in *.
    split; [assumption|]. split; [assumption|].
    split; [|split].
    + intros Hna. destruct (cell_at "frp" r0) as [x|s]; [|discriminate].
      simpl in *. now rewrite fillna_nan.
    + intros s -> Hs. simpl. rewrite Hs. simpl. now rewrite fillna_nan.
    + destruct (F64.is_nan (to_numeric E (cell_at "frp" r0))) eqn:Hn.
      * now rewrite fillna_nan.
      * now rewrite fillna_number.
  - intros frp. split; [apply intensity_low|].
    split; [apply intensity_moderate|apply intensity_high].
Qed.

(** The unioned frame of the example run, with its required columns, and
    what [process] makes of it. *)
Definition demo_frame : DataFrame :=
  ensure_columns (fetched (Demo.env false) 34.05 (-118.25) SATELLITES 200 7).

Definition demo_enriched : DataFrame :=
  match process (Demo.env false) 34.05 (-118.25) demo_frame with
  | Ok (e, _) => e
  | Raise _ => empty_frame
  end.

Definition demo_pct : list float :=
  match process (Demo.env false) 34.05 (-118.25) demo_frame with
  | Ok (_, pct) => pct
  | Raise _ => []
  end.

Definition demo_row (df : DataFrame) (k : nat) : row :=
  match rows df !! k with
  | Some ir => ir.2
  | None => ∅
  end.

Definition demo_labelled_row (df : DataFrame) (k : nat) : nat * row :=
  default (0%nat, ∅) (rows df !! k).

Lemma lookup_default_lt {A} (l : list A) k d :
  k < length l → l !! k = Some (default d (l !! k)).
Proof.
  intros H. destruct (lookup_lt_is_Some_2 _ _ H) as [a Ha]. now rewrite Ha.
Qed.

(** Row 2 of the example has the frp ["n/a"]: it becomes 0 and the
    intensity is Low. *)
Lemma frp_and_intensity_witness :
  cell_at "frp" (demo_labelled_row demo_enriched 2).2 = CNum 0 ∧
  cell_at "intensity" (demo_labelled_row demo_enriched 2).2 = CStr "Low".
Proof.
  assert (Hg : map fst (rows demo_frame) = seq 0 (length (rows demo_frame)))
    by (vm_compute; reflexivity).
  assert (Hp : process (Demo.env false) 34.05 (-118.25) demo_frame
               = Ok (demo_enriched, demo_pct)) by (vm_compute; reflexivity).
  destruct (proj1 (frp_and_intensity (Demo.env false) 34.05 (-118.25) demo_frame
                     demo_enriched demo_pct Hg Hp)
              2%nat (demo_labelled_row demo_enriched 2))
    as (r0 & Hr0 & Hfrp & Hint & _ & Hstr & _).
  { apply lookup_default_lt. vm_compute. lia. }
  assert (Hr : r0 = demo_row demo_frame 2)
    by (unfold demo_row; now rewrite Hr0).
  subst r0.
  assert (Hraw : cell_at "frp" (demo_row demo_frame 2) = CStr "n/a")
    by (vm_compute; reflexivity).
  destruct (Hstr "n/a" Hraw eq_refl) as [H0 HL].
  rewrite H0 in Hfrp. rewrite HL in Hint.
  split; assumption.
Defined.

(** ** Rows of a returned report *)

Lemma NoDup_bounded_length (l : list nat) n :
  NoDup l → (∀ x, x ∈ l → (x < n)%nat) → (length l ≤ n)%nat.
Proof.
  intros Hd Hb.
  assert (Hs : l ⊆+ seq 0 n).
  { apply NoDup_submseteq; [assumption|].
    intros x Hx. apply elem_of_seq. specialize (Hb x Hx). lia. }
  apply submseteq_length in Hs. now rewrite length_seq in Hs.
Qed.

Section ReportRows.

Variable E : Env.
Hypothesis HE : EnvSpec E.
Variables (lat lon : float) (sat_list : list string) (radius_km : float) (days : Z).
Variables (out : list string) (df : DataFrame).
Hypothesis Hrun : check_fires E lat lon sat_list radius_km days = (out, Ok df).

Lemma report_row k i ir :
  arrival E lat lon sat_list radius_km days !! k = Some i →
  rows df !! k = Some ir →
  ir.1 = k ∧
  ∃ r0, rows (fetched E lat lon sat_list radius_km days) !! i = Some (i, r0) ∧
        reported E lat lon r0 ir.2.
Proof.
  intros Hi Hk.
  destruct (check_fires_report E HE _ _ _ _ _ _ _ Hrun) as [_ Hidx _ Hrows _ _].
  pose proof (Hidx _ _ Hk) as Hl. split; [assumption|].
  destruct ir as [j r]. simpl in *. subst j. eauto.
Qed.

Lemma report_row_label k ir :
  rows df !! k = Some ir →
  ∃ i, arrival E lat lon sat_list radius_km days !! k = Some i.
Proof.
  intros Hk.
  destruct (check_fires_report E HE _ _ _ _ _ _ _ Hrun) as [Hlen _ _ _ _ _].
  apply lookup_lt_is_Some_2. rewrite <- Hlen. eapply lookup_lt_Some, Hk.
Qed.

Lemma report_length :
  length (arrival E lat lon sat_list radius_km days) = length (rows df) ∧
  NoDup (arrival E lat lon sat_list radius_km days) ∧
  (length (rows df) ≤ length (rows (fetched E lat lon sat_list radius_km days)))%nat.
Proof.
  destruct (check_fires_report E HE _ _ _ _ _ _ _ Hrun) as [Hlen Hidx Hnd Hrows _ _].
  split; [now symmetry|]. split; [assumption|].
  rewrite Hlen. apply NoDup_bounded_length; [assumption|].
  intros i Hi. apply list_elem_of_lookup in Hi as [k Hk].
  assert (Hlt : (k < length (rows df))%nat) by (rewrite Hlen; eapply lookup_lt_Some, Hk).
  destruct (lookup_lt_is_Some_2 _ _ Hlt) as [[j r] Hr].
  pose proof (Hidx _ _ Hr) as Hj. simpl in Hj. subst j.
  destruct (Hrows _ _ _ Hk Hr) as (r0 & Hr0 & _).
  eapply lookup_lt_Some, Hr0.
Qed.

End ReportRows.

(** C6.  Fire risk.  [classify_risk] gives High from 70, Medium from 50 up
    to but excluding 70, Low below 50.  In a returned report the risk cell
    of every row is [classify_risk] of the numeric confidence of the fetched
    row it comes from, and of nothing else; that confidence is at least 40,
    so the tier is High, Medium or Low, and it is Low exactly when the
    confidence is below 50, that is in [40, 50). *)
Theorem fire_risk_tiers (E : Env) (lat lon : float) (sat_list : list string)
    (radius_km : float) (days : Z) (out : list string) (df : DataFrame) :
  EnvSpec E →
  check_fires E lat lon sat_list radius_km days = (out, Ok df) →
  (∀ conf,
     (F64.geb conf 70 = true → classify_risk conf = "High") ∧
     (F64.geb conf 50 = true → (conf <? 70) = true → classify_risk conf = "Medium") ∧
     ((conf <? 50) = true → classify_risk conf = "Low")) ∧
  (∀ k ir, rows df !! k = Some ir →
     ∃ i r0,
       arrival E lat lon sat_list radius_km days !! k = Some i ∧
       rows (fetched E lat lon sat_list radius_km days) !! i = Some (i, r0) ∧
       let conf := normalize E (cell_at "confidence" r0) in
       cell_at "fire_risk" ir.2 = CStr (classify_risk conf) ∧
       F64.geb conf 40 = true ∧
       (classify_risk conf = "High" ∨ classify_risk conf = "Medium" ∨
        classify_risk conf = "Low") ∧
       (classify_risk conf = "Low" ↔ (conf <? 50) = true)).
Proof.
  intros HE Hrun. split.
  - intros conf. split; [apply classify_risk_high|].
    split; [apply classify_risk_medium|apply classify_risk_low].
  - intros k ir Hk.
    destruct (report_row_label E HE _ _ _ _ _ _ _ Hrun _ _ Hk) as [i Hi].
    destruct (report_row E HE _ _ _ _ _ _ _ Hrun _ _ _ Hi Hk)
      as (_ & r0 & Hr0 & [_ Hrisk Hrel]).
    exists i, r0. split; [assumption|]. split; [assumption|].
    unfold confidence_of in *. cbv zeta.
    split; [assumption|]. split; [assumption|].
    split; [apply classify_risk_cases|].
    split; [|apply classify_risk_low].
    apply classify_risk_low_inv. now destruct (F64.leb_not_nan _ _ Hrel).
Qed.

(** Row 2 of the example report has confidence 45: it passed the filter
    and its risk is Low. *)
Lemma fire_risk_tiers_witness :
  cell_at "fire_risk" (demo_labelled_row demo_report 2).2 = CStr "Low".
Proof.
  destruct (proj2 (fire_risk_tiers (Demo.env false) 34.05 (-118.25) SATELLITES 200 7
                     demo_run.1 demo_report (demo_env_spec false) demo_run_returns)
              2%nat (demo_labelled_row demo_report 2))
    as (i & r0 & Hi & Hr0 & Hrisk & _).
  { apply lookup_default_lt. vm_compute. lia. }
  assert (Hi4 : i = 4%nat).
  { assert (Ha : arrival (Demo.env false) 34.05 (-118.25) SATELLITES 200 7 !! 2%nat
                 = Some 4%nat) by (vm_compute; reflexivity).
    rewrite Ha in Hi. now injection Hi. }
  subst i.
  assert (Hr : r0 = (demo_labelled_row
                       (fetched (Demo.env false) 34.05 (-118.25) SATELLITES 200 7) 4).2)
    by (unfold demo_labelled_row; now rewrite Hr0).
  subst r0. rewrite Hrisk. vm_compute. reflexivity.
Defined.

(** C3.  Filtering invariant.  In every returned report each row comes
    from a fetched row whose numeric confidence is at least 40 and whose
    cells, outside the columns the program writes, it keeps; distinct rows of
    the report come from distinct fetched rows, so the report has at most as
    many rows as were fetched; the printed table has one line per returned
    row, in the same order. *)
Theorem filtering_invariant (E : Env) (lat lon : float) (sat_list : list string)
    (radius_km : float) (days : Z) (out : list string) (df : DataFrame) :
  EnvSpec E →
  check_fires E lat lon sat_list radius_km days = (out, Ok df) →
  (∀ k ir, rows df !! k = Some ir →
     ∃ i r0,
       arrival E lat lon sat_list radius_km days !! k = Some i ∧
       rows (fetched E lat lon sat_list radius_km days) !! i = Some (i, r0) ∧
       F64.geb (normalize E (cell_at "confidence" r0)) 40 = true ∧
       ∀ c, c ∉ derived_columns → cell_at c ir.2 = cell_at c r0) ∧
  length (arrival E lat lon sat_list radius_km days) = length (rows df) ∧
  NoDup (arrival E lat lon sat_list radius_km days) ∧
  (length (rows df) ≤ length (rows (fetched E lat lon sat_list radius_km days)))%nat ∧
  (rows df ≠ [] →
   ∃ head, out = (head ++ map (fun ir : nat * row => row_line E (widths E df) ir.2)
                              (rows df))%list).
Proof.
  intros HE Hrun. split; [|split; [|split; [|split]]].
  - intros k ir Hk.
    destruct (report_row_label E HE _ _ _ _ _ _ _ Hrun _ _ Hk) as [i Hi].
    destruct (report_row E HE _ _ _ _ _ _ _ Hrun _ _ _ Hi Hk)
      as (_ & r0 & Hr0 & [Hen _ Hrel]).
    exists i, r0. repeat split; try assumption. apply Hen.
  - apply (report_length E HE _ _ _ _ _ _ _ Hrun).
  - apply (report_length E HE _ _ _ _ _ _ _ Hrun).
  - apply (report_length E HE _ _ _ _ _ _ _ Hrun).
  - intros Hne.
    destruct (check_fires_table E HE _ _ _ _ _ _ _ Hrun Hne) as [-> _].
    unfold print_table. eexists. rewrite app_assoc. reflexivity.
Qed.

(** The example report has four rows out of six fetched. *)
Lemma filtering_invariant_witness :
  (length (rows demo_report)
   ≤ length (rows (fetched (Demo.env false) 34.05 (-118.25) SATELLITES 200 7)))%nat.
Proof.
  apply (filtering_invariant (Demo.env false) 34.05 (-118.25) SATELLITES 200 7
           demo_run.1 demo_report (demo_env_spec false) demo_run_returns).
Defined.

(** ** Missing coordinates *)

Lemma haversine1_nan_lat E lat0 lon0 x y :
  EnvSpec E → F64.is_nan x = true → F64.is_nan (haversine1 E lat0 lon0 x y) = true.
Proof.
  intros HE Hx. unfold haversine1, square.
  apply F64.mul_nan_r, F64.mul_nan_r, (arctan2_nan E HE), F64.sqrt_nan.
  apply F64.add_nan_l, F64.mul_nan_l, (sin_nan E HE), F64.div_nan_l.
  apply F64.sub_nan_l, (radians_nan E HE), Hx.
Qed.

Lemma haversine1_nan_lon E lat0 lon0 x y :
  EnvSpec E → F64.is_nan y = true → F64.is_nan (haversine1 E lat0 lon0 x y) = true.
Proof.
  intros HE Hy. unfold haversine1, square.
  apply F64.mul_nan_r, F64.mul_nan_r, (arctan2_nan E HE), F64.sqrt_nan.
  apply F64.add_nan_r, F64.mul_nan_r, F64.mul_nan_l, (sin_nan E HE), F64.div_nan_l.
  apply F64.sub_nan_l, (radians_nan E HE), Hy.
Qed.

Lemma astype_float_missing E v x :
  isna v = true → astype_float E v = Ok x → F64.is_nan x = true.
Proof. destruct v as [y|s]; simpl; [|discriminate]. now intros H [= <-]. Qed.

(** C4.  Missing coordinates go last.  In every returned report, a row
    whose fetched latitude or longitude is missing has a NaN distance, and
    it comes after every row whose distance is defined. *)
Theorem missing_coordinates_last (E : Env) (lat lon : float) (sat_list : list string)
    (radius_km : float) (days : Z) (out : list string) (df : DataFrame)
    (a b i : nat) (ira irb : nat * row) (r0 : row) :
  EnvSpec E →
  check_fires E lat lon sat_list radius_km days = (out, Ok df) →
  rows df !! a = Some ira → rows df !! b = Some irb →
  arrival E lat lon sat_list radius_km days !! a = Some i →
  rows (fetched E lat lon sat_list radius_km days) !! i = Some (i, r0) →
  isna (cell_at "latitude" r0) = true ∨ isna (cell_at "longitude" r0) = true →
  F64.is_nan (distance_of ira.2) = true ∧
  (F64.is_nan (distance_of irb.2) = false → (b < a)%nat).
Proof.
  intros HE Hrun Ha Hb Hi Hr0 Hmiss.
  destruct (report_row E HE _ _ _ _ _ _ _ Hrun _ _ _ Hi Ha)
    as (Hla & r0' & Hr0' & [Hen _ _]).
  rewrite Hr0 in Hr0'. injection Hr0' as <-.
  destruct Hen as [_ _ _ (x & y & Hx & Hy & Hd) _ _ _].
  assert (Hnan : F64.is_nan (distance_of ira.2) = true).
  { unfold distance_of, sort_key. rewrite Hd. simpl.
    destruct Hmiss as [Hm|Hm].
    - apply haversine1_nan_lat; [assumption|]. eapply astype_float_missing; eauto.
    - apply haversine1_nan_lon; [assumption|]. eapply astype_float_missing; eauto. }
  split; [assumption|]. intros Hdef.
  destruct (check_fires_report E HE _ _ _ _ _ _ _ Hrun) as [_ Hidx _ _ Hsorted _].
  destruct (Nat.lt_trichotomy a b) as [Hlt|[Heq|Hgt]]; [| |assumption].
  - exfalso. destruct ira as [ja ra], irb as [jb rb].
    pose proof (Hidx _ _ Ha) as H1. pose proof (Hidx _ _ Hb) as H2.
    simpl in *. subst ja jb.
    pose proof (Hsorted _ _ _ _ Hlt Ha Hb Hdef) as Hle.
    destruct (F64.leb_not_nan _ _ Hle) as [Hn _]. congruence.
  - exfalso. subst b. rewrite Ha in Hb. injection Hb as <-. congruence.
Qed.

(** In the example report the row without a latitude (fetched third) is in
    the last position, after the row in position 0. *)
Lemma missing_coordinates_last_witness :
  F64.is_nan (distance_of (demo_labelled_row demo_report 3).2) = true ∧ (0 < 3)%nat.
Proof.
  destruct (missing_coordinates_last (Demo.env false) 34.05 (-118.25) SATELLITES 200 7
              demo_run.1 demo_report 3 0 2
              (demo_labelled_row demo_report 3) (demo_labelled_row demo_report 0)
              (demo_labelled_row
                 (fetched (Demo.env false) 34.05 (-118.25) SATELLITES 200 7) 2).2
              (demo_env_spec false) demo_run_returns) as [Hnan Hlast].
  - apply lookup_default_lt. vm_compute. lia.
  - apply lookup_default_lt. vm_compute. lia.
  - vm_compute. reflexivity.
  - vm_compute. reflexivity.
  - left. vm_compute. reflexivity.
  - split; [exact Hnan|]. apply Hlast. vm_compute. reflexivity.
Defined.

(** C1, as amended.  The final report is sorted ascending by distance:
    whenever a row has a defined distance, every row before it has a
    distance that is defined and not larger.  Rows without a distance come
    last and keep their arrival order.  Between rows with equal defined
    distances the order is the one the sorting routine of numpy produces
    for [kind='quicksort'], which need not be the arrival order. *)
Theorem sorted_by_distance (E : Env) (lat lon : float) (sat_list : list string)
    (radius_km : float) (days : Z) (out : list string) (df : DataFrame) :
  EnvSpec E →
  check_fires E lat lon sat_list radius_km days = (out, Ok df) →
  (∀ a b ira irb, (a < b)%nat →
     rows df !! a = Some ira → rows df !! b = Some irb →
     F64.is_nan (distance_of irb.2) = false →
     (distance_of ira.2 <=? distance_of irb.2) = true) ∧
  (∀ a b ia ib ira, (a < b)%nat →
     arrival E lat lon sat_list radius_km days !! a = Some ia →
     arrival E lat lon sat_list radius_km days !! b = Some ib →
     rows df !! a = Some ira →
     F64.is_nan (distance_of ira.2) = true →
     (ia < ib)%nat).
Proof.
  intros HE Hrun.
  destruct (check_fires_report E HE _ _ _ _ _ _ _ Hrun) as [_ Hidx _ _ Hsorted Hnan].
  split.
  - intros a b [ja ra] [jb rb] Hab Ha Hb Hdef.
    pose proof (Hidx _ _ Ha) as H1. pose proof (Hidx _ _ Hb) as H2.
    simpl in *. subst ja jb. eapply Hsorted; eauto.
  - intros a b ia ib [ja ra] Hab Hia Hib Ha Hn.
    pose proof (Hidx _ _ Ha) as H1. simpl in *. subst ja. eapply Hnan; eauto.
Qed.

(** In the example report the distance in position 0 is at most the one in
    position 2. *)
Lemma sorted_by_distance_witness :
  (distance_of (demo_labelled_row demo_report 0).2
   <=? distance_of (demo_labelled_row demo_report 2).2) = true.
Proof.
  apply (proj1 (sorted_by_distance (Demo.env false) 34.05 (-118.25) SATELLITES 200 7
                  demo_run.1 demo_report (demo_env_spec false) demo_run_returns)
           0%nat 2%nat).
  - lia.
  - apply lookup_default_lt. vm_compute. lia.
  - apply lookup_default_lt. vm_compute. lia.
  - vm_compute. reflexivity.
Defined.

(** The order in which the scalar routine of numpy leaves the eighteen
    rows of the feed with equal distances: the nine nearer ones, then the
    nine others, neither group in arrival order. *)
Lemma tied_arrival :
  arrival (numpy_env tied_feed) 34.05 (-118.25) SATELLITES 200 7
  = [17; 1; 15; 3; 5; 13; 7; 9; 11; 14; 12; 0; 16; 6; 4; 2; 10; 8]%nat.
Proof. vm_compute. reflexivity. Qed.

Lemma tied_run_returns :
  check_fires (numpy_env tied_feed) 34.05 (-118.25) SATELLITES 200 7
  = ((check_fires (numpy_env tied_feed) 34.05 (-118.25) SATELLITES 200 7).1,
     Ok tied_report).
Proof.
  assert (Hok : match (check_fires (numpy_env tied_feed) 34.05 (-118.25)
                         SATELLITES 200 7).2 with
                | Ok _ => true
                | Raise _ => false
                end = true)
    by (vm_compute; reflexivity).
  unfold tied_report. revert Hok.
  generalize (check_fires (numpy_env tied_feed) 34.05 (-118.25) SATELLITES 200 7).
  intros [out [df|x]] Hok; [reflexivity|discriminate Hok].
Qed.

(** C1, as stated, fails: the report is not always in arrival order among
    equal distances.  Line 107 sorts with the default [kind='quicksort'].
    On the feed of eighteen detections, nine at each of two places, the
    scalar routine of numpy partitions once, and the report opens with the
    fetched row 17 followed by the fetched row 1, both at the nearer
    place. *)
Lemma stable_sort_counterexample :
  ¬ (∀ (E : Env) (lat lon : float) (sat_list : list string) (radius_km : float)
       (days : Z) (out : list string) (df : DataFrame),
       argsort E = Numpy.argsort →
       check_fires E lat lon sat_list radius_km days = (out, Ok df) →
       ∀ a b ia ib ira irb, (a < b)%nat →
         arrival E lat lon sat_list radius_km days !! a = Some ia →
         arrival E lat lon sat_list radius_km days !! b = Some ib →
         rows df !! a = Some ira → rows df !! b = Some irb →
         (distance_of ira.2 =? distance_of irb.2) = true →
         (ia < ib)%nat).
Proof.
  intros H.
  specialize (H (numpy_env tied_feed) 34.05 (-118.25) SATELLITES 200 7%Z _ _
                eq_refl tied_run_returns 0%nat 1%nat 17%nat 1%nat
                (demo_labelled_row tied_report 0)
                (demo_labelled_row tied_report 1)).
  assert (17 < 1)%nat; [|lia].
  apply H.
  - lia.
  - now rewrite tied_arrival.
  - now rewrite tied_arrival.
  - apply lookup_default_lt. vm_compute. lia.
  - apply lookup_default_lt. vm_compute. lia.
  - vm_compute. reflexivity.
Qed.

(** ** The display string of a confidence just under 40 *)

Lemma round_half_even_40 (m : positive) :
  (5559130790035456 <= Z.pos m < 5629499534213120)%Z →
  round_half_even m (-47) = 40%Z.
Proof.
  intros Hm. unfold round_half_even.
  change (0 <=? -47)%Z with false. cbv iota.
  change (2 ^ (- -47))%Z with 140737488355328%Z.
  assert (Hq : (Z.pos m / 140737488355328 = 39)%Z).
  { symmetry. apply (Z.div_unique _ _ 39 (Z.pos m - 39 * 140737488355328)); lia. }
  assert (Hr : (Z.pos m mod 140737488355328 = Z.pos m - 39 * 140737488355328)%Z).
  { symmetry. apply (Z.mod_unique _ _ 39); lia. }
  rewrite Hq, Hr.
  destruct (Z.ltb_spec (2 * (Z.pos m - 39 * 140737488355328)) 140737488355328);
    [lia|].
  destruct (Z.ltb_spec 140737488355328 (2 * (Z.pos m - 39 * 140737488355328)));
    reflexivity.
Qed.

Lemma format_0f_40 p : (39.5 <=? p) = true → (p <? 40) = true → format_0f p = "40".
Proof.
  intros Hle Hlt. rewrite FloatAxioms.leb_spec in Hle.
  rewrite FloatAxioms.ltb_spec in Hlt. unfold format_0f.
  change (Prim2SF 39.5) with (S754_finite false 5559130790035456 (-47)) in Hle.
  change (Prim2SF 40) with (S754_finite false 5629499534213120 (-47)) in Hlt.
  destruct (Prim2SF p) as [s|s| |s m e].
  - destruct s; discriminate Hle.
  - destruct s; [discriminate Hle|discriminate Hlt].
  - discriminate Hle.
  - destruct s; [discriminate Hle|].
    unfold SFleb, SFltb, SFcompare in Hle, Hlt.
    pose proof (Pos.compare_spec 5559130790035456 m) as H1.
    pose proof (Pos.compare_spec m 5629499534213120) as H2.
    unfold Pos.compare in H1, H2.
    assert (He : e = (-47)%Z).
    { destruct (Z.compare_spec (-47) e) as [He|He|He]; [now subst| |discriminate Hle].
      destruct (Z.compare_spec e (-47)); [lia|lia|discriminate Hlt]. }
    subst e. rewrite Z.compare_refl in Hle, Hlt.
    assert (Hm : (5559130790035456 <= Z.pos m < 5629499534213120)%Z).
    { split.
      - clear H2 Hlt. destruct H1 as [H1|H1|H1]; [|now apply Pos2Z.pos_le_pos, Pos.lt_le_incl|discriminate Hle].
        subst m. apply Pos2Z.pos_le_pos, Pos.le_refl.
      - clear H1 Hle. destruct H2 as [H2|H2|H2]; [discriminate Hlt|now apply Pos2Z.pos_lt_pos|discriminate Hlt]. }
    rewrite (round_half_even_40 m Hm). reflexivity.
Qed.

Lemma below_40_filtered p : (p <? 40) = true → F64.geb p 40 = false.
Proof. apply F64.ltb_leb_false. Qed.

(** ** Every fetched row is processed *)

Lemma processed_row (E : Env) (lat lon : float) (sat_list : list string)
    (radius_km : float) (days : Z) (out : list string) (df : DataFrame)
    (i : nat) (ir0 : nat * row) :
  EnvSpec E →
  check_fires E lat lon sat_list radius_km days = (out, Ok df) →
  rows (fetched E lat lon sat_list radius_km days) !! i = Some ir0 →
  ∃ e pct ir,
    process E lat lon (ensure_columns (fetched E lat lon sat_list radius_km days))
      = Ok (e, pct) ∧
    rows e !! i = Some ir ∧ enriched E lat lon ir0.2 ir.2 ∧
    pct !! i = Some (confidence_of E ir0.2).
Proof.
  intros HE Hrun Hi.
  pose proof (check_fires_run E lat lon sat_list radius_km days) as Hr.
  pose proof (collect_well_formed E HE lat lon sat_list radius_km days) as Hw.
  rewrite Hrun in Hr. unfold fetched in *.
  assert (Hp : ∃ e pct,
            process E lat lon
              (ensure_columns (concat (collect E lat lon sat_list radius_km days).2))
            = Ok (e, pct)).
  { inversion Hr as [out0 Hc|?|out0 dfs e pct Hc Hne Hp He
                    |?|out0 dfs e pct s Hc Hne Hp He Hs]; subst;
      rewrite Hc in *; cbn [snd] in *; [discriminate Hi|eauto..]. }
  destruct Hp as (e & pct & Hp). exists e, pct.
  set (f := concat (collect E lat lon sat_list radius_km days).2) in *.
  pose proof (well_formed_concat _ Hw) as Hwf. fold f in Hwf.
  assert (Hif : indexed f) by apply concat_indexed.
  pose proof (ensure_columns_indexed _ Hif) as Hig.
  pose proof (ensure_columns_length f) as Hlen.
  assert (Hlook : ∀ i ir, rows (ensure_columns f) !! i = Some ir →
            ∃ r0, rows f !! i = Some (i, r0) ∧ ir.1 = i ∧
                  ∀ c, cell_at c ir.2 = cell_at c r0)
    by (intros j ir; now apply ensure_columns_lookup).
  destruct (process_inv E lat lon _ e pct Hig Hp) as (Hpct & _ & Hle & _ & Hrows).
  assert (Hlt : (i < length (rows e))%nat).
  { rewrite Hle, Hlen. eapply lookup_lt_Some, Hi. }
  destruct (lookup_lt_is_Some_2 _ _ Hlt) as [ir Hir]. exists ir.
  destruct (Hrows _ _ Hir) as (r1 & Hr1 & _ & Hen).
  destruct (Hlook _ _ Hr1) as (r0 & Hr0 & _ & Hcell). simpl in Hcell.
  rewrite Hi in Hr0. injection Hr0 as ->. simpl.
  split; [exact Hp|]. split; [exact Hir|].
  split; [eapply enriched_ext; eauto|].
  rewrite Hpct, confidence_percentage_lookup, column_lookup, Hr1. simpl.
  unfold confidence_of. now rewrite Hcell.
Qed.

(** C9.  The stored confidence_percent column is a display string: the
    numeric confidence printed with no decimals, half to even, and a percent
    sign.  The filter and the risk tier use the numeric confidence itself.
    So a fetched row whose numeric confidence is in [39.5, 40) is stored
    with the text ["40%"] and is not in the report. *)
Theorem confidence_display (E : Env) (lat lon : float) (sat_list : list string)
    (radius_km : float) (days : Z) (out : list string) (df : DataFrame) :
  EnvSpec E →
  check_fires E lat lon sat_list radius_km days = (out, Ok df) →
  (∀ k ir, rows df !! k = Some ir →
     ∃ i r0,
       arrival E lat lon sat_list radius_km days !! k = Some i ∧
       rows (fetched E lat lon sat_list radius_km days) !! i = Some (i, r0) ∧
       let conf := normalize E (cell_at "confidence" r0) in
       cell_at "confidence_percent" ir.2 = CStr (format_0f conf +:+ "%") ∧
       F64.geb conf 40 = true ∧
       cell_at "fire_risk" ir.2 = CStr (classify_risk conf)) ∧
  (∀ i ir0,
     rows (fetched E lat lon sat_list radius_km days) !! i = Some ir0 →
     let conf := normalize E (cell_at "confidence" ir0.2) in
     (39.5 <=? conf) = true → (conf <? 40) = true →
     (∃ e pct ir,
        process E lat lon (ensure_columns (fetched E lat lon sat_list radius_km days))
          = Ok (e, pct) ∧
        rows e !! i = Some ir ∧
        cell_at "confidence_percent" ir.2 = CStr "40%" ∧
        pct !! i = Some conf ∧ F64.geb conf 40 = false) ∧
     i ∉ arrival E lat lon sat_list radius_km days).
Proof.
  intros HE Hrun. split.
  - intros k ir Hk.
    destruct (report_row_label E HE _ _ _ _ _ _ _ Hrun _ _ Hk) as [i Hi].
    destruct (report_row E HE _ _ _ _ _ _ _ Hrun _ _ _ Hi Hk)
      as (_ & r0 & Hr0 & [Hen Hrisk Hrel]).
    exists i, r0. split; [assumption|]. split; [assumption|].
    cbv zeta. unfold confidence_of in *.
    split; [apply Hen|]. split; assumption.
  - intros i ir0 Hi conf Hlo Hhi. split.
    + destruct (processed_row E _ _ _ _ _ _ _ _ _ HE Hrun Hi)
        as (e & pct & ir & Hp & Hir & Hen & Hpi).
      exists e, pct, ir. split; [assumption|]. split; [assumption|].
      split.
      * rewrite (en_confidence _ _ _ _ _ Hen). unfold confidence_of. fold conf.
        now rewrite (format_0f_40 conf Hlo Hhi).
      * split; [exact Hpi|]. exact (below_40_filtered conf Hhi).
    + intros Hin. apply list_elem_of_lookup in Hin as [k Hk].
      destruct (report_length E HE _ _ _ _ _ _ _ Hrun) as (Hlen & _ & _).
      assert (Hlt : (k < length (rows df))%nat)
        by (rewrite <- Hlen; eapply lookup_lt_Some, Hk).
      destruct (lookup_lt_is_Some_2 _ _ Hlt) as [ir Hir].
      destruct (report_row E HE _ _ _ _ _ _ _ Hrun _ _ _ Hk Hir)
        as (_ & r0 & Hr0 & [_ _ Hrel]).
      rewrite Hi in Hr0. injection Hr0 as ->. simpl in *.
      unfold confidence_of in Hrel. fold conf in Hrel.
      rewrite (below_40_filtered conf Hhi) in Hrel. discriminate.
Qed.

(** The fetched row 5 of the example has confidence 39.75: it is not in the
    report. *)
Lemma confidence_display_witness :
  5%nat ∉ arrival (Demo.env false) 34.05 (-118.25) SATELLITES 200 7.
Proof.
  apply (proj2 (confidence_display (Demo.env false) 34.05 (-118.25) SATELLITES 200 7
                  demo_run.1 demo_report (demo_env_spec false) demo_run_returns)
           5%nat
           (demo_labelled_row
              (fetched (Demo.env false) 34.05 (-118.25) SATELLITES 200 7) 5)).
  - apply lookup_default_lt. vm_compute. lia.
  - vm_compute. reflexivity.
  - vm_compute. reflexivity.
Defined.

(** ** The printed table reads ten columns *)

(** The cells of a row under the ten columns of the report. *)
Definition project (r : row) : list cell :=
  map (fun c => cell_at c r) report_columns.

Lemma column_project k c df :
  report_columns !! k = Some c →
  column c df
  = map (fun p => nth k p missing) (map (fun ir : nat * row => project ir.2) (rows df)).
Proof.
  intros Hk. unfold column. rewrite map_map. apply map_ext. intros [i r]. simpl.
  unfold project, report_columns in *.
  do 10 (destruct k as [|k]; [injection Hk as <-; reflexivity|]).
  discriminate.
Qed.

Lemma row_line_project E ws r :
  row_line E ws r = join " | " (zip_with (center_text E) (project r) ws).
Proof.
  unfold row_line, project. generalize report_columns. intros cols.
  f_equal. revert ws.
  induction cols as [|c cols IH]; intros [|w ws]; simpl; try reflexivity.
  now rewrite IH.
Qed.

Lemma print_table_project E lat lon radius_km days df df' :
  map (fun ir : nat * row => project ir.2) (rows df')
  = map (fun ir : nat * row => project ir.2) (rows df) →
  print_table E lat lon radius_km days df' = print_table E lat lon radius_km days df.
Proof.
  intros H. unfold print_table.
  assert (Hlen : length (rows df') = length (rows df)).
  { apply (f_equal length) in H. now rewrite !length_map in H. }
  assert (Hw : widths E df' = widths E df).
  { unfold widths. apply map_ext_in. intros c Hc.
    apply list_elem_of_In, list_elem_of_lookup in Hc as [k Hk].
    now rewrite (column_project k c df' Hk), (column_project k c df Hk), H. }
  cbv zeta. rewrite Hlen, Hw. apply (f_equal (app _)).
  transitivity (map (fun p => join " | " (zip_with (center_text E) p (widths E df)))
                    (map (fun ir : nat * row => project ir.2) (rows df'))).
  - rewrite map_map. apply map_ext. intros ir. apply row_line_project.
  - rewrite H, map_map. apply map_ext. intros ir. symmetry. apply row_line_project.
Qed.

(** The columns of a frame the loop keeps are columns of the unioned
    frame. *)
Lemma collect_columns E lat lon sat_list radius_km days sat df0 c :
  sat ∈ sat_list →
  fetch E (url sat (bbox_string E (generate_bbox (H := float_arith E) lat lon radius_km))
             days) = inr df0 →
  df_empty df0 = false → c ∈ columns df0 →
  c ∈ columns (fetched E lat lon sat_list radius_km days).
Proof.
  intros Hsat Hf He Hc. unfold fetched, concat; simpl.
  apply union_columns_acc. right.
  exists (assign_scalar "satellite" (CStr sat) df0).
  split; [|now apply columns_assign_scalar].
  induction sat_list as [|s rest IH]; [now apply elem_of_nil in Hsat|].
  cbn [collect].
  destruct (collect E lat lon rest radius_km days) as [out dfs] eqn:Hcol.
  rewrite ?Hcol in IH. cbn [snd] in IH.
  apply elem_of_cons in Hsat as [->|Hsat].
  - rewrite Hf, He. cbn [snd]. left.
  - specialize (IH Hsat).
    destruct (fetch E (url s _ days)) as [x|d]; cbn [snd]; [assumption|].
    destruct (df_empty d); cbn [snd]; [assumption|now right].
Qed.

(** C10.  The ten-column projection is for the printed table only.  On the
    path that returns rows, the returned frame has every column of every
    frame the feed contributed, the required columns and the derived ones,
    keeps the cells of the fetched rows outside the derived columns, and its
    labels are [0 .. n-1]; the table printed depends on the cells under the
    ten report columns only, while the returned frame always has a column
    (confidence) outside those ten. *)
Theorem returned_frame_unprojected (E : Env) (lat lon : float)
    (sat_list : list string) (radius_km : float) (days : Z)
    (out : list string) (df : DataFrame) :
  EnvSpec E →
  check_fires E lat lon sat_list radius_km days = (out, Ok df) →
  rows df ≠ [] →
  (∀ sat df0 c,
     sat ∈ sat_list →
     fetch E (url sat (bbox_string E (generate_bbox (H := float_arith E)
                                        lat lon radius_km)) days) = inr df0 →
     df_empty df0 = false → c ∈ columns df0 → c ∈ columns df) ∧
  (∀ c, c ∈ required_columns ∨ c ∈ derived_columns → c ∈ columns df) ∧
  (∀ k ir, rows df !! k = Some ir →
     ∃ i r0,
       arrival E lat lon sat_list radius_km days !! k = Some i ∧
       rows (fetched E lat lon sat_list radius_km days) !! i = Some (i, r0) ∧
       ∀ c, c ∉ derived_columns → cell_at c ir.2 = cell_at c r0) ∧
  map fst (rows df) = seq 0 (length (rows df)) ∧
  out = ((collect E lat lon sat_list radius_km days).1 ++
         print_table E lat lon radius_km days df)%list ∧
  (∀ df', map (fun ir : nat * row => project ir.2) (rows df')
          = map (fun ir : nat * row => project ir.2) (rows df) →
          print_table E lat lon radius_km days df'
          = print_table E lat lon radius_km days df) ∧
  "confidence" ∈ columns df ∧ "confidence" ∉ report_columns.
Proof.
  intros HE Hrun Hne.
  destruct (check_fires_table E HE _ _ _ _ _ _ _ Hrun Hne) as [Hout Hcols].
  destruct (check_fires_report E HE _ _ _ _ _ _ _ Hrun) as [_ Hidx _ _ _ _].
  split; [|split; [|split; [|split; [|split; [|split; [|split]]]]]].
  - intros sat df0 c Hsat Hf He Hc. apply Hcols. left.
    eapply collect_columns; eauto.
  - intros c Hc. apply Hcols. now right.
  - intros k ir Hk.
    destruct (report_row_label E HE _ _ _ _ _ _ _ Hrun _ _ Hk) as [i Hi].
    destruct (report_row E HE _ _ _ _ _ _ _ Hrun _ _ _ Hi Hk)
      as (_ & r0 & Hr0 & [Hen _ _]).
    exists i, r0. repeat split; try assumption. apply Hen.
  - now apply indexed_labels.
  - exact Hout.
  - intros df'. apply print_table_project.
  - apply Hcols. right. left. unfold required_columns. repeat constructor.
  - unfold report_columns. intros Hin.
    repeat (apply elem_of_cons in Hin as [Hin|Hin]; [discriminate|]).
    now apply elem_of_nil in Hin.
Qed.

(** The example report keeps the daynight column of the MODIS frame, which
    the table does not show. *)
Lemma returned_frame_unprojected_witness : "daynight" ∈ columns demo_report.
Proof.
  apply (proj1 (returned_frame_unprojected (Demo.env false) 34.05 (-118.25)
                  SATELLITES 200 7 demo_run.1 demo_report
                  (demo_env_spec false) demo_run_returns
                  ltac:(intros H; apply (f_equal length) in H;
                        vm_compute in H; discriminate))
           "MODIS_NRT" Demo.modis).
  - repeat constructor.
  - vm_compute. reflexivity.
  - reflexivity.
  - unfold Demo.modis. simpl. repeat constructor.
Defined.

(** ** When step 2 cannot raise *)

(** The cells of a row that [process] converts can be converted: the
    coordinates by [float], the acquisition time by [int]. *)
Definition convertible (E : Env) (r : row) : Prop :=
  (∃ x, astype_float E (cell_at "latitude" r) = Ok x) ∧
  (∃ y, astype_float E (cell_at "longitude" r) = Ok y) ∧
  (∃ t, format_time E (cell_at "acq_time" r) = Ok t).

Lemma process_total (E : Env) (lat lon : float) (g : DataFrame) :
  indexed g → (∀ ir, ir ∈ rows g → convertible E ir.2) →
  ∃ e pct, process E lat lon g = Ok (e, pct).
Proof.
  intros Hg Hconv.
  assert (Hlat : ∃ xs, traverse (astype_float E) (column "latitude" g) = Ok xs).
  { apply traverse_total, Forall_forall. intros v Hv.
    unfold column in Hv. apply list_elem_of_fmap in Hv as (ir & -> & Hir).
    apply (Hconv _ Hir). }
  assert (Hlon : ∃ ys, traverse (astype_float E) (column "longitude" g) = Ok ys).
  { apply traverse_total, Forall_forall. intros v Hv.
    unfold column in Hv. apply list_elem_of_fmap in Hv as (ir & -> & Hir).
    apply (Hconv _ Hir). }
  assert (Htime : ∃ ts, traverse (format_time E) (column "acq_time" g) = Ok ts).
  { apply traverse_total, Forall_forall. intros v Hv.
    unfold column in Hv. apply list_elem_of_fmap in Hv as (ir & -> & Hir).
    apply (Hconv _ Hir). }
  destruct Hlat as [xs Hxs], Hlon as [ys Hys], Htime as [ts Hts].
  destruct (process E lat lon g) as [[e pct]|x] eqn:Hp; [eauto|exfalso].
  unfold process in Hp. cbv zeta in Hp.
  rewrite ?(column_assign_ne "latitude"), ?(column_assign_ne "longitude") in Hp
    by discriminate.
  unfold haversine_np in Hp. rewrite Hxs in Hp. cbn [bind] in Hp.
  rewrite Hys in Hp. cbn [bind] in Hp.
  rewrite ?(column_assign_ne "acq_time") in Hp by discriminate.
  rewrite Hts in Hp. cbn [bind] in Hp. discriminate.
Qed.

Lemma filter_none {A} (P : A → Prop) `{∀ x, Decision (P x)} (l : list A) :
  (∀ x, x ∈ l → ¬ P x) → filter P l = [].
Proof.
  induction l as [|a l IH]; intros Hl; [reflexivity|].
  rewrite filter_cons, decide_False by (apply Hl; left).
  apply IH. intros x Hx. apply Hl. now right.
Qed.

Lemma collect_no_data E lat lon sat_list radius_km days :
  Forall (fun sat => ∀ df,
            fetch E (url sat (bbox_string E (generate_bbox (H := float_arith E)
                                               lat lon radius_km)) days) = inr df →
            df_empty df = true) sat_list →
  (collect E lat lon sat_list radius_km days).2 = [].
Proof.
  induction 1 as [|sat rest Hsat _ IH]; [reflexivity|].
  cbn [collect].
  destruct (collect E lat lon rest radius_km days) as [out dfs]. cbn [snd] in IH.
  subst dfs.
  destruct (fetch E (url sat _ days)) as [x|df] eqn:Hf; [reflexivity|].
  now rewrite (Hsat df eq_refl).
Qed.

(** With cells that convert, rows that are all below the threshold end in
    the second empty result. *)
Lemma filtered_to_empty (E : Env) (lat lon : float) (sat_list : list string)
    (radius_km : float) (days : Z) :
  EnvSpec E →
  rows (fetched E lat lon sat_list radius_km days) ≠ [] →
  (∀ ir, ir ∈ rows (fetched E lat lon sat_list radius_km days) →
         convertible E ir.2) →
  (∀ ir, ir ∈ rows (fetched E lat lon sat_list radius_km days) →
         F64.geb (normalize E (cell_at "confidence" ir.2)) 40 = false) →
  check_fires E lat lon sat_list radius_km days
  = (((collect E lat lon sat_list radius_km days).1 ++ [no_reliable_message])%list,
     Ok empty_frame).
Proof.
  intros HE Hrows Hconv Hlow.
  pose proof (collect_well_formed E HE lat lon sat_list radius_km days) as Hw.
  unfold fetched in *. unfold check_fires.
  destruct (collect E lat lon sat_list radius_km days) as [out dfs].
  cbn [fst snd] in *.
  destruct dfs as [|d dfs]; [now contradiction Hrows|].
  cbv zeta.
  set (f := concat (d :: dfs)) in *.
  pose proof (well_formed_concat _ Hw) as Hwf. fold f in Hwf.
  assert (Hif : indexed f) by apply concat_indexed.
  pose proof (ensure_columns_indexed _ Hif) as Hig.
  assert (Hlook : ∀ i ir, rows (ensure_columns f) !! i = Some ir →
            ∃ r0, rows f !! i = Some (i, r0) ∧ ir.1 = i ∧
                  ∀ c, cell_at c ir.2 = cell_at c r0)
    by (intros j ir; now apply ensure_columns_lookup).
  destruct (process_total E lat lon (ensure_columns f) Hig) as (e & pct & Hp).
  { intros ir Hir. apply list_elem_of_lookup in Hir as [i Hi].
    destruct (Hlook _ _ Hi) as (r0 & Hr0 & _ & Hcell).
    apply list_elem_of_lookup_2 in Hr0. specialize (Hconv _ Hr0).
    unfold convertible in *. simpl in Hconv. now rewrite !Hcell. }
  rewrite Hp.
  destruct (process_inv E lat lon _ e pct Hig Hp) as (Hpct & Hie & _ & _ & Hrows_e).
  assert (Hnone : rows (reliable e pct) = []).
  { unfold reliable, select; simpl. apply filter_none.
    intros [i r] Hin. simpl. apply list_elem_of_lookup in Hin as [j Hj].
    pose proof (Hie _ _ Hj) as Hij. simpl in Hij. subst j.
    destruct (Hrows_e _ _ Hj) as (r1 & Hr1 & _ & _).
    destruct (Hlook _ _ Hr1) as (r0 & Hr0 & _ & Hcell). simpl in Hcell.
    apply list_elem_of_lookup_2 in Hr0. specialize (Hlow _ Hr0). simpl in Hlow.
    rewrite Hpct, lookup_map, confidence_percentage_lookup, column_lookup, Hr1.
    simpl. rewrite Hcell, Hlow. discriminate. }
  assert (df_empty (reliable e pct) = true) as ->; [|reflexivity].
  unfold df_empty. rewrite Hnone. now destruct (columns (reliable e pct)).
Qed.

(** The cells of a detection that [check_fires] converts, typed as section 3
    of the specification types them: the latitude and the longitude are
    floating-point numbers, NaN when missing, and the acquisition time is an
    integer, held as a number that is not infinite, NaN when missing. *)
Definition typedb (r : row) : bool :=
  match cell_at "latitude" r, cell_at "longitude" r, cell_at "acq_time" r with
  | CNum _, CNum _, CNum t => negb (PrimFloat.is_infinity t)
  | _, _, _ => false
  end.

Definition typed (r : row) : Prop := typedb r = true.

Lemma is_infinity_SF (t : float) (s : bool) :
  Prim2SF t = S754_infinity s → PrimFloat.is_infinity t = true.
Proof.
  intros Ht. unfold PrimFloat.is_infinity.
  rewrite FloatAxioms.eqb_spec, abs_spec, Ht. reflexivity.
Qed.

Lemma typed_convertible (E : Env) (r : row) : typed r → convertible E r.
Proof.
  unfold typed, typedb, convertible. intros H.
  destruct (cell_at "latitude" r) as [x|]; [|discriminate].
  destruct (cell_at "longitude" r) as [y|]; [|discriminate].
  destruct (cell_at "acq_time" r) as [t|]; [|discriminate].
  apply negb_true_iff in H.
  split; [now exists x|]. split; [now exists y|].
  unfold format_time. simpl.
  destruct (F64.is_nan t) eqn:Hn; simpl; [eauto|].
  unfold int_of_float.
  destruct (Prim2SF t) as [s|s| |s m e] eqn:Ht; simpl; eauto.
  - rewrite (is_infinity_SF t s Ht) in H. discriminate H.
  - apply F64.nan_SF in Ht. congruence.
Qed.

(** C5.  [check_fires] has two empty results, told apart by the message.
    When no sensor contributes a row (each one fails or answers with an
    empty frame), it prints the no-data message and returns an empty frame,
    before any processing.  When rows were fetched, with cells typed as the
    specification types a detection, and none has a normalized confidence of
    at least 40, it prints the no-reliable-fires message and returns an
    empty frame.  The two messages differ. *)
Theorem empty_results (E : Env) (lat lon : float) (sat_list : list string)
    (radius_km : float) (days : Z) :
  (Forall (fun sat => ∀ df,
             fetch E (url sat (bbox_string E (generate_bbox (H := float_arith E)
                                                lat lon radius_km)) days) = inr df →
             df_empty df = true) sat_list →
   check_fires E lat lon sat_list radius_km days
   = (((collect E lat lon sat_list radius_km days).1 ++ [no_data_message])%list,
      Ok empty_frame)) ∧
  (EnvSpec E →
   rows (fetched E lat lon sat_list radius_km days) ≠ [] →
   (∀ ir, ir ∈ rows (fetched E lat lon sat_list radius_km days) → typed ir.2) →
   (∀ ir, ir ∈ rows (fetched E lat lon sat_list radius_km days) →
          F64.geb (normalize E (cell_at "confidence" ir.2)) 40 = false) →
   check_fires E lat lon sat_list radius_km days
   = (((collect E lat lon sat_list radius_km days).1 ++ [no_reliable_message])%list,
      Ok empty_frame)) ∧
  no_data_message ≠ no_reliable_message.
Proof.
  split; [|split].
  - intros Hnone. apply collect_no_data in Hnone.
    unfold check_fires.
    destruct (collect E lat lon sat_list radius_km days) as [out dfs].
    cbn [fst snd] in *. now subst dfs.
  - intros HE Hrows Htyped Hlow.
    apply filtered_to_empty; try assumption.
    intros ir Hir. now apply typed_convertible, Htyped.
  - discriminate.
Qed.

Lemma forallb_rows {A} (b : A → bool) (l : list A) :
  forallb b l = true → ∀ x, x ∈ l → b x = true.
Proof.
  intros H x Hx. rewrite forallb_forall in H. apply H.
  now apply list_elem_of_In.
Qed.

(** A feed whose detections are all of low confidence. *)
Definition quiet_modis : DataFrame :=
  mkDF ["latitude"; "longitude"; "frp"; "confidence"; "acq_time"; "acq_date"]
    [ (0%nat, {[ "latitude" := CNum 34.5; "longitude" := CNum (-118.9);
                 "frp" := CNum 5; "confidence" := CStr "low";
                 "acq_time" := CNum 905; "acq_date" := CStr "2024-07-01" ]});
      (1%nat, {[ "latitude" := CNum 34.2; "longitude" := CNum (-118.4);
                 "frp" := CNum 12; "confidence" := CStr "39.75";
                 "acq_time" := CNum 1345; "acq_date" := CStr "2024-07-03" ]}) ].

Definition only_modis (df : DataFrame) (u : string) : string + DataFrame :=
  match index 0 "/MODIS_NRT/" u with
  | Some _ => inr df
  | None => inl "HTTPSConnectionPool: Read timed out."
  end.

Lemma quiet_modis_well_formed : well_formed quiet_modis.
Proof.
  intros ir c Hin Hs. unfold quiet_modis in *; simpl in *.
  repeat (apply elem_of_cons in Hin as [->|Hin]);
    try (now apply elem_of_nil in Hin);
    simpl in Hs; rewrite !lookup_insert, lookup_singleton in Hs;
    repeat case_decide; subst; try (repeat constructor);
    destruct Hs; discriminate.
Qed.

Lemma only_modis_spec (df : DataFrame) :
  well_formed df → EnvSpec (Demo.env_with false (only_modis df)).
Proof.
  intros Hdf. apply demo_env_with_spec. intros u df'. unfold only_modis.
  destruct (index 0 "/MODIS_NRT/" u); [now intros [= <-]|discriminate].
Qed.

Lemma empty_results_witness :
  check_fires (Demo.env false) 34.05 (-118.25)
    ["VIIRS_NOAA20_NRT"; "VIIRS_SUOMI_NPP_NRT"] 200 7
  = (((collect (Demo.env false) 34.05 (-118.25)
         ["VIIRS_NOAA20_NRT"; "VIIRS_SUOMI_NPP_NRT"] 200 7).1
      ++ [no_data_message])%list, Ok empty_frame) ∧
  check_fires (Demo.env_with false (only_modis quiet_modis)) 34.05 (-118.25)
    SATELLITES 200 7
  = (((collect (Demo.env_with false (only_modis quiet_modis)) 34.05 (-118.25)
         SATELLITES 200 7).1
      ++ [no_reliable_message])%list, Ok empty_frame).
Proof.
  split.
  - apply (proj1 (empty_results (Demo.env false) 34.05 (-118.25)
                    ["VIIRS_NOAA20_NRT"; "VIIRS_SUOMI_NPP_NRT"] 200 7)).
    repeat constructor; intros df; vm_compute; intros H;
      first [discriminate H | injection H as <-; reflexivity].
  - apply (proj1 (proj2 (empty_results (Demo.env_with false (only_modis quiet_modis))
                           34.05 (-118.25) SATELLITES 200 7))).
    + apply only_modis_spec, quiet_modis_well_formed.
    + intros Hnil. apply (f_equal List.length) in Hnil.
      vm_compute in Hnil. discriminate Hnil.
    + apply (forallb_rows (fun ir : nat * row => typedb ir.2)).
      vm_compute. reflexivity.
    + intros ir Hir. apply negb_true_iff. revert ir Hir.
      apply (forallb_rows
               (fun ir => negb (F64.geb (normalize _ (cell_at "confidence" ir.2)) 40))).
      vm_compute. reflexivity.
Defined.


(** ** Rounding in binary64

    The operations of binary64 are specified by [SpecFloat]: the exact
    result is shifted to the exponent of its binade and rounded to the
    nearest mantissa, ties to even.  What follows derives, from that
    specification, that adding a number that is not negative never gives
    less and subtracting it never gives more, and that products and
    quotients of positive numbers are not negative. *)
Module B64.

Local Open Scope Z_scope.

Lemma pos_iter_xO (m d : positive) :
  Z.pos (Pos.iter xO m d) = Z.pos m * 2 ^ Z.pos d.
Proof.
  induction d as [|d IH] using Pos.peano_ind.
  - simpl. lia.
  - rewrite Pos.iter_succ, Pos2Z.inj_succ, Z.pow_succ_r by lia.
    replace (Z.pos (Pos.iter xO m d)~0) with (2 * Z.pos (Pos.iter xO m d)) by lia.
    rewrite IH. lia.
Qed.

Lemma digits2_pos_bounds (m : positive) :
  2 ^ (Z.pos (digits2_pos m) - 1) <= Z.pos m < 2 ^ Z.pos (digits2_pos m).
Proof.
  induction m as [m IH|m IH|]; simpl digits2_pos.
  - rewrite Pos2Z.inj_succ, Z.pow_succ_r by lia.
    replace (Z.succ (Z.pos (digits2_pos m)) - 1) with (Z.pos (digits2_pos m)) by lia.
    replace (2 ^ Z.pos (digits2_pos m))
      with (2 * 2 ^ (Z.pos (digits2_pos m) - 1)) in *
      by (rewrite <- Z.pow_succ_r by lia; f_equal; lia).
    lia.
  - rewrite Pos2Z.inj_succ, Z.pow_succ_r by lia.
    replace (Z.succ (Z.pos (digits2_pos m)) - 1) with (Z.pos (digits2_pos m)) by lia.
    replace (2 ^ Z.pos (digits2_pos m))
      with (2 * 2 ^ (Z.pos (digits2_pos m) - 1)) in *
      by (rewrite <- Z.pow_succ_r by lia; f_equal; lia).
    lia.
  - simpl. lia.
Qed.

(** The number of binary digits of a positive integer. *)
Definition digits (m : Z) : Z := Zdigits2 m.

Lemma digits_bounds (m : Z) :
  0 < m → 0 < digits m ∧ 2 ^ (digits m - 1) <= m < 2 ^ digits m.
Proof.
  destruct m as [|p|p]; try lia. intros _. split; [simpl; lia|].
  apply digits2_pos_bounds.
Qed.

Lemma digits_unique (m k : Z) :
  2 ^ (k - 1) <= m < 2 ^ k → 0 < m → digits m = k.
Proof.
  intros Hk Hm. destruct (digits_bounds m Hm) as [Hd Hb].
  assert (Hk0 : 0 < k).
  { destruct (Z.lt_ge_cases 0 k) as [?|Hneg]; [assumption|].
    rewrite (Z.pow_neg_r 2 (k - 1)) in Hk by lia.
    destruct (Z.eq_dec k 0) as [->|]; [simpl in Hk; lia|].
    rewrite (Z.pow_neg_r 2 k) in Hk by lia. lia. }
  destruct (Z.lt_trichotomy (digits m) k) as [H|[H|H]]; [|assumption|].
  - assert (2 ^ digits m <= 2 ^ (k - 1)) by (apply Z.pow_le_mono_r; lia). lia.
  - assert (2 ^ k <= 2 ^ (digits m - 1)) by (apply Z.pow_le_mono_r; lia). lia.
Qed.

Lemma digits_le (a b : Z) : 0 < a → a <= b → digits a <= digits b.
Proof.
  intros Ha Hab.
  destruct (digits_bounds a Ha) as [Hda Hba].
  destruct (digits_bounds b ltac:(lia)) as [Hdb Hbb].
  destruct (Z.le_gt_cases (digits a) (digits b)) as [?|H]; [assumption|].
  assert (2 ^ digits b <= 2 ^ (digits a - 1)) by (apply Z.pow_le_mono_r; lia). lia.
Qed.

Lemma digits_shl (m k : Z) : 0 < m → 0 <= k → digits (m * 2 ^ k) = digits m + k.
Proof.
  intros Hm Hk. destruct (digits_bounds m Hm) as [Hd Hb].
  assert (Hp : 0 < 2 ^ k) by (apply Z.pow_pos_nonneg; lia).
  apply digits_unique; [|nia].
  replace (digits m + k - 1) with (digits m - 1 + k) by lia.
  rewrite !Z.pow_add_r by lia. nia.
Qed.

Lemma digits_shr (m n : Z) :
  0 <= n → 2 ^ n <= m → digits (m / 2 ^ n) = digits m - n.
Proof.
  intros Hn Hm.
  assert (Hp : 0 < 2 ^ n) by (apply Z.pow_pos_nonneg; lia).
  destruct (digits_bounds m ltac:(lia)) as [Hd Hb].
  assert (Hdn : n < digits m).
  { destruct (Z.lt_ge_cases n (digits m)) as [?|H]; [assumption|].
    assert (2 ^ digits m <= 2 ^ n) by (apply Z.pow_le_mono_r; lia). lia. }
  assert (Hq : 0 < m / 2 ^ n) by (apply Z.div_str_pos; lia).
  apply digits_unique; [|assumption].
  split.
  - apply Z.div_le_lower_bound; [assumption|].
    rewrite <- Z.pow_add_r by lia. replace (n + (digits m - n - 1)) with (digits m - 1) by lia.
    apply Hb.
  - apply Z.div_lt_upper_bound; [assumption|].
    rewrite <- Z.pow_add_r by lia. replace (n + (digits m - n)) with (digits m) by lia.
    apply Hb.
Qed.

(** *** Shifting right *)

Lemma shr_1_m (mrs : shr_record) :
  0 <= shr_m mrs → shr_m (shr_1 mrs) = shr_m mrs / 2.
Proof.
  destruct mrs as [m r s]. cbn [shr_m]. intros Hm.
  destruct m as [|[p|p|]|p]; cbn [shr_1 shr_m]; try lia; try reflexivity.
  - apply (Z.div_unique (Z.pos p~1) 2 (Z.pos p) 1); lia.
  - apply (Z.div_unique (Z.pos p~0) 2 (Z.pos p) 0); lia.
Qed.

Lemma pow2_xO (p : positive) : 2 ^ Z.pos p~0 = 2 ^ Z.pos p * 2 ^ Z.pos p.
Proof.
  replace (Z.pos p~0) with (Z.pos p + Z.pos p) by lia.
  apply Z.pow_add_r; lia.
Qed.

Lemma pow2_xI (p : positive) : 2 ^ Z.pos p~1 = 2 * (2 ^ Z.pos p * 2 ^ Z.pos p).
Proof.
  replace (Z.pos p~1) with (Z.succ (Z.pos p + Z.pos p)) by lia.
  rewrite Z.pow_succ_r by lia. f_equal. apply Z.pow_add_r; lia.
Qed.

Lemma iter_shr_1_m (p : positive) (mrs : shr_record) :
  0 <= shr_m mrs →
  shr_m (SpecFloat.iter_pos shr_1 p mrs) = shr_m mrs / 2 ^ Z.pos p.
Proof.
  revert mrs. induction p as [p IH|p IH|]; intros mrs Hm; simpl SpecFloat.iter_pos.
  - assert (H1 : 0 <= shr_m (shr_1 mrs))
      by (rewrite shr_1_m by assumption; apply Z.div_pos; lia).
    assert (Hp : 0 < 2 ^ Z.pos p) by (apply Z.pow_pos_nonneg; lia).
    assert (H2 : 0 <= shr_m (SpecFloat.iter_pos shr_1 p (shr_1 mrs)))
      by (rewrite IH by assumption; apply Z.div_pos; lia).
    rewrite IH, IH, shr_1_m by assumption.
    rewrite !Z.div_div by lia. f_equal. rewrite pow2_xI. lia.
  - assert (Hp : 0 < 2 ^ Z.pos p) by (apply Z.pow_pos_nonneg; lia).
    assert (H2 : 0 <= shr_m (SpecFloat.iter_pos shr_1 p mrs))
      by (rewrite IH by assumption; apply Z.div_pos; lia).
    rewrite IH, IH by assumption.
    rewrite !Z.div_div by lia. f_equal. rewrite pow2_xO. lia.
  - rewrite shr_1_m by assumption. reflexivity.
Qed.

Definition fexp (e : Z) : Z := Z.max (e - 53) (-1074).

Lemma fexp_eq (e : Z) : SpecFloat.fexp prec emax e = fexp e.
Proof. reflexivity. Qed.

(** [shr_fexp] divides the mantissa by a power of two when the exponent of
    its binade lies above [e], and leaves it otherwise. *)
Lemma shr_fexp_m (m e : Z) (l : location) :
  0 <= m →
  let n := fexp (digits m + e) - e in
  shr_m (fst (shr_fexp prec emax m e l)) = (if 0 <? n then m / 2 ^ n else m) ∧
  snd (shr_fexp prec emax m e l) = (if 0 <? n then e + n else e).
Proof.
  intros Hm n. unfold shr_fexp. rewrite fexp_eq. fold (digits m). fold n.
  assert (Hr : shr_m (shr_record_of_loc m l) = m)
    by (destruct l as [|[]]; reflexivity).
  unfold shr. destruct n as [|p|p] eqn:Hn; simpl.
  - auto.
  - rewrite iter_shr_1_m by (rewrite Hr; assumption). rewrite Hr. auto.
  - auto.
Qed.

Lemma shr_fexp_noshift (m e : Z) (l : location) :
  fexp (digits m + e) <= e →
  shr_fexp prec emax m e l = (shr_record_of_loc m l, e).
Proof.
  intros H. unfold shr_fexp. rewrite fexp_eq. fold (digits m).
  unfold shr. destruct (fexp (digits m + e) - e) eqn:Hn; try reflexivity. exfalso; lia.
Qed.

Lemma shr_fexp_shift (m e : Z) (l : location) :
  0 <= m → e < fexp (digits m + e) →
  ∃ mrs, shr_fexp prec emax m e l = (mrs, fexp (digits m + e)) ∧
         shr_m mrs = m / 2 ^ (fexp (digits m + e) - e).
Proof.
  intros Hm H. destruct (shr_fexp_m m e l Hm) as [H1 H2].
  destruct (shr_fexp prec emax m e l) as [mrs e1]. simpl in H1, H2.
  destruct (Z.ltb_spec 0 (fexp (digits m + e) - e)) as [_|?]; [|lia].
  exists mrs. split; [|assumption]. f_equal. lia.
Qed.

Lemma round_nearest_even_bounds (m : Z) (l : location) :
  m <= round_nearest_even m l <= m + 1.
Proof.
  unfold round_nearest_even. destruct l as [|[]]; try lia.
  destruct (Z.even m); lia.
Qed.

(** A rounded result is zero, a number or an infinity of the sign asked,
    never NaN. *)
Inductive signed (s : bool) : spec_float → Prop :=
  | signed_zero : signed s (S754_zero s)
  | signed_finite m e : signed s (S754_finite s m e)
  | signed_infinity : signed s (S754_infinity s).

Lemma shr_fexp_nonneg (m e : Z) (l : location) :
  0 <= m → 0 <= shr_m (fst (shr_fexp prec emax m e l)).
Proof.
  intros Hm. destruct (shr_fexp_m m e l Hm) as [-> _].
  destruct (Z.ltb_spec 0 (fexp (digits m + e) - e)); [|assumption].
  apply Z.div_pos; [assumption|]. apply Z.pow_pos_nonneg; lia.
Qed.

Lemma binary_round_aux_signed (s : bool) (m e : Z) (l : location) :
  0 <= m → signed s (binary_round_aux prec emax s m e l).
Proof.
  intros Hm. unfold binary_round_aux.
  pose proof (shr_fexp_nonneg m e l Hm) as H1.
  destruct (shr_fexp prec emax m e l) as [mrs' e']. simpl in H1.
  pose proof (round_nearest_even_bounds (shr_m mrs') (loc_of_shr_record mrs')) as Hr.
  pose proof (shr_fexp_nonneg (round_nearest_even (shr_m mrs') (loc_of_shr_record mrs'))
                e' loc_Exact ltac:(lia)) as H2.
  destruct (shr_fexp prec emax _ e' loc_Exact) as [mrs'' e'']. simpl in H2.
  destruct (shr_m mrs'') as [|p|p]; [constructor| |lia].
  destruct (e'' <=? emax - prec); constructor.
Qed.

(** *** Rounding an exact positive value

    [binary_round s A e] rounds [A * 2^e]; [rounded A e m' e'] holds of
    the mantissa and exponent it can give. *)
Definition rounded (A e : Z) (m' : positive) (e' : Z) : Prop :=
  let t := fexp (digits A + e) in
  (t <= e ∧ e' = t ∧ Z.pos m' = A * 2 ^ (e - t)) ∨
  (e < t ∧ e' = t ∧
   A / 2 ^ (t - e) <= Z.pos m' <= A / 2 ^ (t - e) + 1 ∧ Z.pos m' < 2 ^ 53) ∨
  (e < t ∧ e' = t + 1 ∧ Z.pos m' = 2 ^ 52 ∧ A / 2 ^ (t - e) + 1 = 2 ^ 53).

Lemma digits_pow2 (k : Z) : 0 <= k → digits (2 ^ k) = k + 1.
Proof.
  intros Hk. apply digits_unique; [|apply Z.pow_pos_nonneg; lia].
  replace (k + 1 - 1) with k by lia. split; [lia|].
  apply Z.pow_lt_mono_r; lia.
Qed.

Lemma binary_round_aux_exact (s : bool) (A : positive) (e : Z) :
  fexp (digits (Z.pos A) + e) = e → 
  binary_round_aux prec emax s (Z.pos A) e loc_Exact
  = if e <=? 971 then S754_finite s A e else S754_infinity s.
Proof.
  intros H. unfold binary_round_aux.
  rewrite shr_fexp_noshift by lia. cbn [shr_record_of_loc shr_m loc_of_shr_record
                                        round_nearest_even].
  rewrite shr_fexp_noshift by lia. cbn [shr_record_of_loc shr_m]. reflexivity.
Qed.

Lemma binary_round_rounded (s : bool) (A : positive) (e : Z) :
  -1074 <= e →
  ∃ m' e', binary_round prec emax s A e
           = (if e' <=? 971 then S754_finite s m' e' else S754_infinity s) ∧
           rounded (Z.pos A) e m' e'.
Proof.
  intros He. unfold binary_round. rewrite fexp_eq.
  change (Z.pos (digits2_pos A)) with (digits (Z.pos A)).
  set (t := fexp (digits (Z.pos A) + e)).
  destruct (digits_bounds (Z.pos A) ltac:(lia)) as [Hd Hb].
  unfold shl_align.
  destruct (Z.compare_spec t e) as [Hte|Hte|Hte].
  - (* already at its exponent *)
    replace (t - e) with 0 by lia. cbv iota.
    rewrite binary_round_aux_exact by (fold t; lia).
    exists A, e. split; [reflexivity|]. left. fold t.
    replace (e - t) with 0 by lia. rewrite Z.mul_1_r. repeat split; lia.
  - (* shifted left, exactly *)
    destruct (t - e) as [|d|d] eqn:Hd'; try lia.
    assert (Hz : Z.pos (Pos.iter xO A d) = Z.pos A * 2 ^ (e - t)).
    { rewrite pos_iter_xO. f_equal. f_equal. lia. }
    rewrite binary_round_aux_exact.
    + exists (Pos.iter xO A d), t. split; [reflexivity|]. left. fold t.
      repeat split; [lia|exact Hz].
    + rewrite Hz, digits_shl by lia.
      replace (digits (Z.pos A) + (e - t) + t) with (digits (Z.pos A) + e) by lia.
      reflexivity.
  - (* rounded *)
    destruct (t - e) as [|d|d] eqn:Hd'; try lia. clear d Hd'.
    assert (Ht : t = digits (Z.pos A) + e - 53) by (unfold t, fexp in *; lia).
    set (n := t - e) in *.
    assert (Hn : 0 < n) by lia.
    assert (Hpn : 0 < 2 ^ n) by (apply Z.pow_pos_nonneg; lia).
    assert (HA : 2 ^ n <= Z.pos A).
    { etransitivity; [|apply Hb]. apply Z.pow_le_mono_r; lia. }
    set (q := Z.pos A / 2 ^ n).
    assert (Hdq : digits q = 53) by (unfold q; rewrite digits_shr by lia; lia).
    assert (Hq0 : 0 < q) by (apply Z.div_str_pos; lia).
    destruct (digits_bounds q Hq0) as [_ Hqb]. rewrite Hdq in Hqb.
    change (2 ^ (53 - 1)) with 4503599627370496 in Hqb.
    change (2 ^ 53) with 9007199254740992 in Hqb.
    unfold binary_round_aux.
    destruct (shr_fexp_shift (Z.pos A) e loc_Exact ltac:(lia)) as (mrs & -> & Hm);
      [fold t; lia|]. fold t in Hm. fold n in Hm. fold q in Hm. fold t.
    pose proof (round_nearest_even_bounds (shr_m mrs) (loc_of_shr_record mrs)) as Hr.
    set (m1 := round_nearest_even (shr_m mrs) (loc_of_shr_record mrs)) in *.
    rewrite Hm in Hr.
    destruct (Z.eq_dec m1 9007199254740992) as [Hc|Hc].
    + (* the mantissa overflows into the next binade *)
      assert (Hd1 : digits m1 = 54).
      { rewrite Hc. change 9007199254740992 with (2 ^ 53). now rewrite digits_pow2. }
      destruct (shr_fexp_shift m1 t loc_Exact ltac:(lia)) as (mrs2 & -> & Hm2).
      { rewrite Hd1. unfold fexp. lia. }
      rewrite Hd1 in *. replace (fexp (54 + t)) with (t + 1) in * by (unfold fexp; lia).
      replace (t + 1 - t) with 1 in Hm2 by lia. rewrite Hc in Hm2.
      change (9007199254740992 / 2 ^ 1) with 4503599627370496 in Hm2.
      rewrite Hm2.
      exists 4503599627370496%positive, (t + 1). split; [reflexivity|].
      right. right. fold t. fold n. fold q.
      change (2 ^ 52) with 4503599627370496. change (2 ^ 53) with 9007199254740992.
      repeat split; lia.
    + assert (Hd1 : digits m1 = 53).
      { apply digits_unique; [|lia]. change (2 ^ (53 - 1)) with 4503599627370496.
        change (2 ^ 53) with 9007199254740992. lia. }
      rewrite shr_fexp_noshift by (rewrite Hd1; unfold fexp; lia).
      cbn [shr_record_of_loc shr_m].
      destruct m1 as [|p|p] eqn:Hm1; try lia.
      exists p, t. split; [reflexivity|].
      right. left. fold t. fold n. fold q.
      change (2 ^ 53) with 9007199254740992. repeat split; lia.
Qed.

(** *** Rounded values against a number of the format *)

(** The mantissa and exponent of a binary64 number: the exponent is that
    of the binade of the number. *)
Definition canonical (m : positive) (e : Z) : Prop :=
  fexp (digits (Z.pos m) + e) = e ∧ e <= 971.

Lemma valid_canonical (x : float) (s : bool) (m : positive) (e : Z) :
  Prim2SF x = S754_finite s m e → canonical m e.
Proof.
  intros Hx. pose proof (Prim2SF_valid x) as Hv. rewrite Hx in Hv.
  unfold valid_binary, bounded, canonical_mantissa in Hv.
  apply andb_prop in Hv as [Hc He].
  apply Z.eqb_eq in Hc. apply Z.leb_le in He. rewrite fexp_eq in Hc.
  split; [exact Hc|]. exact He.
Qed.

Lemma canonical_bounds (m : positive) (e : Z) :
  canonical m e →
  -1074 <= e ∧ Z.pos m < 2 ^ 53 ∧ (-1074 < e → 2 ^ 52 <= Z.pos m).
Proof.
  intros [Hc _]. destruct (digits_bounds (Z.pos m) ltac:(lia)) as [Hd Hb].
  unfold fexp in Hc.
  assert (Hd53 : digits (Z.pos m) <= 53) by lia.
  split; [lia|]. split.
  - eapply Z.lt_le_trans; [apply Hb|]. apply Z.pow_le_mono_r; lia.
  - intros He. assert (digits (Z.pos m) = 53) as Heq by lia.
    rewrite Heq in Hb. apply Hb.
Qed.

(** A value below a number of the format is not rounded above it. *)
Lemma rounded_below (mx : positive) (ex A e : Z) (m' : positive) (e' : Z) :
  canonical mx ex → -1074 <= e <= ex → 0 < A < Z.pos mx * 2 ^ (ex - e) →
  rounded A e m' e' →
  e' <= 971 ∧ (e' < ex ∨ (e' = ex ∧ Z.pos m' <= Z.pos mx)).
Proof.
  intros Hcan He HA Hr.
  destruct (canonical_bounds mx ex Hcan) as (Hex & Hmx & Hnorm).
  destruct Hcan as [Hc H971].
  assert (Hle : fexp (digits A + e) <= ex).
  { rewrite <- Hc.
    assert (digits A <= digits (Z.pos mx * 2 ^ (ex - e))) by (apply digits_le; lia).
    rewrite digits_shl in H by lia. unfold fexp. lia. }
  unfold rounded in Hr. set (t := fexp (digits A + e)) in *.
  destruct Hr as [(Ht & -> & Hm)|[(Ht & -> & Hm & _)|(Ht & -> & Hm & Hcarry)]].
  - split; [lia|]. destruct (Z.eq_dec t ex) as [Heq|]; [right|left; lia].
    split; [assumption|]. assert (e = ex) as -> by lia.
    rewrite Hm. replace (ex - t) with 0 by lia.
    replace (ex - ex) with 0 in HA by lia. lia.
  - split; [lia|]. destruct (Z.eq_dec t ex) as [Heq|]; [right|left; lia].
    split; [assumption|]. rewrite <- Heq in HA.
    assert (A / 2 ^ (t - e) < Z.pos mx).
    { apply Z.div_lt_upper_bound; [apply Z.pow_pos_nonneg; lia|lia]. }
    lia.
  - destruct (Z.eq_dec t ex) as [Heq|].
    + exfalso. rewrite <- Heq in HA.
      assert (A / 2 ^ (t - e) < Z.pos mx).
      { apply Z.div_lt_upper_bound; [apply Z.pow_pos_nonneg; lia|lia]. }
      lia.
    + split; [lia|]. destruct (Z.eq_dec (t + 1) ex) as [Heq|]; [right|left; lia].
      split; [assumption|]. rewrite Hm. apply Hnorm. unfold t, fexp in *. lia.
Qed.

(** A value above a number of the format is not rounded below it. *)
Lemma rounded_above (mx : positive) (ex A e : Z) (m' : positive) (e' : Z) :
  canonical mx ex → -1074 <= e <= ex → Z.pos mx * 2 ^ (ex - e) < A →
  rounded A e m' e' →
  ex < e' ∨ (e' = ex ∧ Z.pos mx <= Z.pos m').
Proof.
  intros Hcan He HA Hr.
  destruct (canonical_bounds mx ex Hcan) as (Hex & Hmx & Hnorm).
  destruct Hcan as [Hc H971].
  assert (Hp : 0 < 2 ^ (ex - e)) by (apply Z.pow_pos_nonneg; lia).
  assert (Hle : ex <= fexp (digits A + e)).
  { rewrite <- Hc at 1.
    assert (digits (Z.pos mx * 2 ^ (ex - e)) <= digits A) by (apply digits_le; nia).
    rewrite digits_shl in H by lia. unfold fexp. lia. }
  unfold rounded in Hr. set (t := fexp (digits A + e)) in *.
  destruct Hr as [(Ht & -> & Hm)|[(Ht & -> & Hm & _)|(Ht & -> & Hm & Hcarry)]].
  - destruct (Z.eq_dec t ex) as [Heq|]; [right|left; lia].
    split; [assumption|]. assert (e = ex) as -> by lia.
    rewrite Hm. replace (ex - t) with 0 by lia.
    replace (ex - ex) with 0 in HA by lia. lia.
  - destruct (Z.eq_dec t ex) as [Heq|]; [right|left; lia].
    split; [assumption|]. rewrite <- Heq in HA.
    assert (Z.pos mx <= A / 2 ^ (t - e)).
    { apply Z.div_le_lower_bound; [apply Z.pow_pos_nonneg; lia|lia]. }
    lia.
  - left. lia.
Qed.

(** *** Comparisons *)

Lemma SFleb_pos (m1 m2 : positive) (e1 e2 : Z) :
  e1 < e2 ∨ (e1 = e2 ∧ Z.pos m1 <= Z.pos m2) →
  SFleb (S754_finite false m1 e1) (S754_finite false m2 e2) = true.
Proof.
  intros H. unfold SFleb, SFcompare.
  destruct (Z.compare_spec e1 e2) as [He|He|He]; try reflexivity; try lia.
  change (Pos.compare_cont Eq m1 m2) with (Pos.compare m1 m2).
  destruct (Pos.compare_spec m1 m2); try reflexivity. lia.
Qed.

Lemma SFleb_neg (m1 m2 : positive) (e1 e2 : Z) :
  e2 < e1 ∨ (e1 = e2 ∧ Z.pos m2 <= Z.pos m1) →
  SFleb (S754_finite true m1 e1) (S754_finite true m2 e2) = true.
Proof.
  intros H. unfold SFleb, SFcompare.
  destruct (Z.compare_spec e1 e2) as [He|He|He]; try reflexivity; try lia.
  change (Pos.compare_cont Eq m1 m2) with (Pos.compare m1 m2).
  destruct (Pos.compare_spec m1 m2); try reflexivity. lia.
Qed.

Lemma SFleb_refl (x : spec_float) : x ≠ S754_nan → SFleb x x = true.
Proof.
  destruct x as [s|s| |s m e]; try (destruct s; reflexivity); [congruence|].
  intros _. destruct s; [apply SFleb_neg|apply SFleb_pos]; right; split; lia.
Qed.

Lemma shl_align_fst (m : positive) (e ez : Z) :
  ez <= e → Z.pos (fst (shl_align m e ez)) = Z.pos m * 2 ^ (e - ez).
Proof.
  intros H. unfold shl_align.
  destruct (ez - e) as [|d|d] eqn:Hd; try lia.
  - simpl. replace (e - ez) with 0 by lia. lia.
  - simpl. rewrite pos_iter_xO. f_equal. f_equal. lia.
Qed.

(** A number that is finite: zero or a mantissa and an exponent. *)
Definition SFfinite (x : spec_float) : Prop :=
  match x with
  | S754_zero _ | S754_finite _ _ _ => True
  | _ => False
  end.

(** A number that is not negative, infinity included. *)
Definition SFnonneg (d : spec_float) : Prop :=
  match d with
  | S754_zero _ | S754_finite false _ _ | S754_infinity false => True
  | _ => False
  end.

Definition SFvalid (x : spec_float) : Prop :=
  match x with
  | S754_finite _ m e => canonical m e
  | _ => True
  end.

Lemma binary_round_neg_le (p : positive) (e : Z) (x : spec_float) :
  -1074 <= e → SFnonneg x → SFleb (binary_round prec emax true p e) x = true.
Proof.
  intros He Hx. destruct (binary_round_rounded true p e He) as (m' & e' & -> & _).
  destruct (e' <=? 971); destruct x as [s|[]| |[] m e0]; try reflexivity;
    try contradiction.
Qed.

Lemma binary_round_pos_ge (p : positive) (e : Z) (m : positive) (e0 : Z) :
  -1074 <= e → SFleb (S754_finite true m e0) (binary_round prec emax false p e) = true.
Proof.
  intros He. destruct (binary_round_rounded false p e He) as (m' & e' & -> & _).
  destruct (e' <=? 971); reflexivity.
Qed.

(** Subtracting a number that is not negative does not give more. *)
Lemma SFsub_le (x d : spec_float) :
  SFvalid x → SFvalid d → SFfinite x → SFnonneg d →
  SFleb (SF64sub x d) x = true.
Proof.
  intros Hvx Hvd Hx Hd. unfold SF64sub, SFsub.
  destruct x as [sx|sx| |sx mx ex]; try contradiction;
    destruct d as [sd|[]| |[] md ed]; try contradiction.
  - destruct sx, sd; reflexivity.
  - destruct sx; reflexivity.
  - reflexivity.
  - apply SFleb_refl. discriminate.
  - destruct sx; reflexivity.
  - simpl in Hvx, Hvd.
    destruct (canonical_bounds mx ex Hvx) as (Hex & _).
    destruct (canonical_bounds md ed Hvd) as (Hed & _).
    set (ez := Z.min ex ed).
    rewrite !shl_align_fst by (unfold ez; lia).
    assert (Hbd : 0 < Z.pos md * 2 ^ (ed - ez))
      by (apply Z.mul_pos_pos; [lia|apply Z.pow_pos_nonneg; unfold ez; lia]).
    assert (Hbx : 0 < Z.pos mx * 2 ^ (ex - ez))
      by (apply Z.mul_pos_pos; [lia|apply Z.pow_pos_nonneg; unfold ez; lia]).
    set (Bx := Z.pos mx * 2 ^ (ex - ez)) in *.
    set (Bd := Z.pos md * 2 ^ (ed - ez)) in *.
    assert (Hez : -1074 <= ez <= ex) by (unfold ez; lia).
    destruct sx; cbn [cond_Zopp].
    + (* x negative *)
      destruct (- Bx - Bd) as [|p|p] eqn:HM; try lia.
      cbn [binary_normalize].
      destruct (binary_round_rounded true p ez ltac:(lia)) as (m' & e' & -> & Hr).
      destruct (e' <=? 971); [|reflexivity].
      apply SFleb_neg. apply (rounded_above mx ex (Z.pos p) ez); try assumption.
      fold Bx. lia.
    + (* x positive *)
      destruct (Bx - Bd) as [|p|p] eqn:HM; cbn [binary_normalize].
      * reflexivity.
      * destruct (binary_round_rounded false p ez ltac:(lia)) as (m' & e' & -> & Hr).
        destruct (rounded_below mx ex (Z.pos p) ez m' e') as [H971 Hkey];
          try assumption; [fold Bx; lia|].
        destruct (Z.leb_spec e' 971); [|lia].
        now apply SFleb_pos.
      * now apply binary_round_neg_le.
Qed.

(** Adding a number that is not negative does not give less. *)
Lemma SFadd_ge (x d : spec_float) :
  SFvalid x → SFvalid d → SFfinite x → SFnonneg d →
  SFleb x (SF64add x d) = true.
Proof.
  intros Hvx Hvd Hx Hd. unfold SF64add, SFadd.
  destruct x as [sx|sx| |sx mx ex]; try contradiction;
    destruct d as [sd|[]| |[] md ed]; try contradiction.
  - destruct sx, sd; reflexivity.
  - destruct sx; reflexivity.
  - reflexivity.
  - apply SFleb_refl. discriminate.
  - destruct sx; reflexivity.
  - simpl in Hvx, Hvd.
    destruct (canonical_bounds mx ex Hvx) as (Hex & _).
    destruct (canonical_bounds md ed Hvd) as (Hed & _).
    set (ez := Z.min ex ed).
    rewrite !shl_align_fst by (unfold ez; lia).
    assert (Hbd : 0 < Z.pos md * 2 ^ (ed - ez))
      by (apply Z.mul_pos_pos; [lia|apply Z.pow_pos_nonneg; unfold ez; lia]).
    assert (Hbx : 0 < Z.pos mx * 2 ^ (ex - ez))
      by (apply Z.mul_pos_pos; [lia|apply Z.pow_pos_nonneg; unfold ez; lia]).
    set (Bx := Z.pos mx * 2 ^ (ex - ez)) in *.
    set (Bd := Z.pos md * 2 ^ (ed - ez)) in *.
    assert (Hez : -1074 <= ez <= ex) by (unfold ez; lia).
    destruct sx; cbn [cond_Zopp].
    + (* x negative *)
      destruct (- Bx + Bd) as [|p|p] eqn:HM; cbn [binary_normalize].
      * reflexivity.
      * now apply binary_round_pos_ge.
      * destruct (binary_round_rounded true p ez ltac:(lia)) as (m' & e' & -> & Hr).
        destruct (rounded_below mx ex (Z.pos p) ez m' e') as [H971 Hkey];
          try assumption; [fold Bx; lia|].
        destruct (Z.leb_spec e' 971); [|lia].
        apply SFleb_neg. destruct Hkey as [?|[? ?]]; [left|right]; auto.
    + (* x positive *)
      destruct (Bx + Bd) as [|p|p] eqn:HM; try lia.
      cbn [binary_normalize].
      destruct (binary_round_rounded false p ez ltac:(lia)) as (m' & e' & -> & Hr).
      destruct (e' <=? 971); [|reflexivity].
      apply SFleb_pos.
      destruct (rounded_above mx ex (Z.pos p) ez m' e') as [?|[? ?]];
        try assumption; [fold Bx; lia|left; assumption|right; auto].
Qed.

(** *** Products and quotients of positive numbers *)

(** A number that is positive, infinity included. *)
Definition SFpos (p : spec_float) : Prop :=
  match p with
  | S754_finite false _ _ | S754_infinity false => True
  | _ => False
  end.

Lemma signed_nonneg (x : spec_float) : signed false x → SFnonneg x.
Proof. now destruct 1. Qed.

Lemma SFdiv_nonneg (mr : positive) (er : Z) (p : spec_float) :
  SFpos p → SFnonneg (SF64div (S754_finite false mr er) p).
Proof.
  intros Hp. unfold SF64div, SFdiv.
  destruct p as [s|[]| |[] mp ep]; try contradiction; [exact I|].
  unfold SFdiv_core_binary.
  set (s := _ - _ - Z.min _ _).
  set (m' := match s with Z.pos _ => Z.shiftl (Z.pos mr) s | 0 => Z.pos mr | _ => 0 end).
  assert (Hm' : 0 <= m').
  { unfold m'. destruct s; try lia. apply Z.shiftl_nonneg. lia. }
  pose proof (Z_div_mod m' (Z.pos mp) ltac:(lia)) as Hdiv.
  destruct (Z.div_eucl m' (Z.pos mp)) as [q r].
  apply signed_nonneg, binary_round_aux_signed. cbn [xorb].
  destruct Hdiv as [Hq Hr]. nia.
Qed.

(** Rounding a positive mantissa that the shift to its binade does not
    exhaust gives a positive number. *)
Lemma binary_round_aux_pos (s : bool) (m e : Z) :
  0 < m →
  (e < fexp (digits m + e) → 2 ^ (fexp (digits m + e) - e) <= m) →
  ∃ m' e', binary_round_aux prec emax s m e loc_Exact
           = if e' <=? 971 then S754_finite s m' e' else S754_infinity s.
Proof.
  intros Hm Hbig. unfold binary_round_aux.
  assert (Hstep : ∃ mrs t, shr_fexp prec emax m e loc_Exact = (mrs, t) ∧
                           0 < shr_m mrs ∧ -1074 <= t).
  { destruct (Z.le_gt_cases (fexp (digits m + e)) e) as [Hle|Hgt].
    - rewrite shr_fexp_noshift by assumption. eexists _, _. split; [reflexivity|].
      cbn [shr_record_of_loc shr_m]. unfold fexp in Hle. lia.
    - destruct (shr_fexp_shift m e loc_Exact ltac:(lia) Hgt) as (mrs & -> & Hq).
      eexists _, _. split; [reflexivity|]. rewrite Hq. split; [|unfold fexp; lia].
      apply Z.div_str_pos. split; [apply Z.pow_pos_nonneg; lia|auto]. }
  destruct Hstep as (mrs & t & -> & Hq & Ht).
  pose proof (round_nearest_even_bounds (shr_m mrs) (loc_of_shr_record mrs)) as Hr.
  set (m1 := round_nearest_even (shr_m mrs) (loc_of_shr_record mrs)) in *.
  assert (Hm1 : 0 < m1) by lia.
  destruct (digits_bounds m1 Hm1) as [Hd1 Hb1].
  destruct (Z.le_gt_cases (fexp (digits m1 + t)) t) as [Hle|Hgt].
  - rewrite shr_fexp_noshift by assumption. cbn [shr_record_of_loc shr_m].
    destruct m1 as [|p|p]; try lia. exists p, t. reflexivity.
  - destruct (shr_fexp_shift m1 t loc_Exact ltac:(lia) Hgt) as (mrs2 & -> & Hq2).
    assert (Hn2 : fexp (digits m1 + t) - t = digits m1 - 53) by (unfold fexp in *; lia).
    assert (0 < shr_m mrs2).
    { rewrite Hq2, Hn2. apply Z.div_str_pos.
      split; [apply Z.pow_pos_nonneg; unfold fexp in *; lia|].
      etransitivity; [|apply Hb1]. apply Z.pow_le_mono_r; unfold fexp in *; lia. }
    destruct (shr_m mrs2) as [|p|p]; try lia.
    exists p, (fexp (digits m1 + t)). reflexivity.
Qed.

Lemma SFmul_111_pos (c : spec_float) :
  SFvalid c → SFpos c → SFpos (SF64mul (Prim2SF 111) c).
Proof.
  intros Hv Hc.
  change (Prim2SF 111) with (S754_finite false 7810930603720704 (-46)).
  unfold SF64mul, SFmul.
  destruct c as [s|[]| |[] mc ec]; try contradiction; [exact I|].
  simpl in Hv. destruct (canonical_bounds mc ec Hv) as (Hec & _).
  cbn [xorb].
  destruct (binary_round_aux_pos false (Z.pos (7810930603720704 * mc)) (-46 + ec))
    as (m' & e' & Hround).
  - lia.
  - intros Hgt.
    destruct (digits_bounds (Z.pos (7810930603720704 * mc)) ltac:(lia)) as [Hd Hb].
    set (d := digits (Z.pos (7810930603720704 * mc))) in *.
    unfold fexp in *.
    destruct (Z.max_spec (d + (-46 + ec) - 53) (-1074)) as [[_ ->]|[_ ->]].
    + etransitivity; [apply (Z.pow_le_mono_r 2 _ 46); lia|].
      change (2 ^ 46) with 70368744177664. lia.
    + etransitivity; [|apply Hb]. apply Z.pow_le_mono_r; lia.
  - match goal with |- SFpos ?r =>
      replace r with (if e' <=? 971 then S754_finite false m' e'
                      else S754_infinity false) by (rewrite <- Hround; reflexivity)
    end.
    destruct (e' <=? 971); exact I.
Qed.

(** *** On primitive floats *)

Local Open Scope float_scope.

Lemma valid_SF (x : float) : SFvalid (Prim2SF x).
Proof.
  destruct (Prim2SF x) as [s|s| |s m e] eqn:Hx; try exact I.
  exact (valid_canonical x s m e Hx).
Qed.

Lemma finite_SF (x : float) :
  (PrimFloat.abs x <? infinity) = true → SFfinite (Prim2SF x).
Proof.
  rewrite FloatAxioms.ltb_spec, abs_spec.
  destruct (Prim2SF x) as [s|s| |s m e]; try (intros _; exact I); discriminate.
Qed.

Lemma between_finite (a b x : float) :
  SFfinite (Prim2SF a) → SFfinite (Prim2SF b) →
  (a <=? x) = true → (x <=? b) = true → SFfinite (Prim2SF x).
Proof.
  rewrite !FloatAxioms.leb_spec. intros Ha Hb H1 H2.
  destruct (Prim2SF x) as [s|[]| |s m e]; try exact I.
  - destruct (Prim2SF a) as [?|?| |[] ? ?]; try contradiction; discriminate H1.
  - destruct (Prim2SF b) as [?|?| |[] ? ?]; try contradiction; discriminate H2.
  - destruct (Prim2SF a) as [?|?| |[] ? ?]; discriminate H1.
Qed.

Lemma nonneg_SF (d : float) : (0 <=? d) = true → SFnonneg (Prim2SF d).
Proof.
  rewrite FloatAxioms.leb_spec. change (Prim2SF 0) with (S754_zero false).
  destruct (Prim2SF d) as [s|[]| |[] m e]; try (intros _; exact I); discriminate.
Qed.

Lemma SFnonneg_leb (d : float) : SFnonneg (Prim2SF d) → (0 <=? d) = true.
Proof.
  rewrite FloatAxioms.leb_spec. change (Prim2SF 0) with (S754_zero false).
  destruct (Prim2SF d) as [s|[]| |[] m e]; try contradiction; reflexivity.
Qed.

Lemma pos_SF (p : float) : (0 <? p) = true → SFpos (Prim2SF p).
Proof.
  rewrite FloatAxioms.ltb_spec. change (Prim2SF 0) with (S754_zero false).
  destruct (Prim2SF p) as [s|[]| |[] m e]; try (intros _; exact I); discriminate.
Qed.

Lemma SFpos_ltb (p : float) : SFpos (Prim2SF p) → (0 <? p) = true.
Proof.
  rewrite FloatAxioms.ltb_spec. change (Prim2SF 0) with (S754_zero false).
  destruct (Prim2SF p) as [s|[]| |[] m e]; try contradiction; reflexivity.
Qed.

(** Subtracting a number that is not negative from a finite number does
    not give more, and adding it does not give less. *)
Lemma sub_le (x d : float) :
  SFfinite (Prim2SF x) → (0 <=? d) = true → (x - d <=? x) = true.
Proof.
  intros Hx Hd. rewrite FloatAxioms.leb_spec, sub_spec.
  apply SFsub_le; auto using valid_SF, nonneg_SF.
Qed.

Lemma add_ge (x d : float) :
  SFfinite (Prim2SF x) → (0 <=? d) = true → (x <=? x + d) = true.
Proof.
  intros Hx Hd. rewrite FloatAxioms.leb_spec, add_spec.
  apply SFadd_ge; auto using valid_SF, nonneg_SF.
Qed.

(** The quotient of a positive finite number by a positive number is not
    negative. *)
Lemma div_nonneg (r p : float) :
  (0 <? r) = true → (r <? infinity) = true → (0 <? p) = true →
  (0 <=? r / p) = true.
Proof.
  intros Hr Hfin Hp. apply SFnonneg_leb. rewrite div_spec.
  apply pos_SF in Hr, Hp. rewrite FloatAxioms.ltb_spec in Hfin.
  destruct (Prim2SF r) as [s|[]| |[] mr er]; try contradiction; try discriminate.
  now apply SFdiv_nonneg.
Qed.

(** The product of 111 and a positive number is positive. *)
Lemma mul_111_pos (c : float) : (0 <? c) = true → (0 <? 111 * c) = true.
Proof.
  intros Hc. apply SFpos_ltb. rewrite mul_spec.
  apply SFmul_111_pos; [apply valid_SF|now apply pos_SF].
Qed.

(** Of two ordered numbers, one is below the other or they are equal. *)
Lemma leb_cases (x y : float) :
  (x <=? y) = true → (x <? y) = true ∨ (x =? y) = true.
Proof.
  rewrite FloatAxioms.leb_spec, FloatAxioms.ltb_spec, FloatAxioms.eqb_spec.
  unfold SFleb, SFltb, SFeqb.
  destruct (SFcompare (Prim2SF x) (Prim2SF y)) as [[]|]; auto; discriminate.
Qed.

End B64.

(** ** The bounding box *)

(** C8, as amended.  [generate_bbox] computes [delta_lat = radius / 111] and
    [delta_lon = radius / (111 * cos_lat)], where [cos_lat] is the cosine of
    the latitude in radians, replaced by 0.0001 exactly when the latitude is
    at least 89.9 in absolute value.  For a latitude in [-90, 90], a finite
    longitude and a finite radius above 0 (the cosine being positive below
    89.9 degrees, as that of [math] is), the divisor is positive, so there
    is no error, and in binary64 each lower bound is at most the centre
    coordinate, which is at most the upper bound: the box has min <= max.
    It has min < max unless both offsets are lost in the rounding of the
    sum and of the difference, which then both equal the centre
    coordinate. *)
Theorem bbox_well_formed (E : Env) (lat lon radius_km : float) :
  (-90 <=? lat) = true → (lat <=? 90) = true →
  (PrimFloat.abs lon <? infinity) = true →
  (0 <? radius_km) = true → (radius_km <? infinity) = true →
  ((PrimFloat.abs lat <? 89.9) = true →
   (0 <? math_cos E (math_radians E lat)) = true) →
  let cos_lat :=
    if 89.9 <=? PrimFloat.abs lat then 0.0001
    else math_cos E (math_radians E lat) in
  let delta_lat := radius_km / 111 in
  let delta_lon := radius_km / (111 * cos_lat) in
  let min_lon := lon - delta_lon in
  let min_lat := lat - delta_lat in
  let max_lon := lon + delta_lon in
  let max_lat := lat + delta_lat in
  generate_bbox (H := float_arith E) lat lon radius_km
  = (min_lon, min_lat, max_lon, max_lat) ∧
  (0 <? 111 * cos_lat) = true ∧
  (min_lon <=? lon) = true ∧ (lon <=? max_lon) = true ∧
  (min_lat <=? lat) = true ∧ (lat <=? max_lat) = true ∧
  (min_lon <=? max_lon) = true ∧ (min_lat <=? max_lat) = true ∧
  ((min_lon <? max_lon) = true ∨
   (min_lon =? lon) = true ∧ (lon =? max_lon) = true) ∧
  ((min_lat <? max_lat) = true ∨
   (min_lat =? lat) = true ∧ (lat =? max_lat) = true).
Proof.
  intros Hlo Hhi Hlon Hr Hrfin Hcos. cbv zeta.
  assert (Hnan : F64.is_nan lat = false) by apply (F64.leb_not_nan _ _ Hhi).
  assert (Hflat : B64.SFfinite (Prim2SF lat)).
  { apply (B64.between_finite (-90) 90); try assumption; exact I. }
  assert (Hflon : B64.SFfinite (Prim2SF lon)) by now apply B64.finite_SF.
  set (cos_lat := if 89.9 <=? PrimFloat.abs lat then 0.0001
                  else math_cos E (math_radians E lat)).
  assert (Hbox : generate_bbox (H := float_arith E) lat lon radius_km
                 = (lon - radius_km / (111 * cos_lat), lat - radius_km / 111,
                    lon + radius_km / (111 * cos_lat), lat + radius_km / 111)).
  { unfold generate_bbox, cos_lat.
    cbn [n_add n_sub n_mul n_div n_abs n_ltb n_cos n_radians
         lit_111 lit_89_9 lit_0_0001 float_arith].
    destruct (PrimFloat.abs lat <? 89.9) eqn:Hlt.
    - now rewrite (F64.ltb_leb_false _ _ Hlt).
    - rewrite (F64.ltb_false_leb _ _); [reflexivity| |reflexivity|exact Hlt].
      now rewrite F64.abs_nan. }
  assert (Hdiv : (0 <? 111 * cos_lat) = true).
  { unfold cos_lat. destruct (89.9 <=? PrimFloat.abs lat) eqn:Hge; [reflexivity|].
    apply B64.mul_111_pos, Hcos.
    apply F64.leb_false_ltb; [reflexivity|now rewrite F64.abs_nan|exact Hge]. }
  assert (Hdlon : (0 <=? radius_km / (111 * cos_lat)) = true)
    by now apply B64.div_nonneg.
  assert (Hdlat : (0 <=? radius_km / 111) = true)
    by now apply B64.div_nonneg.
  pose proof (B64.sub_le lon _ Hflon Hdlon) as H1.
  pose proof (B64.add_ge lon _ Hflon Hdlon) as H2.
  pose proof (B64.sub_le lat _ Hflat Hdlat) as H3.
  pose proof (B64.add_ge lat _ Hflat Hdlat) as H4.
  repeat split; try assumption.
  - exact (F64.leb_trans _ _ _ H1 H2).
  - exact (F64.leb_trans _ _ _ H3 H4).
  - destruct (B64.leb_cases _ _ H1) as [Hlt|Heq];
      [left; exact (F64.ltb_leb_trans _ _ _ Hlt H2)|].
    destruct (B64.leb_cases _ _ H2) as [Hlt|Heq'];
      [left; exact (F64.leb_ltb_trans _ _ _ H1 Hlt)|right; auto].
  - destruct (B64.leb_cases _ _ H3) as [Hlt|Heq];
      [left; exact (F64.ltb_leb_trans _ _ _ Hlt H4)|].
    destruct (B64.leb_cases _ _ H4) as [Hlt|Heq'];
      [left; exact (F64.leb_ltb_trans _ _ _ H3 Hlt)|right; auto].
Qed.

(** Around the reference point of the examples, with a radius of 200 km,
    the box is ordered. *)
Lemma bbox_well_formed_witness :
  (-118.25 - 200 / (111 * Demo.cos (Demo.radians 34.05))
   <=? -118.25 + 200 / (111 * Demo.cos (Demo.radians 34.05))) = true ∧
  (34.05 - 200 / 111 <=? 34.05 + 200 / 111) = true.
Proof.
  destruct (bbox_well_formed (Demo.env false) 34.05 (-118.25) 200)
    as (_ & _ & _ & _ & _ & _ & Hlon & Hlat & _); try reflexivity.
  split; [exact Hlon|exact Hlat].
Defined.

(** The strict order can fail: at the pole, with a radius of 2^-60 km,
    both offsets are absorbed by the rounding of the sums. *)
Lemma bbox_well_formed_counterexample :
  ¬ (∀ (E : Env) (lat lon radius_km : float),
       (-90 <=? lat) = true → (lat <=? 90) = true →
       (PrimFloat.abs lon <? infinity) = true →
       (0 <? radius_km) = true → (radius_km <? infinity) = true →
       ((PrimFloat.abs lat <? 89.9) = true →
        (0 <? math_cos E (math_radians E lat)) = true) →
       let '(min_lon, min_lat, max_lon, max_lat) :=
         generate_bbox (H := float_arith E) lat lon radius_km in
       (min_lon <? max_lon) = true ∧ (min_lat <? max_lat) = true).
Proof.
  intros H.
  specialize (H (Demo.env false) 90 10 0x1p-60 eq_refl eq_refl eq_refl eq_refl eq_refl).
  vm_compute in H. destruct H as [H _]; [discriminate|discriminate H].
Qed.

(** * Further properties of the program *)

(** ** Step 1: the loop over the sensors *)

(** The line one sensor adds to the output: the text of its exception, if
    the request or the parsing fails. *)
Definition sensor_error (E : Env) (bbox : string) (days : Z) (sat : string)
  : option string :=
  match fetch E (url sat bbox days) with
  | inl e => Some (error_message sat e)
  | inr _ => None
  end.

(** The rows one sensor adds to the unioned frame: those of its answer,
    with its name in the [satellite] cell, if the answer is not empty. *)
Definition sensor_rows (E : Env) (bbox : string) (days : Z) (sat : string)
  : list row :=
  match fetch E (url sat bbox days) with
  | inl _ => []
  | inr df =>
      if df_empty df then []
      else map (fun ir : nat * row => <["satellite" := CStr sat]> ir.2) (rows df)
  end.

Lemma concat_rows (dfs : list DataFrame) :
  map snd (rows (concat dfs)) = flat_map (fun df => map snd (rows df)) dfs.
Proof.
  unfold concat; simpl.
  generalize (flat_map (fun df => map snd (rows df)) dfs). intros rs.
  generalize 0%nat. induction rs as [|r rs IH]; intros s; simpl; [reflexivity|].
  now rewrite IH.
Qed.

(** X1.  The loop calls every sensor of the list once, in the order of the
    list, each with the URL of its name, of the box and of the number of
    days, and goes on after a failure.  It prints one error line for each
    sensor that fails, in that order, and nothing else; the unioned frame
    holds the rows of the sensors that answered with data, in the order of
    the sensors and in the order of each answer, each row with the name of
    its sensor in the [satellite] cell, relabelled 0, 1, 2, ... *)
Theorem sensors_each_called (E : Env) (lat lon : float) (sat_list : list string)
    (radius_km : float) (days : Z) :
  let bbox :=
    bbox_string E (generate_bbox (H := float_arith E) lat lon radius_km) in
  (collect E lat lon sat_list radius_km days).1
  = omap (sensor_error E bbox days) sat_list ∧
  map snd (rows (fetched E lat lon sat_list radius_km days))
  = flat_map (sensor_rows E bbox days) sat_list ∧
  map fst (rows (fetched E lat lon sat_list radius_km days))
  = seq 0 (length (flat_map (sensor_rows E bbox days) sat_list)).
Proof.
  intros bbox.
  assert (Hout : (collect E lat lon sat_list radius_km days).1
                 = omap (sensor_error E bbox days) sat_list).
  { induction sat_list as [|sat rest IH]; [reflexivity|].
    cbn [collect]. fold bbox.
    change (omap (sensor_error E bbox days) (sat :: rest))
      with (match sensor_error E bbox days sat with
            | Some y => y :: omap (sensor_error E bbox days) rest
            | None => omap (sensor_error E bbox days) rest
            end).
    unfold sensor_error at 1.
    destruct (collect E lat lon rest radius_km days) as [out dfs].
    cbn [fst] in IH. rewrite <- IH.
    destruct (fetch E (url sat bbox days)) as [e|df]; [reflexivity|].
    now destruct (df_empty df). }
  assert (Hrows : map snd (rows (fetched E lat lon sat_list radius_km days))
                  = flat_map (sensor_rows E bbox days) sat_list).
  { clear Hout. unfold fetched. rewrite concat_rows.
    induction sat_list as [|sat rest IH]; [reflexivity|].
    cbn [collect flat_map]. fold bbox. unfold sensor_rows at 1.
    destruct (collect E lat lon rest radius_km days) as [out dfs].
    cbn [snd] in IH. rewrite <- IH.
    destruct (fetch E (url sat bbox days)) as [e|df]; [reflexivity|].
    destruct (df_empty df); [reflexivity|].
    cbn [snd flat_map]. f_equal.
    unfold assign_scalar; simpl. rewrite map_map. reflexivity. }
  split; [exact Hout|]. split; [exact Hrows|].
  rewrite (indexed_labels (fetched E lat lon sat_list radius_km days)
             (concat_indexed _)).
  f_equal. now rewrite <- (length_map snd), Hrows.
Qed.

(** On the example feed the first sensor gives six rows, the second fails
    and the third answers with an empty frame. *)
Lemma demo_feed_step1 :
  (collect (Demo.env false) 34.05 (-118.25) SATELLITES 200 7).1
  = [error_message "VIIRS_NOAA20_NRT" "HTTPSConnectionPool: Read timed out."] ∧
  map (fun ir : nat * row => (ir.1, cell_at "satellite" ir.2))
    (rows (fetched (Demo.env false) 34.05 (-118.25) SATELLITES 200 7))
  = map (fun i => (i, CStr "MODIS_NRT")) (seq 0 6).
Proof. split; vm_compute; reflexivity. Qed.

(** Every frame the loop keeps is the non-empty answer of a sensor of the
    list, with the name of the sensor written in its [satellite] column. *)
Lemma collect_frames (E : Env) (lat lon : float) (sat_list : list string)
    (radius_km : float) (days : Z) :
  Forall (fun d => ∃ sat df,
            sat ∈ sat_list ∧
            fetch E (url sat (bbox_string E (generate_bbox (H := float_arith E)
                                               lat lon radius_km)) days) = inr df ∧
            df_empty df = false ∧
            d = assign_scalar "satellite" (CStr sat) df)
         (collect E lat lon sat_list radius_km days).2.
Proof.
  induction sat_list as [|sat rest IH]; cbn [collect snd]; [constructor|].
  assert (IH' : Forall (fun d => ∃ sat0 df,
            sat0 ∈ sat :: rest ∧
            fetch E (url sat0 (bbox_string E (generate_bbox (H := float_arith E)
                                               lat lon radius_km)) days) = inr df ∧
            df_empty df = false ∧
            d = assign_scalar "satellite" (CStr sat0) df)
         (collect E lat lon rest radius_km days).2).
  { eapply Forall_impl; [exact IH|].
    intros d (sat0 & df & Hin & H). exists sat0, df. split; [now right|exact H]. }
  clear IH.
  destruct (collect E lat lon rest radius_km days) as [out dfs]. cbn [snd] in *.
  destruct (fetch E (url sat _ days)) as [e|df] eqn:Hf; [assumption|].
  destruct (df_empty df) eqn:He; [assumption|].
  constructor; [|assumption].
  exists sat, df. repeat split; try assumption. left.
Qed.

Lemma concat_row (dfs : list DataFrame) (ir : nat * row) :
  ir ∈ rows (concat dfs) → ∃ d jr, d ∈ dfs ∧ jr ∈ rows d ∧ jr.2 = ir.2.
Proof.
  intros Hin. unfold concat in Hin; simpl in Hin.
  apply list_elem_of_lookup in Hin as [i Hi].
  apply combine_seq_lookup in Hi as [_ Hi].
  apply list_elem_of_lookup_2, list_elem_of_In, in_flat_map in Hi as (d & Hd & Hr).
  apply list_elem_of_In, list_elem_of_fmap in Hr as (jr & Hjr & Hin).
  exists d, jr. repeat split; [now apply list_elem_of_In|assumption|now symmetry].
Qed.

Lemma fetched_satellite (E : Env) (lat lon : float) (sat_list : list string)
    (radius_km : float) (days : Z) (ir : nat * row) :
  ir ∈ rows (fetched E lat lon sat_list radius_km days) →
  ∃ sat df,
    sat ∈ sat_list ∧
    fetch E (url sat (bbox_string E (generate_bbox (H := float_arith E)
                                       lat lon radius_km)) days) = inr df ∧
    df_empty df = false ∧
    cell_at "satellite" ir.2 = CStr sat.
Proof.
  intros Hin. unfold fetched in Hin.
  apply concat_row in Hin as (d & jr & Hd & Hjr & Heq).
  pose proof (collect_frames E lat lon sat_list radius_km days) as Hall.
  rewrite Forall_forall in Hall.
  destruct (Hall _ Hd) as (sat & df & Hsat & Hf & He & ->).
  exists sat, df. repeat split; try assumption.
  unfold assign_scalar in Hjr; simpl in Hjr.
  apply list_elem_of_fmap in Hjr as (kr & -> & _). simpl in Heq.
  rewrite <- Heq. apply cell_at_insert.
Qed.

(** The position of a row of the report leads back to a fetched row. *)
Lemma report_row_source (E : Env) (lat lon : float) (f df : DataFrame)
    (labels : list nat) (ir : nat * row) :
  report_of E lat lon f df labels → ir ∈ rows df →
  ∃ i r0, (i, r0) ∈ rows f ∧ reported E lat lon r0 ir.2.
Proof.
  intros [Hlen Hidx _ Hrows _ _] Hin.
  apply list_elem_of_lookup in Hin as [k Hk].
  pose proof (Hidx _ _ Hk) as Hl. destruct ir as [j r]. simpl in Hl. subst j.
  destruct (labels !! k) as [i|] eqn:Hi.
  - destruct (Hrows _ _ _ Hi Hk) as (r0 & Hr0 & Hrep).
    exists i, r0. split; [eapply list_elem_of_lookup_2, Hr0|exact Hrep].
  - apply lookup_ge_None in Hi. apply lookup_lt_Some in Hk. lia.
Qed.

(** X2.  In a returned frame the [satellite] cell of every row names a sensor of
    the list that was called and answered with data; a [satellite] column of
    the feed itself is overwritten by it. *)
Theorem returned_rows_satellite (E : Env) (lat lon : float) (sat_list : list string)
    (radius_km : float) (days : Z) (out : list string) (df : DataFrame)
    (ir : nat * row) :
  EnvSpec E →
  check_fires E lat lon sat_list radius_km days = (out, Ok df) →
  ir ∈ rows df →
  ∃ sat d,
    sat ∈ sat_list ∧
    fetch E (url sat (bbox_string E (generate_bbox (H := float_arith E)
                                       lat lon radius_km)) days) = inr d ∧
    df_empty d = false ∧
    cell_at "satellite" ir.2 = CStr sat.
Proof.
  intros HE Hrun Hin.
  pose proof (check_fires_report E HE _ _ _ _ _ _ _ Hrun) as Hrep.
  destruct (report_row_source _ _ _ _ _ _ _ Hrep Hin) as (i & r0 & Hr0 & Hrow).
  destruct (fetched_satellite _ _ _ _ _ _ _ Hr0) as (sat & d & Hsat & Hf & He & Hc).
  exists sat, d. repeat split; try assumption.
  simpl in Hc. rewrite <- Hc.
  apply (en_other _ _ _ _ _ (rep_enriched _ _ _ _ _ Hrow)).
  unfold derived_columns. intros H.
  repeat (apply elem_of_cons in H as [H|H]; [discriminate|]).
  now apply elem_of_nil in H.
Qed.

Lemma returned_rows_satellite_witness :
  ∃ sat, sat ∈ SATELLITES ∧
         cell_at "satellite" (demo_labelled_row demo_report 0).2 = CStr sat.
Proof.
  destruct (returned_rows_satellite (Demo.env false) 34.05 (-118.25) SATELLITES 200 7
              demo_run.1 demo_report (demo_labelled_row demo_report 0)
              (demo_env_spec false) demo_run_returns)
    as (sat & d & Hsat & _ & _ & Hc).
  - eapply list_elem_of_lookup_2. apply (lookup_default_lt _ 0). vm_compute. lia.
  - exists sat. split; assumption.
Defined.

(** ** The filter keeps every reliable detection *)

Lemma filter_labels {A B} (P : nat * A → Prop) (Q : nat * B → Prop)
    `{∀ x, Decision (P x)} `{∀ x, Decision (Q x)} (l : list (nat * A))
    (k : list (nat * B)) :
  Forall2 (fun a b => a.1 = b.1 ∧ (P a ↔ Q b)) l k →
  map fst (filter P l) = map fst (filter Q k).
Proof.
  induction 1 as [|a b l k [Hab Hpq] _ IH]; [reflexivity|].
  rewrite !filter_cons.
  destruct (decide (P a)) as [Hp|Hp].
  - rewrite decide_True by now apply Hpq. simpl. now rewrite Hab, IH.
  - rewrite decide_False by (intros Hq; now apply Hp, Hpq). exact IH.
Qed.

(** The labels that pass the filter are those of the fetched rows whose
    numeric confidence is at least 40. *)
Lemma reliable_labels (E : Env) (lat lon : float) (dfs : list DataFrame)
    (e : DataFrame) (pct : list float) :
  Forall well_formed dfs →
  process E lat lon (ensure_columns (concat dfs)) = Ok (e, pct) →
  map fst (rows (reliable e pct))
  = map fst (filter (fun ir : nat * row => F64.geb (confidence_of E ir.2) 40 = true)
               (rows (concat dfs))).
Proof.
  intros Hw Hp.
  pose proof (well_formed_concat _ Hw) as Hwf.
  pose proof (concat_indexed dfs) as Hif.
  set (f := concat dfs) in *.
  pose proof (ensure_columns_indexed _ Hif) as Hig.
  pose proof (ensure_columns_length f) as Hlen.
  assert (Hlook : ∀ i ir, rows (ensure_columns f) !! i = Some ir →
            ∃ r0, rows f !! i = Some (i, r0) ∧ ir.1 = i ∧
                  ∀ c, cell_at c ir.2 = cell_at c r0)
    by (intros i ir; now apply ensure_columns_lookup).
  generalize dependent (ensure_columns f). intros g Hp Hig Hlen Hlook.
  destruct (process_inv E lat lon g e pct Hig Hp) as (Hpct & Hie & Hle & _ & Hrows).
  unfold reliable, select; simpl.
  apply filter_labels, Forall2_same_length_lookup. split; [now rewrite Hle|].
  intros i [j r] [j0 r0] Hi Hi0.
  pose proof (Hif _ _ Hi0) as Hj0. simpl in Hj0. subst j0.
  destruct (Hrows _ _ Hi) as (r1 & Hr1 & Hj & _). simpl in Hj. subst j.
  destruct (Hlook _ _ Hr1) as (r0' & Hr0' & _ & Hcell). simpl in Hcell.
  assert (Some (i, r0') = Some (i, r0)) as [= ->] by (rewrite <- Hr0'; exact Hi0).
  split; [reflexivity|]. simpl.
  rewrite Hpct, lookup_map, confidence_percentage_lookup, column_lookup, Hr1.
  simpl. unfold confidence_of. now rewrite Hcell.
Qed.

Lemma ranked_Permutation (E : Env) (df s : DataFrame) (pct : list float) :
  EnvSpec E → ranked E df pct = Ok s →
  Permutation (map fst (rows s)) (map fst (rows df)).
Proof.
  intros HE Hr. unfold ranked in Hr.
  set (a := assign "fire_risk" _ df) in *.
  destruct (sort_values_inv E HE "distance_km" a)
    as (s' & sorted & Hs & _ & Hsrows & Hsperm & _).
  rewrite Hr in Hs. injection Hs as <-.
  transitivity (map fst (rows a)).
  - apply Permutation_map. rewrite Hsrows, Hsperm.
    apply (filter_split_Permutation
             (fun ir : nat * row => F64.is_nan (sort_key "distance_km" ir.2))).
  - unfold a, assign; simpl. now rewrite map_map.
Qed.

Lemma df_empty_rows (df : DataFrame) : rows df = [] → df_empty df = true.
Proof. intros H. unfold df_empty. rewrite H. now destruct (columns df). Qed.

Lemma df_empty_false (df : DataFrame) : df_empty df = false → rows df ≠ [].
Proof. intros H Hr. now rewrite df_empty_rows in H. Qed.

Lemma reliable_empty_rows (E : Env) (lat lon : float) (g e : DataFrame)
    (pct : list float) :
  indexed g → process E lat lon g = Ok (e, pct) →
  df_empty (reliable e pct) = true → rows (reliable e pct) = [].
Proof.
  intros Hig Hp He.
  destruct (process_inv E lat lon g e pct Hig Hp) as (_ & _ & _ & Hcols & _).
  assert (Hfrp : "frp" ∈ columns (reliable e pct)).
  { unfold reliable, select; simpl. apply Hcols. right. left. }
  unfold df_empty in He.
  destruct (columns (reliable e pct)); [now apply elem_of_nil in Hfrp|].
  now destruct (rows (reliable e pct)).
Qed.

(** X3.  No reliable detection is dropped, none is shown twice: whenever
    [check_fires] returns, the fetched rows its result shows are exactly
    those whose numeric confidence is at least 40, each once. *)
Theorem reliable_rows_reported (E : Env) (lat lon : float) (sat_list : list string)
    (radius_km : float) (days : Z) (out : list string) (df : DataFrame) :
  EnvSpec E →
  check_fires E lat lon sat_list radius_km days = (out, Ok df) →
  Permutation (arrival E lat lon sat_list radius_km days)
    (map fst (filter (fun ir : nat * row => F64.geb (confidence_of E ir.2) 40 = true)
                (rows (fetched E lat lon sat_list radius_km days)))) ∧
  length (rows df)
  = length (filter (fun ir : nat * row => F64.geb (confidence_of E ir.2) 40 = true)
              (rows (fetched E lat lon sat_list radius_km days))).
Proof.
  intros HE H.
  pose proof (check_fires_report E HE _ _ _ _ _ _ _ H) as [Hlen _ _ _ _ _].
  assert (Hperm : Permutation (arrival E lat lon sat_list radius_km days)
    (map fst (filter (fun ir : nat * row => F64.geb (confidence_of E ir.2) 40 = true)
                (rows (fetched E lat lon sat_list radius_km days))))).
  { pose proof (check_fires_run E lat lon sat_list radius_km days) as Hrun.
    pose proof (collect_well_formed E HE lat lon sat_list radius_km days) as Hw.
    rewrite H in Hrun. unfold arrival, fetched.
    inversion Hrun as [out0 Hc|?|out0 dfs e pct Hc Hne Hp He
                      |?|out0 dfs e pct s Hc Hne Hp He Hr]; subst;
      rewrite Hc in *; cbn [snd] in *.
    - reflexivity.
    - destruct dfs as [|d dfs]; [congruence|].
      rewrite Hp, He. rewrite <- (reliable_labels E lat lon _ e pct Hw Hp).
      rewrite (reliable_empty_rows E lat lon _ e pct
                 (ensure_columns_indexed _ (concat_indexed _)) Hp He).
      reflexivity.
    - destruct dfs as [|d dfs]; [congruence|].
      rewrite Hp, He, Hr. rewrite <- (reliable_labels E lat lon _ e pct Hw Hp).
      now apply (ranked_Permutation E _ _ pct). }
  split; [exact Hperm|].
  rewrite Hlen, (Permutation_length Hperm). apply length_map.
Qed.

Lemma reliable_rows_reported_witness :
  length (rows demo_report)
  = length (filter (fun ir : nat * row =>
                      F64.geb (confidence_of (Demo.env false) ir.2) 40 = true)
              (rows (fetched (Demo.env false) 34.05 (-118.25) SATELLITES 200 7))).
Proof.
  apply (reliable_rows_reported (Demo.env false) 34.05 (-118.25) SATELLITES 200 7
           demo_run.1 demo_report (demo_env_spec false) demo_run_returns).
Defined.

(** ** The two empty results, read backwards *)

Lemma fetched_rows_nonempty (E : Env) (lat lon : float) (sat_list : list string)
    (radius_km : float) (days : Z) :
  (collect E lat lon sat_list radius_km days).2 ≠ [] →
  rows (fetched E lat lon sat_list radius_km days) ≠ [].
Proof.
  intros Hne. unfold fetched.
  pose proof (collect_frames E lat lon sat_list radius_km days) as Hall.
  destruct (collect E lat lon sat_list radius_km days).2 as [|d dfs]; [congruence|].
  apply Forall_cons in Hall as [(sat & df & _ & _ & He & ->) _].
  apply df_empty_false in He.
  unfold concat; simpl. intros Hnil. apply (f_equal List.length) in Hnil.
  rewrite length_combine, length_seq, Nat.min_id, length_app, !length_map in Hnil.
  destruct (rows df); [congruence|simpl in Hnil; lia].
Qed.

(** X6.  An empty result tells which of the two cases occurred.  When
    [check_fires] returns a frame without rows, the frame is [pd.DataFrame()]
    and either nothing was fetched and the last line printed is the no-data
    message, or rows were fetched, none has a numeric confidence of at least
    40, and the last line is the no-reliable-fires message. *)
Theorem empty_result_cases (E : Env) (lat lon : float) (sat_list : list string)
    (radius_km : float) (days : Z) (out : list string) (df : DataFrame) :
  EnvSpec E →
  check_fires E lat lon sat_list radius_km days = (out, Ok df) →
  rows df = [] →
  df = empty_frame ∧
  ((rows (fetched E lat lon sat_list radius_km days) = [] ∧
    out = ((collect E lat lon sat_list radius_km days).1 ++ [no_data_message])%list) ∨
   (rows (fetched E lat lon sat_list radius_km days) ≠ [] ∧
    (∀ ir, ir ∈ rows (fetched E lat lon sat_list radius_km days) →
           F64.geb (confidence_of E ir.2) 40 = false) ∧
    out = ((collect E lat lon sat_list radius_km days).1
           ++ [no_reliable_message])%list)).
Proof.
  intros HE H Hrows.
  pose proof (check_fires_run E lat lon sat_list radius_km days) as Hrun.
  pose proof (collect_well_formed E HE lat lon sat_list radius_km days) as Hw.
  pose proof (fetched_rows_nonempty E lat lon sat_list radius_km days) as Hne'.
  rewrite H in Hrun. unfold fetched in *.
  inversion Hrun as [out0 Hc|?|out0 dfs e pct Hc Hne Hp He
                    |?|out0 dfs e pct s Hc Hne Hp He Hr]; subst;
    rewrite Hc in *; cbn [fst snd] in *.
  - split; [reflexivity|]. left. split; reflexivity.
  - split; [reflexivity|]. right. split; [now apply Hne'|]. split; [|reflexivity].
    pose proof (reliable_labels E lat lon _ e pct Hw Hp) as Hlab.
    rewrite (reliable_empty_rows E lat lon _ e pct
               (ensure_columns_indexed _ (concat_indexed _)) Hp He) in Hlab.
    intros ir Hin.
    destruct (F64.geb (confidence_of E ir.2) 40) eqn:Hg; [exfalso|reflexivity].
    assert (Hin' : ir ∈ filter (fun ir : nat * row =>
                                  F64.geb (confidence_of E ir.2) 40 = true)
                          (rows (concat dfs)))
      by (apply list_elem_of_filter; auto).
    apply (list_elem_of_fmap_2 fst) in Hin'.
    change (fst <$> ?l) with (map fst l) in Hin'.
    rewrite <- Hlab in Hin'. now apply elem_of_nil in Hin'.
  - exfalso. apply df_empty_false in He. apply He.
    pose proof (ranked_Permutation E _ _ pct HE Hr) as Hperm.
    assert (Hs : rows s = []).
    { unfold reset_index in Hrows; simpl in Hrows.
      apply (f_equal List.length) in Hrows.
      rewrite length_combine, length_seq, length_map, Nat.min_id in Hrows.
      now destruct (rows s). }
    rewrite Hs in Hperm. apply Permutation_nil in Hperm.
    now apply map_eq_nil in Hperm.
Qed.

Lemma empty_result_cases_witness :
  empty_frame = empty_frame ∧
  ((rows (fetched (Demo.env_with false (only_modis quiet_modis)) 34.05 (-118.25)
            SATELLITES 200 7) = [] ∧
    (check_fires (Demo.env_with false (only_modis quiet_modis)) 34.05 (-118.25)
       SATELLITES 200 7).1
    = ((collect (Demo.env_with false (only_modis quiet_modis)) 34.05 (-118.25)
          SATELLITES 200 7).1 ++ [no_data_message])%list) ∨
   (rows (fetched (Demo.env_with false (only_modis quiet_modis)) 34.05 (-118.25)
            SATELLITES 200 7) ≠ [] ∧
    (∀ ir, ir ∈ rows (fetched (Demo.env_with false (only_modis quiet_modis))
                        34.05 (-118.25) SATELLITES 200 7) →
           F64.geb (confidence_of (Demo.env_with false (only_modis quiet_modis))
                      ir.2) 40 = false) ∧
    (check_fires (Demo.env_with false (only_modis quiet_modis)) 34.05 (-118.25)
       SATELLITES 200 7).1
    = ((collect (Demo.env_with false (only_modis quiet_modis)) 34.05 (-118.25)
          SATELLITES 200 7).1 ++ [no_reliable_message])%list)).
Proof.
  apply (empty_result_cases (Demo.env_with false (only_modis quiet_modis))
           34.05 (-118.25) SATELLITES 200 7).
  - apply only_modis_spec, quiet_modis_well_formed.
  - vm_compute. reflexivity.
  - reflexivity.
Defined.

(** ** The printed table *)

Lemma length_append (s1 s2 : string) :
  String.length (s1 +:+ s2) = (String.length s1 + String.length s2)%nat.
Proof.
  induction s1 as [|c s1 IH]; [reflexivity|].
  change (String c s1 +:+ s2) with (String c (s1 +:+ s2)).
  simpl. now rewrite IH.
Qed.

Lemma length_repeat_char (c : ascii) (n : nat) : String.length (repeat_char c n) = n.
Proof. induction n as [|n IH]; simpl; [reflexivity|now rewrite IH]. Qed.

Lemma append_nil_r (s : string) : s +:+ "" = s.
Proof.
  induction s as [|c s IH]; [reflexivity|].
  change (String c s +:+ "") with (String c (s +:+ "")). now rewrite IH.
Qed.

Lemma odd_half (n : nat) : (n = 2 * (n / 2) + (if Nat.odd n then 1 else 0))%nat.
Proof.
  rewrite <- Nat.div2_div. pose proof (Nat.div2_odd n) as H.
  destruct (Nat.odd n); simpl in H; lia.
Qed.

(** [str.center] pads on both sides with blanks, never cuts, and the two
    paddings differ by one at most. *)
Lemma center_shape (s : string) (width : nat) :
  ∃ l r : nat,
    center s width = repeat_char " " l +:+ s +:+ repeat_char " " r ∧
    (l + String.length s + r = String.length s `max` width)%nat ∧
    (l ≤ r + 1)%nat ∧ (r ≤ l + 1)%nat.
Proof.
  unfold center.
  destruct (width <=? String.length s)%nat eqn:Hw.
  - apply Nat.leb_le in Hw. exists 0%nat, 0%nat.
    split; [|lia].
    change (repeat_char " " 0 +:+ s +:+ repeat_char " " 0) with (s +:+ "").
    now rewrite append_nil_r.
  - apply Nat.leb_gt in Hw.
    set (marg := (width - String.length s)%nat).
    set (extra := if Nat.odd marg && Nat.odd width then 1%nat else 0%nat).
    exists (marg / 2 + extra)%nat, (marg - (marg / 2 + extra))%nat.
    split; [reflexivity|].
    assert (Hextra : (extra = 0 ∨ extra = 1 ∧ Nat.odd marg = true)%nat).
    { unfold extra. destruct (Nat.odd marg); simpl; [|now left].
      destruct (Nat.odd width); auto. }
    pose proof (odd_half marg) as Hmarg.
    assert (Hm : (marg + String.length s = width)%nat) by (unfold marg; lia).
    clearbody marg extra.
    destruct Hextra as [->|[-> Hodd]].
    + destruct (Nat.odd marg); lia.
    + rewrite Hodd in Hmarg. lia.
Qed.

Lemma length_center (s : string) (width : nat) :
  String.length (center s width) = String.length s `max` width.
Proof.
  destruct (center_shape s width) as (l & r & -> & Hlen & _).
  rewrite !length_append, !length_repeat_char. lia.
Qed.

Lemma length_join (sep : string) (items : list string) (ws : list nat) :
  Forall2 (fun s w => String.length s = w) items ws →
  String.length (join sep items)
  = (sum_list ws + String.length sep * (length ws - 1))%nat.
Proof.
  induction 1 as [|s w items ws Hs Hrest IH]; [simpl; lia|].
  destruct Hrest as [|s' w' items ws Hs' Hrest].
  - simpl. lia.
  - change (join sep (s :: s' :: items)) with (s +:+ sep +:+ join sep (s' :: items)).
    rewrite !length_append, IH, Hs. simpl. lia.
Qed.

Lemma Forall2_zip_with_map {A} (f : A → nat → string) (g : A → nat) (l : list A) :
  (∀ x, x ∈ l → String.length (f x (g x)) = g x) →
  Forall2 (fun s w => String.length s = w) (zip_with f l (map g l)) (map g l).
Proof.
  induction l as [|a l IH]; intros H; simpl; constructor.
  - apply H. left.
  - apply IH. intros x Hx. apply H. now right.
Qed.

(** The width of a column of the table: at least the length of its name
    and of each of its values. *)
Definition width_of (E : Env) (df : DataFrame) (col : string) : nat :=
  max_list (map (fun v => String.length (astype_str E v)) (column col df))
    `max` String.length col.

Lemma widths_map (E : Env) (df : DataFrame) :
  widths E df = map (width_of E df) report_columns.
Proof. reflexivity. Qed.

Lemma width_of_value (E : Env) (df : DataFrame) (col : string) (ir : nat * row) :
  ir ∈ rows df →
  (String.length (astype_str E (cell_at col ir.2)) ≤ width_of E df col)%nat.
Proof.
  intros Hin. unfold width_of.
  assert (String.length (astype_str E (cell_at col ir.2))
          ≤ max_list (map (fun v => String.length (astype_str E v)) (column col df)))%nat;
    [|lia].
  apply max_list_elem_of_le.
  apply (list_elem_of_fmap_2 (fun v => String.length (astype_str E v))).
  unfold column. now apply (list_elem_of_fmap_2 (fun ir : nat * row => cell_at col ir.2)).
Qed.

(** X7.  The table is a rectangle: the header, the divider and the line of each
    row have the same length, the widths plus the nine separators of three
    characters; and there is one line for each row of the frame after the
    banner, the summary, the header and the divider. *)
Theorem table_aligned (E : Env) (lat lon radius_km : float) (days : Z)
    (df : DataFrame) :
  length (print_table E lat lon radius_km days df) = (4 + length (rows df))%nat ∧
  ∀ line, line ∈ drop 2 (print_table E lat lon radius_km days df) →
          String.length line = (sum_list (widths E df) + 27)%nat.
Proof.
  split.
  - unfold print_table. rewrite length_app, length_map. reflexivity.
  - intros line Hin. unfold print_table in Hin. cbn [drop app] in Hin.
    assert (Hn : (String.length " | " * (length (widths E df) - 1) = 27)%nat)
      by reflexivity.
    apply elem_of_cons in Hin as [->|Hin]; [|apply elem_of_cons in Hin as [->|Hin]].
    + unfold header. rewrite (length_join _ _ (widths E df)); [now rewrite Hn|].
      rewrite widths_map.
      apply (Forall2_zip_with_map center (width_of E df)).
      intros col _. rewrite length_center. unfold width_of. lia.
    + unfold divider. rewrite (length_join _ _ (widths E df)); [reflexivity|].
      clear. induction (widths E df) as [|w ws IH]; simpl; constructor.
      * apply length_repeat_char.
      * exact IH.
    + apply list_elem_of_fmap in Hin as (ir & -> & Hir).
      unfold row_line. rewrite (length_join _ _ (widths E df)); [now rewrite Hn|].
      rewrite widths_map.
      apply (Forall2_zip_with_map
               (fun col w => center_text E (cell_at col ir.2) w) (width_of E df)).
      intros col _. unfold center_text. rewrite length_center.
      pose proof (width_of_value E df col ir Hir). lia.
Qed.

(** X8.  [center_text] never cuts a value: the text of the cell is there whole,
    between two runs of blanks whose lengths differ by one at most, and the
    result is exactly as wide as asked when the text fits. *)
Theorem center_text_pads (E : Env) (v : cell) (width : nat) :
  ∃ l r : nat,
    center_text E v width
    = repeat_char " " l +:+ astype_str E v +:+ repeat_char " " r ∧
    String.length (center_text E v width)
    = String.length (astype_str E v) `max` width ∧
    (l ≤ r + 1)%nat ∧ (r ≤ l + 1)%nat.
Proof.
  unfold center_text.
  destruct (center_shape (astype_str E v) width) as (l & r & Heq & Hlen & Hl & Hr).
  exists l, r. repeat split; try assumption. apply length_center.
Qed.

(** ** The acquisition time *)

(** The decimal digit [k] as a character. *)
Definition digit (k : Z) : ascii := ascii_of_nat (48 + Z.to_nat k).

Lemma format_02d_digits (n : Z) :
  (0 <= n < 100)%Z →
  format_02d n = String (digit (n / 10)) (String (digit (n mod 10)) "").
Proof.
  intros Hn.
  assert (Hall : forallb (fun k : nat =>
            String.eqb (format_02d (Z.of_nat k))
              (String (digit (Z.of_nat k / 10))
                 (String (digit (Z.of_nat k mod 10)) "")))
            (seq 0 100) = true) by (vm_compute; reflexivity).
  rewrite forallb_forall in Hall.
  specialize (Hall (Z.to_nat n)). rewrite Z2Nat.id in Hall by lia.
  apply String.eqb_eq, Hall. apply in_seq. lia.
Qed.

(** X9.  A time of day between 0 and 9999 is shown as its four digits with a
    colon in the middle, zeros included: the hundreds as the hour, the rest
    as the minutes, whatever they are.  A missing time is shown as
    midnight. *)
Theorem format_time_digits (E : Env) (v : cell) (z : Z) :
  (isna v = true → format_time E v = Ok "00:00") ∧
  (isna v = false → int_of_cell E v = Ok z → (0 <= z < 10000)%Z →
   format_time E v
   = Ok (String (digit (z / 1000)) (String (digit (z / 100 mod 10))
           (String ":" (String (digit (z mod 100 / 10))
              (String (digit (z mod 10)) "")))))).
Proof.
  unfold format_time. split.
  - now intros ->.
  - intros -> Hz Hr. cbn [negb]. rewrite Hz. cbn [bind].
    rewrite !format_02d_digits
      by (split; [apply Z.div_pos || apply Z.mod_pos_bound|
                  apply Z.div_lt_upper_bound || apply Z.mod_pos_bound]; lia).
    assert (z / 100 / 10 = z / 1000)%Z as ->
      by (Z.to_euclidean_division_equations; lia).
    assert (z mod 100 mod 10 = z mod 10)%Z as ->
      by (Z.to_euclidean_division_equations; lia).
    reflexivity.
Qed.

Lemma format_time_digits_witness :
  format_time (Demo.env false) (CNum 905) = Ok "09:05".
Proof.
  apply (proj2 (format_time_digits (Demo.env false) (CNum 905) 905)).
  - reflexivity.
  - vm_compute. reflexivity.
  - lia.
Defined.

(** ** The distances *)

Lemma traverse_raise {A B} (f : A → result B) (l : list A) (x : exn) :
  traverse f l = Raise x → ∃ a, a ∈ l ∧ f a = Raise x.
Proof.
  induction l as [|a l IH]; simpl; [discriminate|].
  destruct (f a) as [b|y] eqn:Ha; simpl.
  - destruct (traverse f l) as [bs|y]; simpl; [discriminate|].
    intros [= ->]. destruct IH as (a' & Hin & Ha'); [reflexivity|].
    exists a'. split; [now right|assumption].
  - intros [= ->]. exists a. split; [left|assumption].
Qed.

Lemma astype_float_raise (E : Env) (v : cell) (x : exn) :
  astype_float E v = Raise x →
  x = ValueError ∧ ∃ s, v = CStr s ∧ py_float E s = None.
Proof.
  destruct v as [y|s]; simpl; [discriminate|].
  destruct (py_float E s) eqn:Hs; [discriminate|].
  intros [= <-]. eauto.
Qed.

Lemma traverse_ok {A B} (f : A → result B) (l : list A) (l' : list B) :
  traverse f l = Ok l' → Forall (fun a => ∃ b, f a = Ok b) l.
Proof.
  revert l'. induction l as [|a l IH]; intros l' H; [constructor|].
  apply traverse_cons_inv in H as (b & bs & Ha & Hl & _).
  constructor; eauto.
Qed.

(** X10.  [haversine_np] returns one distance for each row exactly when every
    coordinate is a number or text that [float] accepts; otherwise it raises
    [ValueError], for a coordinate that is text [float] rejects. *)
Theorem haversine_np_errors (E : Env) (lat0 lon0 : float) (lats lons : list cell) :
  length lats = length lons →
  ((∃ ds, haversine_np E lat0 lon0 lats lons = Ok ds ∧ length ds = length lats) ↔
   Forall (fun v => ∃ x, astype_float E v = Ok x) (lats ++ lons)) ∧
  (∀ x, haversine_np E lat0 lon0 lats lons = Raise x →
        x = ValueError ∧ ∃ s, CStr s ∈ (lats ++ lons)%list ∧ py_float E s = None).
Proof.
  intros Hlen. split; [split|].
  - intros (ds & H & _). unfold haversine_np in H.
    destruct (traverse (astype_float E) lats) as [xs|] eqn:Hx; [|discriminate].
    cbn [bind] in H.
    destruct (traverse (astype_float E) lons) as [ys|] eqn:Hy; [|discriminate].
    apply Forall_app. split; eapply traverse_ok; eassumption.
  - intros [Hl Hn]%Forall_app.
    destruct (traverse_total _ _ Hl) as [xs Hx].
    destruct (traverse_total _ _ Hn) as [ys Hy].
    destruct (haversine_np E lat0 lon0 lats lons) as [ds|x] eqn:H.
    + exists ds. split; [reflexivity|]. now apply (haversine_np_length E lat0 lon0 _ lons).
    + unfold haversine_np in H. rewrite Hx in H. cbn [bind] in H.
      rewrite Hy in H. discriminate H.
  - intros x H. unfold haversine_np in H.
    destruct (traverse (astype_float E) lats) as [xs|y] eqn:Hx.
    + cbn [bind] in H.
      destruct (traverse (astype_float E) lons) as [ys|y] eqn:Hy; [discriminate|].
      cbn [bind] in H. injection H as ->.
      apply traverse_raise in Hy as (v & Hv & Hr).
      apply astype_float_raise in Hr as (-> & s & -> & Hs).
      split; [reflexivity|]. exists s. split; [|assumption].
      apply elem_of_app. now right.
    + cbn [bind] in H. injection H as ->.
      apply traverse_raise in Hx as (v & Hv & Hr).
      apply astype_float_raise in Hr as (-> & s & -> & Hs).
      split; [reflexivity|]. exists s. split; [|assumption].
      apply elem_of_app. now left.
Qed.

Lemma haversine_np_errors_witness :
  ValueError = ValueError ∧
  ∃ s, CStr s ∈ ([CStr "north"] ++ [CNum (-118.9)])%list ∧
       py_float (Demo.env false) s = None.
Proof.
  apply (proj2 (haversine_np_errors (Demo.env false) 34.05 (-118.25)
                  [CStr "north"] [CNum (-118.9)] eq_refl) ValueError).
  vm_compute. reflexivity.
Defined.

(** ** The required columns *)

Lemma ensure_columns_fixed (df : DataFrame) :
  (∀ c, c ∈ required_columns → c ∈ columns df) → ensure_columns df = df.
Proof.
  intros H. unfold ensure_columns.
  assert (Hall : Forall (fun c => c ∈ columns df) required_columns)
    by now apply Forall_forall.
  clear H. induction required_columns as [|c cs IH]; [reflexivity|].
  apply Forall_cons in Hall as [Hc Hall].
  cbn [foldl]. rewrite bool_decide_eq_true_2 by assumption. now apply IH.
Qed.

Lemma ensure_columns_prefix (df : DataFrame) :
  columns df `prefix_of` columns (ensure_columns df).
Proof.
  unfold ensure_columns. revert df.
  induction required_columns as [|col cols IH]; intros df; cbn [foldl]; [reflexivity|].
  case_bool_decide as Hc; [apply IH|].
  etransitivity; [|apply IH].
  unfold assign_scalar; simpl. rewrite bool_decide_eq_false_2 by assumption.
  now apply prefix_app_r.
Qed.

(** Only required columns are created. *)
Lemma ensure_columns_origin (df : DataFrame) (c : string) :
  c ∈ columns (ensure_columns df) → c ∈ columns df ∨ c ∈ required_columns.
Proof.
  unfold ensure_columns. revert df.
  induction required_columns as [|col cols IH]; intros df; cbn [foldl]; [now left|].
  case_bool_decide as Hc; intros H.
  - destruct (IH _ H) as [?|?]; [now left|right; now right].
  - destruct (IH _ H) as [H'|?]; [|right; now right].
    unfold assign_scalar in H'; simpl in H'.
    rewrite bool_decide_eq_false_2 in H' by assumption.
    apply elem_of_app in H' as [?|H']; [now left|].
    apply list_elem_of_singleton in H' as ->. right; left.
Qed.

(** In a frame as [pd.read_csv] builds it, no row has a cell under a name
    that is not a column. *)
Lemma column_absent (df : DataFrame) (c : string) :
  well_formed df → c ∉ columns df →
  column c df = replicate (length (rows df)) missing.
Proof.
  intros Hw Hc. unfold column.
  assert (Hall : ∀ ir, ir ∈ rows df → cell_at c ir.2 = missing).
  { intros ir Hin. unfold cell_at.
    destruct (ir.2 !! c) as [v|] eqn:Hv; [|reflexivity].
    exfalso. apply Hc. apply (Hw ir c Hin). now rewrite Hv. }
  induction (rows df) as [|ir rs IH]; [reflexivity|].
  cbn [map length replicate]. f_equal.
  - apply Hall. left.
  - apply IH. intros jr Hjr. apply Hall. now right.
Qed.

(** X11.  Lines 59 to 61 only add columns.  Afterwards the six required
    columns are there; the columns the frame had come first, in their
    order, and every column that was added is a required one; the rows are
    as many, with the same labels; a column the frame had holds the same
    cells, and a required column the frame lacked is missing in every row.
    A frame that has the six columns is left as it is, so doing it twice
    changes nothing. *)
Theorem ensure_columns_adds_only (df : DataFrame) :
  well_formed df → indexed df →
  (∀ c, c ∈ required_columns → c ∈ columns (ensure_columns df)) ∧
  columns df `prefix_of` columns (ensure_columns df) ∧
  (∀ c, c ∈ columns (ensure_columns df) → c ∈ columns df ∨ c ∈ required_columns) ∧
  map fst (rows (ensure_columns df)) = map fst (rows df) ∧
  (∀ c, c ∈ columns df → column c (ensure_columns df) = column c df) ∧
  (∀ c, c ∈ required_columns → c ∉ columns df →
        column c (ensure_columns df) = replicate (length (rows df)) missing) ∧
  ((∀ c, c ∈ required_columns → c ∈ columns df) → ensure_columns df = df) ∧
  ensure_columns (ensure_columns df) = ensure_columns df.
Proof.
  intros Hw Hd. repeat split.
  - intros c. apply ensure_columns_required.
  - apply ensure_columns_prefix.
  - intros c. apply ensure_columns_origin.
  - rewrite (indexed_labels _ (ensure_columns_indexed _ Hd)), (indexed_labels _ Hd).
    now rewrite ensure_columns_length.
  - intros c _. now apply column_ensure_columns.
  - intros c _ Hc. rewrite column_ensure_columns by assumption.
    now apply column_absent.
  - apply ensure_columns_fixed.
  - apply ensure_columns_fixed. intros c. apply ensure_columns_required.
Qed.

(** A feed with the coordinates only, as the third answer of the example
    feed has them, and one row. *)
Definition bare_feed : DataFrame :=
  mkDF ["latitude"; "longitude"]
    [ (0%nat, {[ "latitude" := CNum 34.06; "longitude" := CNum (-118.24) ]}) ].

Lemma bare_feed_well_formed : well_formed bare_feed.
Proof.
  intros ir c Hin Hs. unfold bare_feed in *; simpl in *.
  apply list_elem_of_singleton in Hin as ->. simpl in Hs.
  destruct (decide (c = "latitude")) as [->|H1]; [left|].
  destruct (decide (c = "longitude")) as [->|H2]; [right; left|].
  exfalso. rewrite lookup_insert_ne, lookup_singleton_ne in Hs by congruence.
  now destruct Hs.
Qed.

(** On the frame with the coordinates only, the four columns that are
    created are missing in its row, and the latitude is kept. *)
Lemma ensure_columns_adds_only_witness :
  column "frp" (ensure_columns bare_feed) = [missing] ∧
  column "acq_time" (ensure_columns bare_feed) = [missing] ∧
  column "latitude" (ensure_columns bare_feed) = [CNum 34.06].
Proof.
  destruct (ensure_columns_adds_only bare_feed bare_feed_well_formed)
    as (_ & _ & _ & _ & Hkept & Hnew & _).
  - apply labels_indexed. reflexivity.
  - split; [|split].
    + apply (Hnew "frp"); [repeat constructor|].
      intros H. repeat (apply elem_of_cons in H as [H|H]; [discriminate|]).
      now apply elem_of_nil in H.
    + apply (Hnew "acq_time"); [repeat constructor|].
      intros H. repeat (apply elem_of_cons in H as [H|H]; [discriminate|]).
      now apply elem_of_nil in H.
    + apply (Hkept "latitude"). left.
Defined.

(** ** The bounding box at its edges *)

(** X12.  A latitude that is NaN is not below 89.9 in absolute value, so it
    takes the branch of the poles: the cosine is not computed, the longitude
    bounds use the fixed value 0.0001 and both latitude bounds are NaN. *)
Theorem generate_bbox_nan (E : Env) (lat lon radius_km : float) :
  F64.is_nan lat = true →
  generate_bbox (H := float_arith E) lat lon radius_km
  = (lon - radius_km / (111 * 0.0001), lat - radius_km / 111,
     lon + radius_km / (111 * 0.0001), lat + radius_km / 111) ∧
  F64.is_nan (lat - radius_km / 111) = true ∧
  F64.is_nan (lat + radius_km / 111) = true.
Proof.
  intros Hlat. split; [|split].
  - unfold generate_bbox.
    cbn [n_add n_sub n_mul n_div n_abs n_ltb n_cos n_radians
         lit_111 lit_89_9 lit_0_0001 float_arith].
    destruct (PrimFloat.abs lat <? 89.9) eqn:Hlt; [|reflexivity].
    apply F64.ltb_not_nan in Hlt as [Hn _]. rewrite F64.abs_nan in Hn. congruence.
  - now apply F64.sub_nan_l.
  - now apply F64.add_nan_l.
Qed.

Lemma generate_bbox_nan_witness :
  F64.is_nan (nan - 200 / 111) = true.
Proof.
  apply (generate_bbox_nan (Demo.env false) nan (-118.25) 200). reflexivity.
Defined.

(** ** The confidence shown in a report *)

(** The mantissa of a binary64 number with exponent [e] above the
    subnormal range has 53 bits. *)
Lemma mantissa_bounds (x : float) (s : bool) (m : positive) (e : Z) :
  Prim2SF x = S754_finite s m e → (-1074 < e)%Z →
  (2 ^ 52 <= Z.pos m < 2 ^ 53)%Z.
Proof.
  intros Hx He. pose proof (Prim2SF_valid x) as Hv. rewrite Hx in Hv.
  unfold valid_binary, bounded, canonical_mantissa in Hv.
  apply andb_prop in Hv as [Hc _].
  apply Z.eqb_eq in Hc. unfold SpecFloat.fexp, SpecFloat.emin, prec, emax in Hc.
  assert (Hd : Z.pos (digits2_pos m) = 53%Z) by lia.
  pose proof (B64.digits2_pos_bounds m) as Hm. rewrite Hd in Hm. exact Hm.
Qed.

Lemma round_half_even_bounds (m : positive) (e lo hi : Z) :
  (e < 0)%Z → (lo * 2 ^ (- e) <= Z.pos m <= hi * 2 ^ (- e))%Z →
  (lo <= round_half_even m e <= hi)%Z.
Proof.
  intros He Hm. unfold round_half_even.
  destruct (Z.leb_spec 0 e) as [?|_]; [lia|].
  assert (Hd : (0 < 2 ^ (- e))%Z) by (apply Z.pow_pos_nonneg; lia).
  set (d := (2 ^ (- e))%Z) in *.
  pose proof (Z.div_mod (Z.pos m) d ltac:(lia)) as Hdm.
  pose proof (Z.mod_pos_bound (Z.pos m) d Hd) as Hr.
  set (q := (Z.pos m / d)%Z) in *. set (r := (Z.pos m mod d)%Z) in *.
  assert (Hlo : (lo <= q)%Z) by nia.
  assert (Hhi : (q <= hi)%Z) by nia.
  assert (Hq : (q = hi → r = 0)%Z) by nia.
  destruct (Z.ltb_spec (2 * r) d); [lia|].
  assert (q < hi)%Z by lia.
  destruct (Z.ltb_spec d (2 * r)); [lia|].
  destruct (Z.even q); lia.
Qed.

(** A confidence between 40 and 100 is displayed as an integer between 40
    and 100. *)
Lemma format_0f_percent (p : float) :
  (40 <=? p) = true → (p <=? 100) = true →
  ∃ n, format_0f p = str_int n ∧ (40 <= n <= 100)%Z.
Proof.
  intros Hlo Hhi.
  rewrite FloatAxioms.leb_spec in Hlo, Hhi. unfold format_0f.
  change (Prim2SF 40) with (S754_finite false 5629499534213120 (-47)) in Hlo.
  change (Prim2SF 100) with (S754_finite false 7036874417766400 (-46)) in Hhi.
  destruct (Prim2SF p) as [s|s| |s m e] eqn:Hp.
  - destruct s; discriminate Hlo.
  - destruct s; [discriminate Hlo|discriminate Hhi].
  - discriminate Hlo.
  - destruct s; [discriminate Hlo|].
    unfold SFleb, SFcompare in Hlo, Hhi.
    pose proof (Pos.compare_spec 5629499534213120 m) as H1.
    pose proof (Pos.compare_spec m 7036874417766400) as H2.
    unfold Pos.compare in H1, H2.
    assert (He : (e = -47 ∨ e = -46)%Z).
    { destruct (Z.compare_spec (-47) e) as [He|He|He]; [now left| |discriminate Hlo].
      destruct (Z.compare_spec e (-46)) as [He'|He'|He']; [now right|lia|discriminate Hhi]. }
    pose proof (mantissa_bounds p false m e Hp ltac:(lia)) as Hm.
    change (2 ^ 52)%Z with 4503599627370496%Z in Hm.
    change (2 ^ 53)%Z with 9007199254740992%Z in Hm.
    exists (round_half_even m e). split; [reflexivity|].
    destruct He as [-> | ->].
    + clear H2 Hhi. rewrite Z.compare_refl in Hlo.
      assert (Hge : (5629499534213120 <= Z.pos m)%Z).
      { destruct H1 as [H1|H1|H1]; [|now apply Pos2Z.pos_le_pos, Pos.lt_le_incl
                                    |discriminate Hlo].
        subst m. apply Pos2Z.pos_le_pos, Pos.le_refl. }
      assert (40 <= round_half_even m (-47) <= 64)%Z; [|lia].
      apply round_half_even_bounds; [lia|].
      change (2 ^ (- -47))%Z with 140737488355328%Z. 
      split; [exact Hge|]. apply Z.lt_le_incl. exact (proj2 Hm).
    + clear H1 Hlo. rewrite Z.compare_refl in Hhi.
      assert (Hle : (Z.pos m <= 7036874417766400)%Z).
      { destruct H2 as [H2|H2|H2]; [|now apply Pos2Z.pos_le_pos, Pos.lt_le_incl
                                    |discriminate Hhi].
        subst m. apply Pos2Z.pos_le_pos, Pos.le_refl. }
      assert (64 <= round_half_even m (-46) <= 100)%Z; [|lia].
      apply round_half_even_bounds; [lia|].
      change (2 ^ (- -46))%Z with 70368744177664%Z.
      split; [exact (proj1 Hm)|exact Hle].
Qed.

(** X14.  No row of a report shows a confidence below 40% or above 100%: the
    display string of every returned row is an integer between 40 and 100
    followed by the percent sign. *)
Theorem report_percent_shown (E : Env) (lat lon : float)
    (sat_list : list string) (radius_km : float) (days : Z) (out : list string)
    (df : DataFrame) (ir : nat * row) :
  EnvSpec E →
  check_fires E lat lon sat_list radius_km days = (out, Ok df) →
  ir ∈ rows df →
  ∃ n, cell_at "confidence_percent" ir.2 = CStr (str_int n +:+ "%") ∧
       (40 <= n <= 100)%Z.
Proof.
  intros HE Hrun Hin.
  pose proof (check_fires_report E HE _ _ _ _ _ _ _ Hrun) as Hrep.
  destruct (report_row_source _ _ _ _ _ _ _ Hrep Hin) as (i & r0 & _ & Hrow).
  destruct Hrow as [Hen _ Hrel].
  destruct (normalize_range E (cell_at "confidence" r0)) as (_ & _ & Hhi).
  destruct (format_0f_percent (confidence_of E r0) Hrel Hhi) as (n & Hn & Hrange).
  exists n. split; [|exact Hrange].
  rewrite (en_confidence _ _ _ _ _ Hen). now rewrite Hn.
Qed.

Lemma report_percent_shown_witness :
  ∃ n, cell_at "confidence_percent" (demo_labelled_row demo_report 0).2
       = CStr (str_int n +:+ "%") ∧ (40 <= n <= 100)%Z.
Proof.
  apply (report_percent_shown (Demo.env false) 34.05 (-118.25) SATELLITES 200 7
           demo_run.1 demo_report (demo_labelled_row demo_report 0)
           (demo_env_spec false) demo_run_returns).
  eapply list_elem_of_lookup_2. apply (lookup_default_lt _ 0). vm_compute. lia.
Defined.

(** ** Each row of a report is about one detection *)

(** X15.  The cells of a returned row all come from one fetched row: the row
    carries the coordinates of that detection as fetched, its distance is
    the distance of these coordinates to the reference point, its time is
    the acquisition time of the detection and its date the acquisition
    date.  Filtering and sorting move rows whole. *)
Theorem report_rows_consistent (E : Env) (lat lon : float) (sat_list : list string)
    (radius_km : float) (days : Z) (out : list string) (df : DataFrame)
    (ir : nat * row) :
  EnvSpec E →
  check_fires E lat lon sat_list radius_km days = (out, Ok df) →
  ir ∈ rows df →
  ∃ i r0 x y t,
    (i, r0) ∈ rows (fetched E lat lon sat_list radius_km days) ∧
    cell_at "latitude" ir.2 = cell_at "latitude" r0 ∧
    cell_at "longitude" ir.2 = cell_at "longitude" r0 ∧
    astype_float E (cell_at "latitude" r0) = Ok x ∧
    astype_float E (cell_at "longitude" r0) = Ok y ∧
    cell_at "distance_km" ir.2 = CNum (haversine1 E lat lon x y) ∧
    format_time E (cell_at "acq_time" r0) = Ok t ∧
    cell_at "time" ir.2 = CStr t ∧
    cell_at "date" ir.2 = cell_at "acq_date" r0 ∧
    cell_at "acq_date" ir.2 = cell_at "acq_date" r0.
Proof.
  intros HE Hrun Hin.
  pose proof (check_fires_report E HE _ _ _ _ _ _ _ Hrun) as Hrep.
  destruct (report_row_source _ _ _ _ _ _ _ Hrep Hin) as (i & r0 & Hr0 & Hrow).
  destruct Hrow as [[_ _ _ (x & y & Hx & Hy & Hd) (t & Ht & Htime) Hdate Hother] _ _].
  assert (Hkeep : ∀ c, c ∉ derived_columns → cell_at c ir.2 = cell_at c r0)
    by exact Hother.
  exists i, r0, x, y, t.
  repeat split; try assumption; apply Hkeep; unfold derived_columns; intros H;
    repeat (apply elem_of_cons in H as [H|H]; [discriminate|]);
    now apply elem_of_nil in H.
Qed.

Lemma report_rows_consistent_witness :
  ∃ i r0,
    (i, r0) ∈ rows (fetched (Demo.env false) 34.05 (-118.25) SATELLITES 200 7) ∧
    cell_at "date" (demo_labelled_row demo_report 0).2 = cell_at "acq_date" r0.
Proof.
  destruct (report_rows_consistent (Demo.env false) 34.05 (-118.25) SATELLITES 200 7
              demo_run.1 demo_report (demo_labelled_row demo_report 0)
              (demo_env_spec false) demo_run_returns)
    as (i & r0 & x & y & t & Hin & _ & _ & _ & _ & _ & _ & _ & Hdate & _).
  - eapply list_elem_of_lookup_2. apply (lookup_default_lt _ 0). vm_compute. lia.
  - exists i, r0. split; assumption.
Defined.

